(** * FashionMate: validation, recommendation client and saved-outfit store

    A shallow embedding of the TypeScript sources

    - [App.tsx]            (form state, [validate], [handleSubmit], [handleReset]),
    - [geminiService.ts]   ([getOutfitRecommendation]),
    - [OutfitDisplay.tsx]  (the saved-check effect and [toggleSave]),
    - [types.ts]           (the response records),

    together with the properties the specification states about them.

    JavaScript strings are sequences of UTF-16 code units, so [length] is
    the [.length] of the source; values that come out of [JSON.parse] are
    untyped trees; React state is threaded explicitly; exceptions are an
    error monad; [localStorage] is a finite map from keys to strings. *)

From Stdlib Require Import NArith ZArith Ascii String List Bool Lia.
From Stdlib Require Import DecimalString DecimalPos DecimalFacts.
From stdpp Require Import base option list gmap.

Unset Default Proof Using.
Local Open Scope N_scope.

(* ================================================================== *)
(** * JavaScript strings *)
(* ================================================================== *)

(** A string is its list of UTF-16 code units. *)
Abbreviation jsstring := (list N) (only parsing).

(** A literal of the source, written in ASCII. *)
Definition js (s : string) : jsstring :=
  List.map N_of_ascii (list_ascii_of_string s).
Arguments js s%_string : simpl never.

(** [String(n)] for a non-negative integer constant, as a template
    literal interpolates it. *)
Definition Number_toString (n : nat) : jsstring :=
  js (NilEmpty.string_of_uint (Nat.to_uint n)).

(** [!s] on a string: only the empty string is falsy. *)
Definition str_falsy (s : jsstring) : bool :=
  match s with [] => true | _ :: _ => false end.

(** ECMAScript [WhiteSpace] and [LineTerminator] code points: what
    [String.prototype.trim] strips. *)
Definition isWhiteSpace (c : N) : bool :=
  existsb (N.eqb c)
    [9; 10; 11; 12; 13; 32; 160; 5760; 8232; 8233; 8239; 8287; 12288; 65279]
  || ((8192 <=? c) && (c <=? 8202)).

Fixpoint skip_while (p : N -> bool) (s : jsstring) : jsstring :=
  match s with
  | [] => []
  | c :: s' => if p c then skip_while p s' else s
  end.

Definition trimStart (s : jsstring) : jsstring := skip_while isWhiteSpace s.
Definition trimEnd (s : jsstring) : jsstring :=
  rev (skip_while isWhiteSpace (rev s)).
Definition trim (s : jsstring) : jsstring := trimEnd (trimStart s).

(** Character classes of the two regular expressions of [validate]. *)
Definition is_upper (c : N) : bool := (65 <=? c) && (c <=? 90).
Definition is_lower (c : N) : bool := (97 <=? c) && (c <=? 122).
Definition is_digit (c : N) : bool := (48 <=? c) && (c <=? 57).

(** [/[a-zA-Z]/.test(s)] *)
Definition test_letter (s : jsstring) : bool :=
  existsb (fun c => is_lower c || is_upper c) s.

(** [/[a-zA-Z0-9]/.test(s)] *)
Definition test_alnum (s : jsstring) : bool :=
  existsb (fun c => is_lower c || is_upper c || is_digit c) s.

(* ================================================================== *)
(** * Values produced by [JSON.parse] *)
(* ================================================================== *)

(** A number is kept as a decimal [mantissa * 10 ^ exponent]; the
    program never looks inside one.  An object is the sequence of its
    members. *)
Unset Elimination Schemes.
Inductive JSValue : Type :=
| JNull
| JBool (b : bool)
| JNum (mantissa exponent : Z)
| JStr (s : jsstring)
| JArr (elements : list JSValue)
| JObj (members : list (jsstring * JSValue)).
Set Elimination Schemes.

(** Induction on a value, with the hypothesis for every element of an
    array and every member of an object. *)
Section JSValue_induction.

Variable P : JSValue -> Prop.
Hypothesis P_null : P JNull.
Hypothesis P_bool : forall b, P (JBool b).
Hypothesis P_num : forall m e, P (JNum m e).
Hypothesis P_str : forall s, P (JStr s).
Hypothesis P_arr : forall l, Forall P l -> P (JArr l).
Hypothesis P_obj : forall ms, Forall (fun kv => P (snd kv)) ms -> P (JObj ms).

Fixpoint JSValue_ind (v : JSValue) : P v :=
  match v with
  | JNull => P_null
  | JBool b => P_bool b
  | JNum m e => P_num m e
  | JStr s => P_str s
  | JArr l =>
      P_arr l
        ((fix all (l : list JSValue) : Forall P l :=
            match l with
            | [] => List.Forall_nil P
            | x :: l' => List.Forall_cons P x l' (JSValue_ind x) (all l')
            end) l)
  | JObj ms =>
      P_obj ms
        ((fix all (ms : list (jsstring * JSValue)) : Forall (fun kv => P (snd kv)) ms :=
            match ms with
            | [] => List.Forall_nil _
            | kv :: ms' => List.Forall_cons _ kv ms' (JSValue_ind (snd kv)) (all ms')
            end) ms)
  end.

End JSValue_induction.

(** Truthiness of a value, as [&&], [||], [!] and [if] see it. *)
Definition truthy (v : JSValue) : bool :=
  match v with
  | JNull => false
  | JBool b => b
  | JNum m _ => negb (m =? 0)%Z
  | JStr s => negb (str_falsy s)
  | JArr _ | JObj _ => true
  end.

(** An exception value: an [Error] with its [message]. *)
Record JSError : Type := mkError { message : jsstring }.

(** The outcome of evaluating code that may throw. *)
Inductive Completion (A : Type) : Type :=
| Return (a : A)
| Throw (e : JSError).
Arguments Return {A} a.
Arguments Throw {A} e.

#[global] Instance Completion_ret : MRet Completion := @Return.
#[global] Instance Completion_bind : MBind Completion := fun A B k c =>
  match c with
  | Return a => k a
  | Throw e => Throw e
  end.

(** A line written by [console.error(label, e)]. *)
Record LogEntry : Type := mkLog { log_label : jsstring; log_error : JSError }.

(* ================================================================== *)
(** * Validation engine ([App.tsx]) *)
(* ================================================================== *)

Local Open Scope nat_scope.

Definition OCCASION_MIN_LENGTH : nat := 5.
Definition OCCASION_MAX_LENGTH : nat := 300.
Definition PREFERENCES_MAX_LENGTH : nat := 200.

Inductive Field : Type := occasion_field | preferences_field | gender_field.

(** An object with one slot per form field ([validationErrors],
    [touched]). *)
Record PerField (A : Type) : Type := mkPerField {
  of_occasion : A;
  of_gender : A;
  of_preferences : A
}.
Arguments mkPerField {A}.
Arguments of_occasion {A}.
Arguments of_gender {A}.
Arguments of_preferences {A}.

(** [{ ...prev, [field]: x }] *)
Definition set_field {A} (field : Field) (x : A) (prev : PerField A) : PerField A :=
  match field with
  | occasion_field => mkPerField x (of_gender prev) (of_preferences prev)
  | gender_field => mkPerField (of_occasion prev) x (of_preferences prev)
  | preferences_field => mkPerField (of_occasion prev) (of_gender prev) x
  end.

Definition get_field {A} (field : Field) (m : PerField A) : A :=
  match field with
  | occasion_field => of_occasion m
  | gender_field => of_gender m
  | preferences_field => of_preferences m
  end.

Definition MSG_OCCASION_REQUIRED : jsstring := js "Please describe the occasion.".
Definition MSG_OCCASION_TOO_SHORT : jsstring :=
  js "Add at least " ++ Number_toString OCCASION_MIN_LENGTH ++ js " characters.".
Definition MSG_OCCASION_TOO_LONG : jsstring :=
  js "Limit to " ++ Number_toString OCCASION_MAX_LENGTH ++ js " characters.".
Definition MSG_OCCASION_NO_TEXT : jsstring := js "Please include descriptive text.".
Definition MSG_GENDER_REQUIRED : jsstring := js "Please select a style focus.".
Definition MSG_PREFERENCES_TOO_LONG : jsstring :=
  js "Limit to " ++ Number_toString PREFERENCES_MAX_LENGTH ++ js " characters.".
Definition MSG_PREFERENCES_INVALID : jsstring := js "Please include valid text.".

(** [validate(field, value)]: computes the message, stores it under
    [field] in [validationErrors] and returns it. *)
Definition validate (field : Field) (value : jsstring)
    (validationErrors : PerField jsstring) : jsstring * PerField jsstring :=
  let trimmed := trim value in
  let message :=
    match field with
    | occasion_field =>
        if str_falsy trimmed then MSG_OCCASION_REQUIRED
        else if length trimmed <? OCCASION_MIN_LENGTH then MSG_OCCASION_TOO_SHORT
        else if OCCASION_MAX_LENGTH <? length value then MSG_OCCASION_TOO_LONG
        else if negb (test_letter trimmed) then MSG_OCCASION_NO_TEXT
        else []
    | gender_field =>
        if str_falsy trimmed then MSG_GENDER_REQUIRED else []
    | preferences_field =>
        if PREFERENCES_MAX_LENGTH <? length value then MSG_PREFERENCES_TOO_LONG
        else if (0 <? length value) && negb (test_alnum value)
             then MSG_PREFERENCES_INVALID
        else []
    end in
  (message, set_field field message validationErrors).

(** The message alone. *)
Definition validate_message (field : Field) (value : jsstring) : jsstring :=
  fst (validate field value (mkPerField [] [] [])).

(** The rule list of the specification for [occasion]: each check with
    the message reported when it fails, in the order they are tried. *)
Record Check : Type := mkCheck {
  passes : jsstring -> bool;
  failure_message : jsstring
}.

Fixpoint first_failure (checks : list Check) (value : jsstring) : jsstring :=
  match checks with
  | [] => []
  | c :: rest =>
      if passes c value then first_failure rest value else failure_message c
  end.

Definition occasion_checks : list Check :=
  [ mkCheck (fun v => negb (str_falsy (trim v))) MSG_OCCASION_REQUIRED;
    mkCheck (fun v => OCCASION_MIN_LENGTH <=? length (trim v)) MSG_OCCASION_TOO_SHORT;
    mkCheck (fun v => length v <=? OCCASION_MAX_LENGTH) MSG_OCCASION_TOO_LONG;
    mkCheck (fun v => test_letter (trim v)) MSG_OCCASION_NO_TEXT ].

(* ================================================================== *)
(** * Response records ([types.ts]) *)
(* ================================================================== *)

Record PrimaryOutfit : Type := mkPrimaryOutfit {
  title : jsstring;
  top : jsstring;
  bottom : jsstring;
  footwear : jsstring;
  accessories : list jsstring;
  reasoning : jsstring
}.

Record AdditionalSuggestion : Type := mkAdditionalSuggestion {
  label : jsstring;
  outfit_summary : jsstring
}.

Record StylistResponse : Type := mkStylistResponse {
  primary_outfit : PrimaryOutfit;
  additional_suggestions : list AdditionalSuggestion;
  styling_notes : jsstring
}.

(** The value of property [key] of an object: the last member written
    under that key; [None] is [undefined]. *)
Definition get_member (key : jsstring) (members : list (jsstring * JSValue))
  : option JSValue :=
  snd <$> List.find (fun kv => bool_decide (fst kv = key)) (rev members).

(** A record as the JavaScript object it is at run time, with its
    members in the order of the interface (and of the response schema). *)
Definition PrimaryOutfit_to_js (o : PrimaryOutfit) : JSValue :=
  JObj [ (js "title", JStr (title o));
         (js "top", JStr (top o));
         (js "bottom", JStr (bottom o));
         (js "footwear", JStr (footwear o));
         (js "accessories", JArr (List.map JStr (accessories o)));
         (js "reasoning", JStr (reasoning o)) ].

Definition AdditionalSuggestion_to_js (a : AdditionalSuggestion) : JSValue :=
  JObj [ (js "label", JStr (label a));
         (js "outfit_summary", JStr (outfit_summary a)) ].

Definition StylistResponse_to_js (r : StylistResponse) : JSValue :=
  JObj [ (js "primary_outfit", PrimaryOutfit_to_js (primary_outfit r));
         (js "additional_suggestions",
            JArr (List.map AdditionalSuggestion_to_js (additional_suggestions r)));
         (js "styling_notes", JStr (styling_notes r)) ].

(** Reading a run-time value at the interfaces of [types.ts]: [Some]
    exactly when the value has every declared field at its declared
    type (further members are allowed, as in a structural type). *)
Definition as_string (v : JSValue) : option jsstring :=
  match v with JStr s => Some s | _ => None end.

Definition as_array {A} (f : JSValue -> option A) (v : JSValue) : option (list A) :=
  match v with JArr l => mapM f l | _ => None end.

Definition field {A} (f : JSValue -> option A) (key : jsstring) (v : JSValue)
  : option A :=
  match v with
  | JObj ms => get_member key ms ≫= f
  | _ => None
  end.

Definition as_PrimaryOutfit (v : JSValue) : option PrimaryOutfit :=
  t ← field as_string (js "title") v;
  tp ← field as_string (js "top") v;
  b ← field as_string (js "bottom") v;
  f ← field as_string (js "footwear") v;
  a ← field (as_array as_string) (js "accessories") v;
  r ← field as_string (js "reasoning") v;
  Some (mkPrimaryOutfit t tp b f a r).

Definition as_AdditionalSuggestion (v : JSValue) : option AdditionalSuggestion :=
  l ← field as_string (js "label") v;
  s ← field as_string (js "outfit_summary") v;
  Some (mkAdditionalSuggestion l s).

Definition as_StylistResponse (v : JSValue) : option StylistResponse :=
  p ← field as_PrimaryOutfit (js "primary_outfit") v;
  a ← field (as_array as_AdditionalSuggestion) (js "additional_suggestions") v;
  n ← field as_string (js "styling_notes") v;
  Some (mkStylistResponse p a n).

(* ================================================================== *)
(** * Recommendation client ([geminiService.ts]) *)
(* ================================================================== *)

(** The [responseSchema] language the call uses. *)
Unset Elimination Schemes.
Inductive Schema : Type :=
| Type_STRING
| Type_ARRAY (items : Schema)
| Type_OBJECT (properties : list (jsstring * Schema)) (required : list jsstring).
Set Elimination Schemes.

(** What a schema admits: a string, an array of admitted items (of any
    length), an object whose required keys are present and whose
    declared properties, when present, are admitted. *)
Fixpoint admits (sc : Schema) (v : JSValue) {struct sc} : bool :=
  match sc, v with
  | Type_STRING, JStr _ => true
  | Type_ARRAY items, JArr l => forallb (admits items) l
  | Type_OBJECT props req, JObj ms =>
      forallb (fun k => bool_decide (is_Some (get_member k ms))) req
      && (fix each (ps : list (jsstring * Schema)) : bool :=
            match ps with
            | [] => true
            | (k, s) :: ps' =>
                match get_member k ms with
                | Some x => admits s x
                | None => true
                end && each ps'
            end) props
  | _, _ => false
  end.

Record GenerateContentConfig : Type := mkConfig {
  systemInstruction : jsstring;
  responseMimeType : jsstring;
  responseSchema : Schema
}.

Record GenerateContentParameters : Type := mkParameters {
  model : jsstring;
  contents : jsstring;
  config : GenerateContentConfig
}.

(** [response.text] is a string or [undefined]. *)
Record GenerateContentResponse : Type := mkResponse { text : option jsstring }.

(** The remote service: a rejected promise is a [Throw]. *)
Definition GenAI : Type :=
  GenerateContentParameters -> Completion GenerateContentResponse.

(** Lines of a template literal, joined by line feeds. *)
Definition template (lines : list jsstring) : jsstring :=
  match lines with
  | [] => []
  | l :: ls => l ++ concat (List.map (fun x => 10%N :: x) ls)
  end.

Definition quote : jsstring := [34%N].

Definition modelId : jsstring := js "gemini-2.5-flash".

Definition the_systemInstruction : jsstring :=
  template
    [ [];
      js "    You are a world-class AI Fashion Stylist. ";
      js "    Your goal is to recommend elegant, stylish, and appropriate outfits based on the user's event or occasion and gender identity.";
      js "    ";
      js "    Guidelines:";
      js "    - Focus on aesthetics, color coordination, and fabric textures.";
      js "    - Be descriptive but concise.";
      js "    - Do NOT generate images or links.";
      js "    - Your tone should be sophisticated, encouraging, and helpful.";
      js "    - Ensure the 'primary_outfit' is the absolute best recommendation for the specific request.";
      js "    - Provide 3 distinct 'additional_suggestions' (e.g., Casual, Trendy, Budget).";
      js "  " ].

Definition userPrompt (occasion gender : jsstring) (preferences : option jsstring)
  : jsstring :=
  template
    [ [];
      js "    I need an outfit recommendation for a " ++ gender
        ++ js " for the following occasion: " ++ quote ++ occasion ++ quote ++ js ".";
      js "    " ++ match preferences with
                   | Some p => if str_falsy p then [] else js "My preferences are: " ++ p
                   | None => []
                   end;
      js "    ";
      js "    Please provide a text-only recommendation structured exactly as requested.";
      js "  " ].

Definition the_responseSchema : Schema :=
  Type_OBJECT
    [ (js "primary_outfit",
        Type_OBJECT
          [ (js "title", Type_STRING);
            (js "top", Type_STRING);
            (js "bottom", Type_STRING);
            (js "footwear", Type_STRING);
            (js "accessories", Type_ARRAY Type_STRING);
            (js "reasoning", Type_STRING) ]
          [ js "title"; js "top"; js "bottom"; js "footwear"; js "accessories";
            js "reasoning" ]);
      (js "additional_suggestions",
        Type_ARRAY
          (Type_OBJECT
             [ (js "label", Type_STRING); (js "outfit_summary", Type_STRING) ]
             [ js "label"; js "outfit_summary" ]));
      (js "styling_notes", Type_STRING) ]
    [ js "primary_outfit"; js "additional_suggestions"; js "styling_notes" ].

Definition request (occasion gender : jsstring) (preferences : option jsstring)
  : GenerateContentParameters :=
  mkParameters modelId (userPrompt occasion gender preferences)
    (mkConfig the_systemInstruction (js "application/json") the_responseSchema).

Definition MSG_NO_RESPONSE : jsstring := js "No response received from AI Stylist.".
Definition MSG_UNABLE : jsstring :=
  js "Unable to generate outfit recommendations at this time. Please try again.".

(** The body of a [try] block with the handler that replaces whatever
    was thrown; the handler sees the thrown value. *)
Definition try_catch {A} (body : Completion A) (handler : JSError -> Completion A * list LogEntry)
  : Completion A * list LogEntry :=
  match body with
  | Return a => (Return a, [])
  | Throw e => handler e
  end.

(** The text of [userPrompt] before and after the line of the
    preferences. *)
Definition prompt_head (occasion gender : jsstring) : jsstring :=
  10%N :: js "    I need an outfit recommendation for a " ++ gender
    ++ js " for the following occasion: " ++ quote ++ occasion ++ quote ++ js "."
    ++ 10%N :: js "    ".

Definition prompt_tail : jsstring :=
  10%N :: js "    "
    ++ 10%N :: js "    Please provide a text-only recommendation structured exactly as requested."
    ++ 10%N :: js "  ".

(** The two object schemas inside [the_responseSchema]. *)
Definition primary_outfit_schema : Schema :=
  Type_OBJECT
    [ (js "title", Type_STRING);
      (js "top", Type_STRING);
      (js "bottom", Type_STRING);
      (js "footwear", Type_STRING);
      (js "accessories", Type_ARRAY Type_STRING);
      (js "reasoning", Type_STRING) ]
    [ js "title"; js "top"; js "bottom"; js "footwear"; js "accessories";
      js "reasoning" ].

Definition suggestion_schema : Schema :=
  Type_OBJECT [ (js "label", Type_STRING); (js "outfit_summary", Type_STRING) ]
    [ js "label"; js "outfit_summary" ].

(** A declared property is present and admitted. *)
Definition member_admitted (ms : list (jsstring * JSValue)) (ks : jsstring * Schema) : Prop :=
  exists y, get_member (fst ks) ms = Some y /\ admits (snd ks) y = true.

Section Client.

Variable JSON_parse : jsstring -> Completion JSValue.

(** [getOutfitRecommendation(occasion, gender, preferences)] against the
    service [ai]: the settled promise and what was written to the
    console. *)
Definition getOutfitRecommendation (ai : GenAI)
    (occasion gender : jsstring) (preferences : option jsstring)
  : Completion JSValue * list LogEntry :=
  try_catch
    (response ← ai (request occasion gender preferences);
     match text response with
     | None => Throw (mkError MSG_NO_RESPONSE)
     | Some t =>
         if str_falsy t then Throw (mkError MSG_NO_RESPONSE)
         else JSON_parse t
     end)
    (fun error =>
       (Throw (mkError MSG_UNABLE), [mkLog (js "Gemini API Error:") error])).

End Client.

(* ================================================================== *)
(** * The form and its submission ([App.tsx]) *)
(* ================================================================== *)

Definition SUGGESTED_OCCASIONS : list jsstring :=
  [ js "Casual Coffee Date"; js "Summer Wedding Guest"; js "Tech Job Interview";
    js "Weekend Brunch"; js "Gallery Opening"; js "Beach Vacation" ].

Definition GENDER_OPTIONS : list jsstring :=
  [ js "Female"; js "Male"; js "Non-Binary" ].

(** The [useState] cells of [App].  [result] is [JNull] for [null]. *)
Record AppState : Type := mkApp {
  occasion : jsstring;
  gender : jsstring;
  preferences : jsstring;
  result : JSValue;
  loading : bool;
  error : option jsstring;
  validationErrors : PerField jsstring;
  touched : PerField bool
}.

Definition initial_App : AppState :=
  mkApp [] [] [] JNull false None (mkPerField [] [] []) (mkPerField false false false).

Definition setOccasion (v : jsstring) (st : AppState) : AppState :=
  mkApp v (gender st) (preferences st) (result st) (loading st) (error st)
    (validationErrors st) (touched st).
Definition setGender (v : jsstring) (st : AppState) : AppState :=
  mkApp (occasion st) v (preferences st) (result st) (loading st) (error st)
    (validationErrors st) (touched st).
Definition setPreferences (v : jsstring) (st : AppState) : AppState :=
  mkApp (occasion st) (gender st) v (result st) (loading st) (error st)
    (validationErrors st) (touched st).
Definition setResult (v : JSValue) (st : AppState) : AppState :=
  mkApp (occasion st) (gender st) (preferences st) v (loading st) (error st)
    (validationErrors st) (touched st).
Definition setLoading (b : bool) (st : AppState) : AppState :=
  mkApp (occasion st) (gender st) (preferences st) (result st) b (error st)
    (validationErrors st) (touched st).
Definition setError (e : option jsstring) (st : AppState) : AppState :=
  mkApp (occasion st) (gender st) (preferences st) (result st) (loading st) e
    (validationErrors st) (touched st).
Definition setValidationErrors (f : PerField jsstring -> PerField jsstring)
    (st : AppState) : AppState :=
  mkApp (occasion st) (gender st) (preferences st) (result st) (loading st) (error st)
    (f (validationErrors st)) (touched st).
Definition setTouched (f : PerField bool -> PerField bool) (st : AppState) : AppState :=
  mkApp (occasion st) (gender st) (preferences st) (result st) (loading st) (error st)
    (validationErrors st) (f (touched st)).

(** [validate] as a component method: the message and the state after
    its [setValidationErrors]. *)
Definition App_validate (field : Field) (value : jsstring) (st : AppState)
  : jsstring * AppState :=
  let '(message, errs) := validate field value (validationErrors st) in
  (message, setValidationErrors (fun _ => errs) st).

Definition field_value (f : Field) (st : AppState) : jsstring :=
  match f with
  | occasion_field => occasion st
  | gender_field => gender st
  | preferences_field => preferences st
  end.

(** One of the three [useEffect]s: after a render in which the field's
    value or its touched flag differs from the previous render, a touched
    field is validated again. *)
Definition revalidate_effect (f : Field) (before after st : AppState) : AppState :=
  if bool_decide (field_value f before = field_value f after
                  ∧ get_field f (touched before) = get_field f (touched after))
  then st
  else if get_field f (touched after)
       then snd (App_validate f (field_value f after) st)
       else st.

Definition effects (before after : AppState) : AppState :=
  revalidate_effect preferences_field before after
    (revalidate_effect gender_field before after
       (revalidate_effect occasion_field before after after)).

Definition handleBlur (f : Field) (st : AppState) : AppState :=
  let st1 := setTouched (set_field f true) st in
  snd (App_validate f
         (match f with occasion_field => occasion st | _ => preferences st end) st1).

Definition handleGenderSelect (selected : jsstring) (st : AppState) : AppState :=
  setTouched (set_field gender_field true) (setGender selected st).

Definition handleSuggestionClick (t : jsstring) (st : AppState) : AppState :=
  setTouched (set_field occasion_field true) (setOccasion t st).

Definition MSG_UNEXPECTED : jsstring := js "An unexpected error occurred.".

(** The arguments of a call of [getOutfitRecommendation]. *)
Definition Call : Type := (jsstring * jsstring * option jsstring)%type.

(** [handleSubmit] up to its [await]: the state it leaves, and the call
    it has issued, if any. *)
Definition handleSubmit (st : AppState) : AppState * option Call :=
  let '(occasionError, st1) := App_validate occasion_field (occasion st) st in
  let '(genderError, st2) := App_validate gender_field (gender st) st1 in
  let '(preferencesError, st3) := App_validate preferences_field (preferences st) st2 in
  let st4 := setTouched (fun _ => mkPerField true true true) st3 in
  if negb (str_falsy occasionError) || negb (str_falsy genderError)
     || negb (str_falsy preferencesError)
  then (st4, None)
  else if str_falsy (trim (occasion st)) || str_falsy (gender st)
  then (st4, None)
  else (setResult JNull (setError None (setLoading true st4)),
        Some (occasion st, gender st, Some (preferences st))).

(** [handleSubmit] after its [await]: [try]/[catch]/[finally] on the
    settled promise. *)
Definition handleSubmit_resume (settled : Completion JSValue) (st : AppState)
  : AppState :=
  setLoading false
    match settled with
    | Return data => setResult data st
    | Throw err =>
        setError
          (Some (if str_falsy (message err) then MSG_UNEXPECTED else message err)) st
    end.

Definition handleReset (st : AppState) : AppState :=
  setTouched (fun _ => mkPerField false false false)
    (setValidationErrors (fun _ => mkPerField [] [] [])
       (setError None
          (setPreferences [] (setGender [] (setOccasion [] (setResult JNull st)))))).

Definition isFormValid (st : AppState) : bool :=
  str_falsy (of_occasion (validationErrors st))
  && str_falsy (of_gender (validationErrors st))
  && str_falsy (of_preferences (validationErrors st))
  && (OCCASION_MIN_LENGTH <=? length (trim (occasion st)))
  && negb (str_falsy (gender st)).

(** What the user sees of the two outcome cells. *)
Definition error_shown (st : AppState) : bool :=
  match error st with
  | Some m => negb (str_falsy m)
  | None => false
  end.
Definition result_shown (st : AppState) : bool := truthy (result st).

(** The three cells a submission drives. *)
Definition outcome (st : AppState) : JSValue * option jsstring * bool :=
  (result st, error st, loading st).

(** The page as a transition system: the React state, the promises of
    [getOutfitRecommendation] still pending, and the console. *)
Record Page : Type := mkPage {
  app : AppState;
  pending : list Call;
  console : list LogEntry
}.

Inductive Event : Type :=
| ChangeOccasion (v : jsstring)
| ChangePreferences (v : jsstring)
| Blur (f : Field)
| SelectGender (opt : jsstring)
| ClickSuggestion (t : jsstring)
| Submit
| Reset
| TryAgain
| Settle (i : nat) (ai : GenAI).

(** The form is rendered under [!result]; its submit button is
    [disabled={loading || !isFormValid}]; the error card with its button
    under [error && !loading]; the logo, which resets, always. *)
Definition form_rendered (st : AppState) : bool := negb (result_shown st).

Definition enabled (ev : Event) (p : Page) : bool :=
  let st := app p in
  match ev with
  | ChangeOccasion _ | ChangePreferences _ => form_rendered st
  | Blur f =>
      form_rendered st
      && match f with gender_field => false | _ => true end
  | SelectGender opt => form_rendered st && bool_decide (opt ∈ GENDER_OPTIONS)
  | ClickSuggestion t => form_rendered st && bool_decide (t ∈ SUGGESTED_OCCASIONS)
  | Submit => form_rendered st && negb (loading st) && isFormValid st
  | Reset => true
  | TryAgain => error_shown st && negb (loading st)
  | Settle i _ => bool_decide (i < length (pending p))
  end.

(** The invariant of the page: the error and the result are not both
    shown; and either nothing is pending and [loading] is off, or exactly
    one call is pending, [loading] is on and both cells are clear. *)
Definition page_invariant (p : Page) : Prop :=
  error_shown (app p) && result_shown (app p) = false
  /\ ((loading (app p) = false /\ pending p = [])
      \/ (loading (app p) = true /\ (exists c, pending p = [c])
          /\ error (app p) = None /\ result (app p) = JNull)).

(** The state after the [setTouched] and the three [validate] calls of
    [handleSubmit]. *)
Definition submitted_form (st : AppState) : AppState :=
  mkApp (occasion st) (gender st) (preferences st) (result st) (loading st) (error st)
    (mkPerField (validate_message occasion_field (occasion st))
                (validate_message gender_field (gender st))
                (validate_message preferences_field (preferences st)))
    (mkPerField true true true).

(** The message a field should carry: the one [validate] gives for its
    current value once the field is touched, none before. *)
Definition expected_message (st : AppState) (f : Field) : jsstring :=
  if get_field f (touched st)
  then fst (validate f (field_value f st) (validationErrors st))
  else [].

(** Every slot of [validationErrors] carries the expected message. *)
Definition messages_in_step (st : AppState) : Prop :=
  forall f, get_field f (validationErrors st) = expected_message st f.

(** The three messages are empty for the current values of the form. *)
Definition form_valid (st : AppState) : Prop :=
  forall f, fst (validate f (field_value f st) (validationErrors st)) = [].

Section App.

Variable JSON_parse : jsstring -> Completion JSValue.

(** An event handler followed by the effects of the render it causes. *)
Definition rendered (before after : AppState) : AppState := effects before after.

Definition fire (ev : Event) (p : Page) : Page :=
  let st := app p in
  match ev with
  | ChangeOccasion v => mkPage (rendered st (setOccasion v st)) (pending p) (console p)
  | ChangePreferences v =>
      mkPage (rendered st (setPreferences v st)) (pending p) (console p)
  | Blur f => mkPage (rendered st (handleBlur f st)) (pending p) (console p)
  | SelectGender opt =>
      mkPage (rendered st (handleGenderSelect opt st)) (pending p) (console p)
  | ClickSuggestion t =>
      mkPage (rendered st (handleSuggestionClick t st)) (pending p) (console p)
  | Submit =>
      let '(st', call) := handleSubmit st in
      mkPage (rendered st st')
        (pending p ++ match call with Some c => [c] | None => [] end) (console p)
  | Reset => mkPage (rendered st (handleReset st)) (pending p) (console p)
  | TryAgain => mkPage (rendered st (setError None st)) (pending p) (console p)
  | Settle i ai =>
      match pending p !! i with
      | Some (o, g, pr) =>
          let '(settled, logged) := getOutfitRecommendation JSON_parse ai o g pr in
          mkPage (rendered st (handleSubmit_resume settled st))
            (delete i (pending p)) (console p ++ logged)
      | None => p
      end
  end.

Definition initial_Page : Page := mkPage initial_App [] [].

Inductive reachable : Page -> Prop :=
| reachable_initial : reachable initial_Page
| reachable_fire p ev :
    reachable p -> enabled ev p = true -> reachable (fire ev p).

End App.

(* ================================================================== *)
(** * Saved-outfit store ([OutfitDisplay.tsx]) *)
(* ================================================================== *)

Definition SAVED_OUTFITS_KEY : jsstring := js "fashion_mate_saved_outfits".

(** [o.title] on a parsed value: reading a property of [null] throws,
    an object yields its member or [undefined], every other value has no
    such property. *)
Definition get_title (o : JSValue) : Completion (option JSValue) :=
  match o with
  | JNull => Throw (mkError (js "Cannot read properties of null (reading 'title')"))
  | JObj ms => Return (get_member (js "title") ms)
  | _ => Return None
  end.

(** [o.title === t] for a string [t]. *)
Definition title_equals (t : jsstring) (o : JSValue) : Completion bool :=
  p ← get_title o;
  Return match p with
         | Some (JStr s) => bool_decide (s = t)
         | _ => false
         end.

(** Calling an array method on a parsed value: only an array has it.
    Reading the method off [null] is a [TypeError] of its own; on any
    other value the method is [undefined] and the call fails. *)
Definition array_method (name : jsstring) (v : JSValue) : Completion (list JSValue) :=
  match v with
  | JArr l => Return l
  | JNull =>
      Throw (mkError (js "Cannot read properties of null (reading '" ++ name ++ js "')"))
  | _ => Throw (mkError (js "outfits." ++ name ++ js " is not a function"))
  end.

(** [Array.prototype.some]: stops at the first element the callback
    accepts. *)
Fixpoint Array_some (f : JSValue -> Completion bool) (l : list JSValue)
  : Completion bool :=
  match l with
  | [] => Return false
  | x :: l' => b ← f x; if b : bool then Return true else Array_some f l'
  end.

(** [Array.prototype.filter]: the callback runs on every element, in
    order. *)
Fixpoint Array_filter (f : JSValue -> Completion bool) (l : list JSValue)
  : Completion (list JSValue) :=
  match l with
  | [] => Return []
  | x :: l' =>
      b ← f x;
      rest ← Array_filter f l';
      Return (if b : bool then x :: rest else rest)
  end.

(** The component: its prop, its [isSaved] cell, and the browser state
    it reads and writes. *)
Record OutfitDisplay : Type := mkDisplay {
  shown : PrimaryOutfit;
  isSaved : bool;
  localStorage : gmap (list N) (list N);
  errors_logged : list LogEntry
}.

Section Store.

Variable JSON_parse : jsstring -> Completion JSValue.
Variable JSON_stringify : JSValue -> jsstring.

(** Whether [localStorage.setItem(key, value)] is refused (it then
    throws a [QuotaExceededError] and stores nothing). *)
Variable quota_exceeded : gmap (list N) (list N) -> jsstring -> jsstring -> bool.

Definition getItem (key : jsstring) (ls : gmap (list N) (list N)) : option jsstring :=
  ls !! key.

Definition setItem (key value : jsstring) (ls : gmap (list N) (list N))
  : Completion (gmap (list N) (list N)) :=
  if quota_exceeded ls key value
  then Throw (mkError (js "The quota has been exceeded."))
  else Return (<[key := value]> ls).

(** The [try] block of the effect that runs when [primary_outfit]
    changes: the new value of [isSaved]. *)
Definition saved_check_body (d : OutfitDisplay) : Completion bool :=
  match getItem SAVED_OUTFITS_KEY (localStorage d) with
  | Some savedData =>
      if str_falsy savedData then Return (isSaved d)
      else
        parsed ← JSON_parse savedData;
        outfits ← array_method (js "some") parsed;
        Array_some (title_equals (title (shown d))) outfits
  | None => Return (isSaved d)
  end.

Definition saved_check (d : OutfitDisplay) : OutfitDisplay :=
  match saved_check_body d with
  | Return exists_ =>
      mkDisplay (shown d) exists_ (localStorage d) (errors_logged d)
  | Throw e =>
      mkDisplay (shown d) (isSaved d) (localStorage d)
        (errors_logged d ++ [mkLog (js "Failed to read from local storage") e])
  end.

(** The [try] block of [toggleSave]: the storage and the flag it
    leaves. *)
Definition toggleSave_body (d : OutfitDisplay)
  : Completion (bool * gmap (list N) (list N)) :=
  parsed ← match getItem SAVED_OUTFITS_KEY (localStorage d) with
            | Some savedData =>
                if str_falsy savedData then Return (JArr []) else JSON_parse savedData
            | None => Return (JArr [])
            end;
  outfits ← (if isSaved d
             then
               l ← array_method (js "filter") parsed;
               Array_filter
                 (fun o => same ← title_equals (title (shown d)) o; Return (negb same)) l
             else
               l ← array_method (js "push") parsed;
               Return (l ++ [PrimaryOutfit_to_js (shown d)]));
  ls ← setItem SAVED_OUTFITS_KEY (JSON_stringify (JArr outfits)) (localStorage d);
  Return (negb (isSaved d), ls).

Definition toggleSave (d : OutfitDisplay) : OutfitDisplay :=
  match toggleSave_body d with
  | Return (saved, ls) => mkDisplay (shown d) saved ls (errors_logged d)
  | Throw e =>
      mkDisplay (shown d) (isSaved d) (localStorage d)
        (errors_logged d ++ [mkLog (js "Failed to save to local storage") e])
  end.

(** Mounting the component on an outfit: [useState(false)], then the
    effect. *)
Definition mount (outfit : PrimaryOutfit) (ls : gmap (list N) (list N))
    (log : list LogEntry) : OutfitDisplay :=
  saved_check (mkDisplay outfit false ls log).

(** A render with another [primary_outfit]: the cell is kept, the
    effect runs again. *)
Definition rerender (outfit : PrimaryOutfit) (d : OutfitDisplay) : OutfitDisplay :=
  saved_check (mkDisplay outfit (isSaved d) (localStorage d) (errors_logged d)).

(** The persisted collection, read at the record type of [types.ts]:
    an absent or empty item is the empty collection, anything that does
    not parse to an array of outfits is no collection. *)
Definition load (ls : gmap (list N) (list N)) : option (list PrimaryOutfit) :=
  match getItem SAVED_OUTFITS_KEY ls with
  | Some savedData =>
      if str_falsy savedData then Some []
      else match JSON_parse savedData with
           | Return v => as_array as_PrimaryOutfit v
           | Throw _ => None
           end
  | None => Some []
  end.

(** [isSaved(t)] of the specification: the check of a freshly mounted
    component showing an outfit titled as [outfit]. *)
Definition saved_in (outfit : PrimaryOutfit) (ls : gmap (list N) (list N)) : bool :=
  isSaved (mount outfit ls []).

(** The serialized form [toggleSave] writes for a collection. *)
Definition serialize (os : list PrimaryOutfit) : jsstring :=
  JSON_stringify (JArr (List.map PrimaryOutfit_to_js os)).

(** The storage holds the collection [os]: nothing yet and [os] empty,
    or an item this store wrote. *)
Definition holds (ls : gmap (list N) (list N)) (os : list PrimaryOutfit) : Prop :=
  (ls !! SAVED_OUTFITS_KEY = None ∧ os = [])
  ∨ ls !! SAVED_OUTFITS_KEY = Some (serialize os).

(** What [toggleSave] is about to write. *)
Definition toggled (d : OutfitDisplay) (os : list PrimaryOutfit) : list PrimaryOutfit :=
  if isSaved d then filter (fun o => title o <> title (shown d)) os
  else os ++ [shown d].

(** The display agrees with the storage: the storage holds a collection
    with distinct titles, and [isSaved] says whether the shown title is
    in it. *)
Definition in_step (d : OutfitDisplay) (os : list PrimaryOutfit) : Prop :=
  holds (localStorage d) os
  /\ NoDup (List.map title os)
  /\ isSaved d = bool_decide (title (shown d) ∈ List.map title os).

(** The life of one display in one tab, from a storage [ls0]. *)
Inductive display_reachable (ls0 : gmap (list N) (list N)) : OutfitDisplay -> Prop :=
| display_mounted outfit : display_reachable ls0 (mount outfit ls0 [])
| display_toggled d :
    display_reachable ls0 d -> display_reachable ls0 (toggleSave d)
| display_rerendered outfit d :
    display_reachable ls0 d -> display_reachable ls0 (rerender outfit d)
| display_remounted outfit d :
    display_reachable ls0 d ->
    display_reachable ls0 (mount outfit (localStorage d) (errors_logged d)).

End Store.

(* ================================================================== *)
(** * A reference [JSON] codec *)
(* ================================================================== *)

(** The program is verified against any [JSON.parse] and
    [JSON.stringify]; this module is one concrete pair, used to run the
    program on concrete texts.  The parser accepts the JSON grammar
    (insignificant white space, the escapes of strings, fractions and
    exponents); it keeps the members of an object as written and the
    digits of a number as written.  The printer writes no white space
    and escapes what a string literal must escape.  It is not the codec
    of ECMAScript on every text: a number is kept as its mantissa and
    exponent, without rounding to a double, and a lone surrogate is
    written as it is.  The runs below use texts without numbers and
    without surrogates, on which the two agree. *)
Module JSON.

Local Open Scope N_scope.

Definition is_ws (c : N) : bool :=
  (c =? 32) || (c =? 9) || (c =? 10) || (c =? 13).

Definition skip_ws (s : jsstring) : jsstring := skip_while is_ws s.

(** ** Printing *)

Definition hex_char (n : N) : N := if n <? 10 then 48 + n else 87 + n.

Definition escape (c : N) : jsstring :=
  if c =? 34 then [92; 34]
  else if c =? 92 then [92; 92]
  else if c =? 8 then [92; 98]
  else if c =? 12 then [92; 102]
  else if c =? 10 then [92; 110]
  else if c =? 13 then [92; 114]
  else if c =? 9 then [92; 116]
  else if c <? 32 then [92; 117; 48; 48; hex_char (c / 16); hex_char (c mod 16)]
  else [c].

Definition quoted (s : jsstring) : jsstring :=
  34 :: flat_map escape s ++ [34].

Definition print_Z (z : Z) : jsstring := js (NilEmpty.string_of_int (Z.to_int z)).

(** The exponent of a number, written when it is not zero. *)
Definition exponent_text (e : Z) : jsstring :=
  if (e =? 0)%Z then [] else 101 :: print_Z e.

Fixpoint separated (parts : list jsstring) : jsstring :=
  match parts with
  | [] => []
  | [p] => p
  | p :: ps => p ++ 44 :: separated ps
  end.

Fixpoint stringify (v : JSValue) : jsstring :=
  match v with
  | JNull => js "null"
  | JBool true => js "true"
  | JBool false => js "false"
  | JNum m e => print_Z m ++ exponent_text e
  | JStr s => quoted s
  | JArr l => 91 :: separated (List.map stringify l) ++ [93]
  | JObj ms =>
      123 :: separated (List.map (fun kv => quoted (fst kv) ++ 58 :: stringify (snd kv)) ms)
          ++ [125]
  end.

(** ** Parsing *)

Definition hex_value (c : N) : option N :=
  if is_digit c then Some (c - 48)
  else if (97 <=? c) && (c <=? 102) then Some (c - 87)
  else if (65 <=? c) && (c <=? 70) then Some (c - 55)
  else None.

Definition hex4 (a b c d : N) : option N :=
  x ← hex_value a; y ← hex_value b; z ← hex_value c; w ← hex_value d;
  Some (((x * 16 + y) * 16 + z) * 16 + w).

Definition unescape (c : N) : option N :=
  if (c =? 34) || (c =? 92) || (c =? 47) then Some c
  else if c =? 98 then Some 8
  else if c =? 102 then Some 12
  else if c =? 110 then Some 10
  else if c =? 114 then Some 13
  else if c =? 116 then Some 9
  else None.

Definition push_unit (c : N) (r : option (jsstring * jsstring))
  : option (jsstring * jsstring) :=
  '(s, rest) ← r; Some (c :: s, rest).

(** The characters of a string literal after its opening quote, up to
    and including the closing one. *)
Fixpoint parse_chars (s : jsstring) : option (jsstring * jsstring) :=
  match s with
  | [] => None
  | c :: s1 =>
      if c =? 34 then Some ([], s1)
      else if c =? 92 then
        match s1 with
        | [] => None
        | e :: s2 =>
            if e =? 117 then
              match s2 with
              | h1 :: h2 :: h3 :: h4 :: s3 =>
                  match hex4 h1 h2 h3 h4 with
                  | Some u => push_unit u (parse_chars s3)
                  | None => None
                  end
              | _ => None
              end
            else
              match unescape e with
              | Some u => push_unit u (parse_chars s2)
              | None => None
              end
        end
      else if c <? 32 then None
      else push_unit c (parse_chars s1)
  end.

Fixpoint span_digits (s : jsstring) : jsstring * jsstring :=
  match s with
  | [] => ([], [])
  | c :: s' =>
      if is_digit c
      then let '(ds, rest) := span_digits s' in (c :: ds, rest)
      else ([], s)
  end.

Definition digits_value (ds : jsstring) : Z :=
  fold_left (fun acc d => (10 * acc + Z.of_N (d - 48))%Z) ds 0%Z.

(** Digits, with at least one. *)
Definition parse_digits (s : jsstring) : option (jsstring * jsstring) :=
  let '(ds, rest) := span_digits s in
  match ds with [] => None | _ => Some (ds, rest) end.

(** The parts of a number: [-? int frac? exp?]. *)
Definition parse_sign (s : jsstring) : bool * jsstring :=
  match s with
  | c :: s' => if c =? 45 then (true, s') else (false, s)
  | [] => (false, s)
  end.

(** [0], or digits that do not start with [0]. *)
Definition parse_int (s : jsstring) : option (jsstring * jsstring) :=
  '(ds, rest) ← parse_digits s;
  match ds with
  | 48 :: _ :: _ => None
  | _ => Some (ds, rest)
  end.

Definition parse_frac (s : jsstring) : option (jsstring * jsstring) :=
  match s with
  | c :: s' => if c =? 46 then parse_digits s' else Some ([], s)
  | [] => Some ([], s)
  end.

Definition parse_exp (s : jsstring) : option (Z * jsstring) :=
  match s with
  | c :: s' =>
      if (c =? 101) || (c =? 69) then
        match s' with
        | sg :: s'' =>
            if sg =? 45 then
              '(ds, r) ← parse_digits s''; Some ((- digits_value ds)%Z, r)
            else if sg =? 43 then
              '(ds, r) ← parse_digits s''; Some (digits_value ds, r)
            else '(ds, r) ← parse_digits s'; Some (digits_value ds, r)
        | [] => None
        end
      else Some (0%Z, s)
  | [] => Some (0%Z, s)
  end.

Definition parse_number (s : jsstring) : option (JSValue * jsstring) :=
  let '(negative, s0) := parse_sign s in
  '(int, s1) ← parse_int s0;
  '(frac, s2) ← parse_frac s1;
  '(e, s3) ← parse_exp s2;
  let m := digits_value (int ++ frac) in
  Some (JNum (if negative : bool then (- m)%Z else m)
             (e - Z.of_nat (length frac))%Z, s3).

(** The rest of a keyword. *)
Fixpoint expect (word s : jsstring) : option jsstring :=
  match word with
  | [] => Some s
  | w :: word' =>
      match s with
      | c :: s' => if c =? w then expect word' s' else None
      | [] => None
      end
  end.

(** A value at the head of [s] (white space already skipped), and the
    text after it.  [fuel] bounds the nesting and the number of
    siblings. *)
Fixpoint parse_value (fuel : nat) (s : jsstring) : option (JSValue * jsstring) :=
  match fuel with
  | O => None
  | S fuel' =>
      match s with
      | [] => None
      | c :: s1 =>
          if c =? 110 then rest ← expect (js "ull") s1; Some (JNull, rest)
          else if c =? 116 then rest ← expect (js "rue") s1; Some (JBool true, rest)
          else if c =? 102 then rest ← expect (js "alse") s1; Some (JBool false, rest)
          else if c =? 34 then '(str, rest) ← parse_chars s1; Some (JStr str, rest)
          else if c =? 91 then
            match skip_ws s1 with
            | d :: s2 =>
                if d =? 93 then Some (JArr [], s2)
                else '(l, rest) ← parse_elements fuel' (d :: s2); Some (JArr l, rest)
            | [] => None
            end
          else if c =? 123 then
            match skip_ws s1 with
            | d :: s2 =>
                if d =? 125 then Some (JObj [], s2)
                else '(ms, rest) ← parse_members fuel' (d :: s2); Some (JObj ms, rest)
            | [] => None
            end
          else parse_number s
      end
  end
with parse_elements (fuel : nat) (s : jsstring) : option (list JSValue * jsstring) :=
  match fuel with
  | O => None
  | S fuel' =>
      '(v, s1) ← parse_value fuel' s;
      match skip_ws s1 with
      | c :: s2 =>
          if c =? 44 then
            '(vs, rest) ← parse_elements fuel' (skip_ws s2); Some (v :: vs, rest)
          else if c =? 93 then Some ([v], s2)
          else None
      | [] => None
      end
  end
with parse_members (fuel : nat) (s : jsstring)
  : option (list (jsstring * JSValue) * jsstring) :=
  match fuel with
  | O => None
  | S fuel' =>
      match s with
      | q :: s0 =>
          if q =? 34 then
            '(k, s1) ← parse_chars s0;
            match skip_ws s1 with
            | colon :: s2 =>
                if colon =? 58 then
                  '(v, s3) ← parse_value fuel' (skip_ws s2);
                  match skip_ws s3 with
                  | c :: s4 =>
                      if c =? 44 then
                        '(ms, rest) ← parse_members fuel' (skip_ws s4);
                        Some ((k, v) :: ms, rest)
                      else if c =? 125 then Some ([(k, v)], s4)
                      else None
                  | [] => None
                  end
                else None
            | [] => None
            end
          else None
      | [] => None
      end
  end.

(** Fuel that suffices to parse the text of a value back. *)
Fixpoint weight (v : JSValue) : nat :=
  match v with
  | JArr l => S (list_sum (List.map (fun x => S (weight x)) l))
  | JObj ms => S (list_sum (List.map (fun kv => S (weight (snd kv))) ms))
  | _ => 1%nat
  end.

(** What may follow a value inside a text: nothing, a comma, or a
    closing bracket or brace. *)
Definition delimited (rest : jsstring) : bool :=
  match rest with
  | [] => true
  | c :: _ => (c =? 44) || (c =? 93) || (c =? 125)
  end.

Definition SyntaxError : JSError := mkError (js "Unexpected token in JSON").

(** [JSON.parse(text)] *)
Definition parse (text : jsstring) : Completion JSValue :=
  match parse_value (S (length text)) (skip_ws text) with
  | Some (v, rest) =>
      match skip_ws rest with
      | [] => Return v
      | _ :: _ => Throw SyntaxError
      end
  | None => Throw SyntaxError
  end.

(** ** Notions used to state that the parser reads the printer back *)

(** The digits of a decimal numeral as code units. *)
Definition units (u : Decimal.uint) : jsstring := js (NilEmpty.string_of_uint u).

Definition digit_of (u : Decimal.uint) : option (N * Decimal.uint) :=
  match u with
  | Decimal.Nil => None
  | Decimal.D0 u' => Some (48, u') | Decimal.D1 u' => Some (49, u')
  | Decimal.D2 u' => Some (50, u') | Decimal.D3 u' => Some (51, u')
  | Decimal.D4 u' => Some (52, u') | Decimal.D5 u' => Some (53, u')
  | Decimal.D6 u' => Some (54, u') | Decimal.D7 u' => Some (55, u')
  | Decimal.D8 u' => Some (56, u') | Decimal.D9 u' => Some (57, u')
  end.

Definition starts_with_digit (s : jsstring) : bool :=
  match s with
  | c :: _ => is_digit c
  | [] => false
  end.

Definition digit_step (acc : Z) (d : N) : Z := (10 * acc + Z.of_N (d - 48))%Z.

(** A numeral as [Z.to_int] writes it: [0], or digits that do not
    start with [0]. *)
Definition canonical (u : Decimal.uint) : Prop :=
  u = Decimal.D0 Decimal.Nil
  \/ (u <> Decimal.Nil /\ forall u', u <> Decimal.D0 u').

(** The text of a value starts with a character that is neither white
    space nor a closing bracket or brace. *)
Definition opens_value (c : N) : Prop :=
  is_ws c = false /\ c <> 93 /\ c <> 125.

(** What the main statement says of one value. *)
Definition reads_back (v : JSValue) : Prop :=
  forall fuel rest,
    (weight v <= fuel)%nat -> delimited rest = true ->
    parse_value fuel (stringify v ++ rest) = Some (v, rest).

Definition member_text (kv : jsstring * JSValue) : jsstring :=
  quoted (fst kv) ++ 58 :: stringify (snd kv).

End JSON.

(* ================================================================== *)
(** * Sample data *)
(* ================================================================== *)

Definition gallery_chic : PrimaryOutfit :=
  mkPrimaryOutfit (js "Gallery Chic") (js "Ivory silk blouse")
    (js "High-waisted charcoal trousers") (js "Black leather loafers")
    [js "Slim gold watch"; js "Structured clutch"]
    (js "Clean lines suit a gallery opening.").

Definition three_suggestions : list AdditionalSuggestion :=
  [ mkAdditionalSuggestion (js "Casual") (js "Dark denim with a linen shirt.");
    mkAdditionalSuggestion (js "Trendy") (js "Wide-leg trousers and a cropped blazer.");
    mkAdditionalSuggestion (js "Budget") (js "Black tee, chinos and white sneakers.") ].

Definition full_response : StylistResponse :=
  mkStylistResponse gallery_chic three_suggestions (js "Steam the blouse.").

(** A response the schema admits, with two suggestions and an empty
    title. *)
Definition short_response : StylistResponse :=
  mkStylistResponse
    (mkPrimaryOutfit [] (js "Blouse") (js "Trousers") (js "Loafers") [] (js "Simple."))
    [ mkAdditionalSuggestion (js "Casual") (js "Denim.");
      mkAdditionalSuggestion (js "Trendy") (js "Blazer.") ]
    (js "None.").

(** A JSON object that has a title and nothing else of a response. *)
Definition partial_payload : JSValue :=
  JObj [ (js "primary_outfit", JObj [ (js "title", JStr (js "Gallery Chic")) ]) ].

(** A service that answers every request with the text [t]. *)
Definition answering (t : jsstring) : GenAI := fun _ => Return (mkResponse (Some t)).

(** A storage that never refuses a write. *)
Definition no_quota (_ : gmap (list N) (list N)) (_ _ : jsstring) : bool := false.

(** A storage that is full: it refuses every write. *)
Definition full_quota (_ : gmap (list N) (list N)) (_ _ : jsstring) : bool := true.

(** A storage whose item under the key is not JSON. *)
Definition corrupted_storage : gmap (list N) (list N) :=
  {[ SAVED_OUTFITS_KEY := js "{not json" ]}.

(** A visit: pick a suggested occasion, pick a style focus, submit, and
    the service answers with text that is not JSON. *)
Definition failed_visit : Page :=
  fire JSON.parse (Settle 0 (answering (js "{not json")))
    (fire JSON.parse Submit
       (fire JSON.parse (SelectGender (js "Female"))
          (fire JSON.parse (ClickSuggestion (js "Gallery Opening")) initial_Page))).

(** A form filled with offered choices, and the page after its
    submission. *)
Definition ready_page : Page :=
  fire JSON.parse (SelectGender (js "Female"))
    (fire JSON.parse (ClickSuggestion (js "Gallery Opening")) initial_Page).

Definition waiting_page : Page := fire JSON.parse Submit ready_page.

(** A service that answers with the full response. *)
Definition stylist : GenAI :=
  answering (JSON.stringify (StylistResponse_to_js full_response)).

(** Storages whose item is JSON and not a collection of outfits. *)
Definition object_storage : gmap (list N) (list N) :=
  {[ SAVED_OUTFITS_KEY := js "{}" ]}.


(** A storage in which [gallery_chic] has been saved. *)
Definition chic_storage : gmap (list N) (list N) :=
  <[ SAVED_OUTFITS_KEY := serialize JSON.stringify [gallery_chic] ]> ∅.

(* ================================================================== *)
(** * Properties of the validation engine *)
(* ================================================================== *)

Section ValidationFacts.

Local Open Scope nat_scope.

Lemma skip_while_all (p : N -> bool) (s : jsstring) :
  forallb p s = true -> skip_while p s = [].
Proof.
  induction s as [|c s IH]; simpl; [reflexivity|].
  intros H. apply andb_true_iff in H as [Hc Hs].
  rewrite Hc. auto.
Qed.

Lemma trim_whitespace_only (s : jsstring) :
  forallb isWhiteSpace s = true -> trim s = [].
Proof.
  intros H. unfold trim, trimEnd, trimStart.
  rewrite (skip_while_all _ _ H). reflexivity.
Qed.

Lemma validate_fst (f : Field) (v : jsstring) (errs : PerField jsstring) :
  fst (validate f v errs) = validate_message f v.
Proof. reflexivity. Qed.

Lemma validate_snd (f : Field) (v : jsstring) (errs : PerField jsstring) :
  snd (validate f v errs) = set_field f (validate_message f v) errs.
Proof. reflexivity. Qed.

Lemma occasion_messages_distinct :
  NoDup ([] :: List.map failure_message occasion_checks).
Proof.
  apply (NoDup_fmap_1 length). vm_compute.
  repeat (constructor; [rewrite ?elem_of_cons, elem_of_nil; intuition discriminate|]).
  constructor.
Qed.

Lemma validate_occasion_unfold (s : jsstring) :
  validate_message occasion_field s =
    if str_falsy (trim s) then MSG_OCCASION_REQUIRED
    else if length (trim s) <? OCCASION_MIN_LENGTH then MSG_OCCASION_TOO_SHORT
    else if OCCASION_MAX_LENGTH <? length s then MSG_OCCASION_TOO_LONG
    else if negb (test_letter (trim s)) then MSG_OCCASION_NO_TEXT
    else [].
Proof. reflexivity. Qed.

Lemma first_failure_nil_iff (checks : list Check) (s : jsstring) :
  Forall (fun c => failure_message c <> []) checks ->
  first_failure checks s = [] <-> Forall (fun c => passes c s = true) checks.
Proof.
  induction 1 as [|c cs Hc Hcs IH]; simpl.
  - split; [constructor | reflexivity].
  - destruct (passes c s) eqn:E.
    + rewrite IH. split; [intros; constructor; assumption | inversion 1; assumption].
    + split; [intros; contradiction | inversion 1; congruence].
Qed.

(** C2.  On [occasion], [validate] reports the message of the first
    failing check among: trimmed value non-empty, trimmed length at
    least 5, raw length at most 300, an ASCII letter in the trimmed
    value, tried in this order; the message is empty exactly when the
    four pass; the four messages differ from each other and from the
    empty one; and a value made of white space only gets the "required"
    message, not the "too short" one. *)
Theorem validate_occasion_first_failing_check
    (s : jsstring) (errs : PerField jsstring) :
  fst (validate occasion_field s errs) = first_failure occasion_checks s
  /\ (fst (validate occasion_field s errs) = []
      <-> Forall (fun c => passes c s = true) occasion_checks)
  /\ NoDup ([] :: List.map failure_message occasion_checks)
  /\ (forallb isWhiteSpace s = true ->
      fst (validate occasion_field s errs) = MSG_OCCASION_REQUIRED
      /\ fst (validate occasion_field s errs) <> MSG_OCCASION_TOO_SHORT).
Proof.
  assert (Hff : validate_message occasion_field s = first_failure occasion_checks s).
  { rewrite validate_occasion_unfold. unfold occasion_checks, first_failure, passes,
      failure_message.
    rewrite !Nat.leb_antisym.
    destruct (str_falsy (trim s)); cbn [negb]; [reflexivity|].
    destruct (length (trim s) <? OCCASION_MIN_LENGTH); cbn [negb]; [reflexivity|].
    destruct (OCCASION_MAX_LENGTH <? length s); cbn [negb]; [reflexivity|].
    destruct (test_letter (trim s)); reflexivity. }
  rewrite validate_fst. split; [exact Hff|]. split; [|split].
  - rewrite Hff. apply first_failure_nil_iff.
    pose proof occasion_messages_distinct as Hnd.
    apply NoDup_cons in Hnd as [Hnot _].
    apply Forall_forall. intros c Hc Heq. apply Hnot.
    rewrite <- Heq. apply list_elem_of_In, in_map, list_elem_of_In, Hc.
  - exact occasion_messages_distinct.
  - intros Hws.
    rewrite validate_occasion_unfold, (trim_whitespace_only s Hws).
    split; [reflexivity|]. cbn [str_falsy].
    intros Heq. apply (f_equal length) in Heq. vm_compute in Heq. discriminate.
Qed.

Lemma validate_occasion_whitespace_witness :
  let s := js "   " in
  forallb isWhiteSpace s = true
  /\ fst (validate occasion_field s (mkPerField [] [] [])) = MSG_OCCASION_REQUIRED
  /\ fst (validate occasion_field s (mkPerField [] [] [])) <> MSG_OCCASION_TOO_SHORT.
Proof.
  split; [reflexivity|].
  apply (validate_occasion_first_failing_check (js "   ") (mkPerField [] [] [])).
  reflexivity.
Defined.

Lemma validate_preferences_unfold (v : jsstring) :
  validate_message preferences_field v =
    if PREFERENCES_MAX_LENGTH <? length v then MSG_PREFERENCES_TOO_LONG
    else if (0 <? length v) && negb (test_alnum v) then MSG_PREFERENCES_INVALID
    else [].
Proof. reflexivity. Qed.

(** C8, as stated, fails on 201 exclamation marks: the value is
    non-empty and has no alphanumeric character, and the message is the
    "too long" one, not the "invalid text" one. *)
Lemma validate_preferences_long_symbols :
  repeat 33%N 201 <> []
  /\ test_alnum (repeat 33%N 201) = false
  /\ fst (validate preferences_field (repeat 33%N 201) (mkPerField [] [] []))
     = MSG_PREFERENCES_TOO_LONG
  /\ MSG_PREFERENCES_TOO_LONG <> MSG_PREFERENCES_INVALID.
Proof.
  split; [discriminate|]. split; [reflexivity|]. split; [reflexivity|].
  intros Heq. apply (f_equal length) in Heq. vm_compute in Heq. discriminate.
Qed.

(** C8, amended.  On [preferences], [validate] returns the empty
    message for the empty value; the non-empty "too long" message when
    the raw length exceeds 200; and the non-empty "invalid text" message
    when the value is non-empty, at most 200 long and has no
    alphanumeric ASCII character. *)
Theorem validate_preferences_cases (v : jsstring) (errs : PerField jsstring) :
  (v = [] -> fst (validate preferences_field v errs) = [])
  /\ (PREFERENCES_MAX_LENGTH < length v ->
      fst (validate preferences_field v errs) = MSG_PREFERENCES_TOO_LONG
      /\ MSG_PREFERENCES_TOO_LONG <> [])
  /\ (v <> [] -> length v <= PREFERENCES_MAX_LENGTH -> test_alnum v = false ->
      fst (validate preferences_field v errs) = MSG_PREFERENCES_INVALID
      /\ MSG_PREFERENCES_INVALID <> []).
Proof.
  rewrite validate_fst, validate_preferences_unfold. split; [|split].
  - intros ->. reflexivity.
  - intros Hlong. apply Nat.ltb_lt in Hlong. rewrite Hlong.
    split; [reflexivity | discriminate].
  - intros Hne Hlen Hsym. apply Nat.leb_le in Hlen.
    rewrite Nat.leb_antisym in Hlen. apply negb_true_iff in Hlen.
    rewrite Hlen, Hsym. split; [|discriminate].
    destruct v; [contradiction | reflexivity].
Qed.

Lemma validate_preferences_cases_witness :
  fst (validate preferences_field (js "!!!") (mkPerField [] [] []))
    = MSG_PREFERENCES_INVALID
  /\ MSG_PREFERENCES_INVALID <> [].
Proof.
  apply (validate_preferences_cases (js "!!!") (mkPerField [] [] []));
    [discriminate | vm_compute; lia | reflexivity].
Defined.

End ValidationFacts.

(* ================================================================== *)
(** * Properties of the recommendation client *)
(* ================================================================== *)

Section ClientFacts.

Variable JSON_parse : jsstring -> Completion JSValue.

(** The ways the [try] block of [getOutfitRecommendation] fails, with
    the value it throws: the service call itself, a missing or empty
    text, a text [JSON.parse] rejects. *)
Inductive CallFails (ai : GenAI) (o g : jsstring) (p : option jsstring)
  : JSError -> Prop :=
| service_failure e :
    ai (request o g p) = Throw e -> CallFails ai o g p e
| text_undefined :
    ai (request o g p) = Return (mkResponse None) ->
    CallFails ai o g p (mkError MSG_NO_RESPONSE)
| text_empty :
    ai (request o g p) = Return (mkResponse (Some [])) ->
    CallFails ai o g p (mkError MSG_NO_RESPONSE)
| text_unparseable t e :
    ai (request o g p) = Return (mkResponse (Some t)) ->
    t <> [] -> JSON_parse t = Throw e ->
    CallFails ai o g p e.

Lemma getOutfitRecommendation_cases (ai : GenAI) (o g : jsstring) (p : option jsstring) :
  (exists cause,
      CallFails ai o g p cause
      /\ getOutfitRecommendation JSON_parse ai o g p
         = (Throw (mkError MSG_UNABLE), [mkLog (js "Gemini API Error:") cause]))
  \/ (exists t v,
         ai (request o g p) = Return (mkResponse (Some t))
         /\ t <> [] /\ JSON_parse t = Return v
         /\ getOutfitRecommendation JSON_parse ai o g p = (Return v, [])).
Proof.
  unfold getOutfitRecommendation, try_catch.
  destruct (ai (request o g p)) as [[[t|]]|e] eqn:Hai; cbn.
  - destruct t as [|c t]; cbn.
    + left. eexists. split; [apply text_empty; exact Hai | reflexivity].
    + destruct (JSON_parse (c :: t)) as [v|e] eqn:Hp.
      * right. exists (c :: t), v. repeat split; try assumption. discriminate.
      * left. exists e. split; [|reflexivity].
        eapply text_unparseable; [exact Hai | discriminate | exact Hp].
  - left. eexists. split; [apply text_undefined; exact Hai | reflexivity].
  - left. exists e. split; [apply service_failure; exact Hai | reflexivity].
Qed.

Lemma CallFails_excludes_success (ai : GenAI) (o g : jsstring) (p : option jsstring)
    (cause : JSError) (t : jsstring) (v : JSValue) :
  CallFails ai o g p cause ->
  ai (request o g p) = Return (mkResponse (Some t)) ->
  t <> [] -> JSON_parse t = Return v -> False.
Proof.
  intros Hf Hai Ht Hp. destruct Hf as [e H|H|H|t' e H Hne Hp']; try congruence.
Qed.

Lemma CallFails_unique (ai : GenAI) (o g : jsstring) (p : option jsstring)
    (c1 c2 : JSError) :
  CallFails ai o g p c1 -> CallFails ai o g p c2 -> c1 = c2.
Proof. intros H1 H2. destruct H1, H2; congruence. Qed.

(** C1.  Whenever the call fails (the service call throws, the text is
    missing or empty, or the text does not parse), the promise is
    rejected with an [Error] whose message is the fixed sentence, and the
    cause goes to the console only; and no other error ever leaves
    [getOutfitRecommendation]. *)
Theorem getOutfitRecommendation_failure_normalized
    (ai : GenAI) (o g : jsstring) (p : option jsstring) :
  (forall cause, CallFails ai o g p cause ->
     getOutfitRecommendation JSON_parse ai o g p
     = (Throw (mkError MSG_UNABLE), [mkLog (js "Gemini API Error:") cause]))
  /\ (forall e, fst (getOutfitRecommendation JSON_parse ai o g p) = Throw e ->
        e = mkError MSG_UNABLE /\ exists cause, CallFails ai o g p cause).
Proof.
  destruct (getOutfitRecommendation_cases ai o g p)
    as [(cause & Hf & ->)|(t & v & Hai & Ht & Hp & ->)]; cbn [fst snd].
  - split.
    + intros cause' Hf'. rewrite (CallFails_unique _ _ _ _ _ _ Hf' Hf). reflexivity.
    + intros e [= <-]. split; [reflexivity | exists cause; exact Hf].
  - split.
    + intros cause Hf. destruct (CallFails_excludes_success _ _ _ _ _ _ _ Hf Hai Ht Hp).
    + intros e [=].
Qed.

(** C4, amended.  A non-empty text that deserializes is returned as
    deserialized, whatever its shape: the call succeeds with [v] exactly
    when the service answered a non-empty text that parses to [v]. *)
Theorem getOutfitRecommendation_returns_parsed_text
    (ai : GenAI) (o g : jsstring) (p : option jsstring) (v : JSValue) :
  fst (getOutfitRecommendation JSON_parse ai o g p) = Return v
  <-> exists t, ai (request o g p) = Return (mkResponse (Some t))
                /\ t <> [] /\ JSON_parse t = Return v.
Proof.
  destruct (getOutfitRecommendation_cases ai o g p)
    as [(cause & Hf & ->)|(t & v' & Hai & Ht & Hp & ->)]; cbn [fst].
  - split; [intros [=]|].
    intros (t & Hai & Ht & Hp).
    destruct (CallFails_excludes_success _ _ _ _ _ _ _ Hf Hai Ht Hp).
  - split.
    + intros [= <-]. exists t. auto.
    + intros (t' & Hai' & _ & Hp'). congruence.
Qed.

Lemma as_array_strings (l : list jsstring) :
  as_array as_string (JArr (List.map JStr l)) = Some l.
Proof.
  cbn. induction l as [|s l IH]; cbn; [reflexivity|].
  cbn in IH. rewrite IH. reflexivity.
Qed.

Lemma as_PrimaryOutfit_members (t tp b f r : jsstring) (a : JSValue) :
  as_PrimaryOutfit
    (JObj [ (js "title", JStr t); (js "top", JStr tp); (js "bottom", JStr b);
            (js "footwear", JStr f); (js "accessories", a); (js "reasoning", JStr r) ])
  = acc ← as_array as_string a; Some (mkPrimaryOutfit t tp b f acc r).
Proof. vm_compute. reflexivity. Qed.

Lemma as_PrimaryOutfit_to_js (o : PrimaryOutfit) :
  as_PrimaryOutfit (PrimaryOutfit_to_js o) = Some o.
Proof.
  destruct o as [t tp b f a r]. unfold PrimaryOutfit_to_js.
  cbn [title top bottom footwear accessories reasoning].
  rewrite as_PrimaryOutfit_members, as_array_strings. reflexivity.
Qed.

Lemma as_array_outfits (os : list PrimaryOutfit) :
  as_array as_PrimaryOutfit (JArr (List.map PrimaryOutfit_to_js os)) = Some os.
Proof.
  unfold as_array. induction os as [|o os IH]; [reflexivity|].
  cbn [List.map mapM]. rewrite as_PrimaryOutfit_to_js, IH. reflexivity.
Qed.

Lemma as_AdditionalSuggestion_to_js (a : AdditionalSuggestion) :
  as_AdditionalSuggestion (AdditionalSuggestion_to_js a) = Some a.
Proof. destruct a. vm_compute. reflexivity. Qed.

Lemma as_array_suggestions (l : list AdditionalSuggestion) :
  as_array as_AdditionalSuggestion (JArr (List.map AdditionalSuggestion_to_js l)) = Some l.
Proof.
  unfold as_array. induction l as [|s l IH]; [reflexivity|].
  cbn [List.map mapM]. rewrite as_AdditionalSuggestion_to_js, IH. reflexivity.
Qed.

Lemma as_StylistResponse_members (po sugg : JSValue) (notes : jsstring) :
  as_StylistResponse
    (JObj [ (js "primary_outfit", po); (js "additional_suggestions", sugg);
            (js "styling_notes", JStr notes) ])
  = p ← as_PrimaryOutfit po;
    a ← as_array as_AdditionalSuggestion sugg;
    Some (mkStylistResponse p a notes).
Proof.
  unfold as_StylistResponse, field.
  replace (get_member (js "primary_outfit") _) with (Some po) by (vm_compute; reflexivity).
  replace (get_member (js "additional_suggestions") _) with (Some sugg)
    by (vm_compute; reflexivity).
  replace (get_member (js "styling_notes") _) with (Some (JStr notes))
    by (vm_compute; reflexivity).
  reflexivity.
Qed.

Lemma as_StylistResponse_to_js (r : StylistResponse) :
  as_StylistResponse (StylistResponse_to_js r) = Some r.
Proof.
  destruct r as [po sugg notes]. unfold StylistResponse_to_js.
  cbn [primary_outfit additional_suggestions styling_notes].
  rewrite as_StylistResponse_members, as_PrimaryOutfit_to_js.
  cbn [mbind option_bind]. rewrite as_array_suggestions. reflexivity.
Qed.

(** The schema of the request admits a response with any number of
    suggestions and any title. *)
Lemma responseSchema_admits_members (t tp b f r notes : jsstring)
    (a sugg : list JSValue) :
  admits the_responseSchema
    (JObj [ (js "primary_outfit",
              JObj [ (js "title", JStr t); (js "top", JStr tp); (js "bottom", JStr b);
                     (js "footwear", JStr f); (js "accessories", JArr a);
                     (js "reasoning", JStr r) ]);
            (js "additional_suggestions", JArr sugg);
            (js "styling_notes", JStr notes) ])
  = forallb (admits Type_STRING) a
    && forallb (admits (Type_OBJECT
                          [ (js "label", Type_STRING); (js "outfit_summary", Type_STRING) ]
                          [ js "label"; js "outfit_summary" ])) sugg.
Proof.
  remember (forallb (admits Type_STRING) a) as A eqn:HA.
  remember (forallb _ sugg) as B eqn:HB.
  vm_compute in HA, HB. vm_compute. rewrite <- HA, <- HB.
  destruct A, B; reflexivity.
Qed.

Lemma responseSchema_admits_any_length (r : StylistResponse) :
  admits the_responseSchema (StylistResponse_to_js r) = true.
Proof.
  destruct r as [[t tp b f a rs] sugg notes].
  unfold StylistResponse_to_js, PrimaryOutfit_to_js.
  cbn [primary_outfit additional_suggestions styling_notes
       title top bottom footwear accessories reasoning].
  rewrite responseSchema_admits_members. apply andb_true_iff. split.
  - induction a as [|x a IH]; [reflexivity | exact IH].
  - induction sugg as [|s sugg IH]; [reflexivity|].
    cbn [List.map forallb]. rewrite IH, andb_true_r.
    destruct s. vm_compute. reflexivity.
Qed.

Lemma systemInstruction_asks_for_three :
  exists before after,
    the_systemInstruction
    = before
        ++ js "- Provide 3 distinct 'additional_suggestions' (e.g., Casual, Trendy, Budget)."
        ++ after.
Proof.
  exists (template
            [ [];
              js "    You are a world-class AI Fashion Stylist. ";
              js "    Your goal is to recommend elegant, stylish, and appropriate outfits based on the user's event or occasion and gender identity.";
              js "    ";
              js "    Guidelines:";
              js "    - Focus on aesthetics, color coordination, and fabric textures.";
              js "    - Be descriptive but concise.";
              js "    - Do NOT generate images or links.";
              js "    - Your tone should be sophisticated, encouraging, and helpful.";
              js "    - Ensure the 'primary_outfit' is the absolute best recommendation for the specific request.";
              js "    " ]),
         (10%N :: js "  ").
  vm_compute. reflexivity.
Qed.

(** A response with as many suggestions and the title one likes. *)
Lemma response_of_any_size (n : nat) (t : jsstring) :
  exists r, length (additional_suggestions r) = n /\ title (primary_outfit r) = t.
Proof.
  exists (mkStylistResponse (mkPrimaryOutfit t [] [] [] [] [])
            (List.repeat (mkAdditionalSuggestion [] []) n) []).
  split; [apply repeat_length | reflexivity].
Qed.

(** C5, amended.  Every value a successful call returns is the
    deserialized payload of the service, unchanged and unchecked: a
    success with [v] comes from a non-empty text that parses to [v], and
    every such text, whatever the shape of [v], makes the call return
    [v] and log nothing; so the caller reads a response record [r] off
    the result exactly when the service sent one that reads as [r], with
    the suggestions and the title the service chose.  The client asks
    for three suggestions in the system instruction of the request, and
    the response schema of the request admits every response record:
    for every number [n] and every title there is a record with [n]
    suggestions and that title which the schema admits and which the
    caller reads back as it is. *)
Theorem getOutfitRecommendation_returns_payload_unchecked
    (ai : GenAI) (o g : jsstring) (p : option jsstring) :
  (forall v,
      fst (getOutfitRecommendation JSON_parse ai o g p) = Return v ->
      exists t, ai (request o g p) = Return (mkResponse (Some t))
                /\ t <> [] /\ JSON_parse t = Return v)
  /\ (forall t v,
        ai (request o g p) = Return (mkResponse (Some t)) ->
        t <> [] -> JSON_parse t = Return v ->
        getOutfitRecommendation JSON_parse ai o g p = (Return v, [])
        /\ forall r, as_StylistResponse v = Some r <->
                     exists v', fst (getOutfitRecommendation JSON_parse ai o g p) = Return v'
                                /\ as_StylistResponse v' = Some r)
  /\ (exists before after,
        systemInstruction (config (request o g p))
        = before
            ++ js "- Provide 3 distinct 'additional_suggestions' (e.g., Casual, Trendy, Budget)."
            ++ after)
  /\ (forall r,
        admits (responseSchema (config (request o g p))) (StylistResponse_to_js r) = true
        /\ as_StylistResponse (StylistResponse_to_js r) = Some r)
  /\ (forall (n : nat) (t : jsstring),
        exists r,
          length (additional_suggestions r) = n
          /\ title (primary_outfit r) = t
          /\ admits (responseSchema (config (request o g p))) (StylistResponse_to_js r)
             = true).
Proof.
  assert (Hsent : forall t v,
             ai (request o g p) = Return (mkResponse (Some t)) ->
             t <> [] -> JSON_parse t = Return v ->
             getOutfitRecommendation JSON_parse ai o g p = (Return v, [])).
  { intros t v Hai Ht Hp.
    destruct (getOutfitRecommendation_cases ai o g p)
      as [(cause & Hf & _)|(t' & v' & Hai' & _ & Hp' & ->)].
    - destruct (CallFails_excludes_success _ _ _ _ _ _ _ Hf Hai Ht Hp).
    - congruence. }
  split; [|split; [|split; [|split]]].
  - intros v Hv.
    destruct (getOutfitRecommendation_cases ai o g p)
      as [(cause & _ & E)|(t & v' & Hai & Ht & Hp & E)]; rewrite E in Hv; cbn [fst] in Hv.
    + discriminate.
    + injection Hv as <-. exists t. auto.
  - intros t v Hai Ht Hp. split; [exact (Hsent t v Hai Ht Hp)|].
    intros r. rewrite (Hsent t v Hai Ht Hp). cbn [fst]. split.
    + intros Hr. exists v. auto.
    + intros (v' & [= <-] & Hr). exact Hr.
  - exact systemInstruction_asks_for_three.
  - intros r. split; [apply responseSchema_admits_any_length | apply as_StylistResponse_to_js].
  - intros n t. destruct (response_of_any_size n t) as (r & Hn & Ht).
    exists r. split; [exact Hn|]. split; [exact Ht|].
    apply responseSchema_admits_any_length.
Qed.

End ClientFacts.

(* ================================================================== *)
(** * Properties of the form and its submission *)
(* ================================================================== *)

Section AppFacts.

Variable JSON_parse : jsstring -> Completion JSValue.

Lemma outcome_fields (st st' : AppState) :
  outcome st' = outcome st ->
  result st' = result st /\ error st' = error st /\ loading st' = loading st.
Proof. unfold outcome. intros [= -> -> ->]. auto. Qed.

Lemma App_validate_eq (f : Field) (v : jsstring) (st : AppState) :
  App_validate f v st =
    (validate_message f v,
     setValidationErrors
       (fun _ => set_field f (validate_message f v) (validationErrors st)) st).
Proof. reflexivity. Qed.

Lemma App_validate_fst (f : Field) (v : jsstring) (st : AppState) :
  fst (App_validate f v st) = validate_message f v.
Proof. reflexivity. Qed.

Lemma App_validate_outcome (f : Field) (v : jsstring) (st : AppState) :
  outcome (snd (App_validate f v st)) = outcome st.
Proof. reflexivity. Qed.

Lemma App_validate_inputs (f : Field) (v : jsstring) (st : AppState) :
  occasion (snd (App_validate f v st)) = occasion st
  /\ gender (snd (App_validate f v st)) = gender st
  /\ preferences (snd (App_validate f v st)) = preferences st.
Proof. auto. Qed.

Lemma revalidate_effect_outcome (f : Field) (before after st : AppState) :
  outcome (revalidate_effect f before after st) = outcome st.
Proof.
  unfold revalidate_effect. case_bool_decide; [reflexivity|].
  destruct (get_field f (touched after)); [apply App_validate_outcome | reflexivity].
Qed.

Lemma effects_outcome (before after : AppState) :
  outcome (effects before after) = outcome after.
Proof. unfold effects. rewrite !revalidate_effect_outcome. reflexivity. Qed.

(** What [handleSubmit] does, by cases on its two guards. *)
Lemma handleSubmit_cases (st : AppState) :
  let blocked :=
    negb (str_falsy (validate_message occasion_field (occasion st)))
    || negb (str_falsy (validate_message gender_field (gender st)))
    || negb (str_falsy (validate_message preferences_field (preferences st)))
    || (str_falsy (trim (occasion st)) || str_falsy (gender st)) in
  exists st4,
    outcome st4 = outcome st
    /\ handleSubmit st =
       if blocked then (st4, None)
       else (setResult JNull (setError None (setLoading true st4)),
             Some (occasion st, gender st, Some (preferences st))).
Proof.
  unfold handleSubmit. rewrite (App_validate_eq occasion_field). cbv beta iota.
  rewrite (App_validate_eq gender_field). cbv beta iota.
  rewrite (App_validate_eq preferences_field). cbv beta iota.
  eexists. split; [|destruct (_ || _ || _); cbn [orb]; reflexivity].
  reflexivity.
Qed.

Lemma validate_gender_empty : validate_message gender_field [] = MSG_GENDER_REQUIRED.
Proof. reflexivity. Qed.

(** C9.  With an empty [gender], [handleSubmit] returns without calling
    [getOutfitRecommendation]: it issues no call, leaves [loading],
    [error] and [result] as they were, and a submit event adds no pending
    request to the page. *)
Theorem handleSubmit_without_gender_issues_no_call (st : AppState) :
  gender st = [] ->
  snd (handleSubmit st) = None
  /\ outcome (fst (handleSubmit st)) = outcome st
  /\ forall p, app p = st -> pending (fire JSON_parse Submit p) = pending p.
Proof.
  intros Hg.
  destruct (handleSubmit_cases st) as (st4 & Hout & Hsub). cbv zeta in Hsub.
  rewrite Hg, validate_gender_empty in Hsub.
  replace (negb (str_falsy MSG_GENDER_REQUIRED)) with true in Hsub by reflexivity.
  rewrite orb_true_r in Hsub. cbn [orb] in Hsub.
  rewrite Hsub. cbn [fst snd]. split; [reflexivity|]. split; [exact Hout|].
  intros p Hp. unfold fire. rewrite Hp, Hsub. cbn [pending]. apply app_nil_r.
Qed.

Lemma handler_outcome_preserved (before after : AppState) :
  outcome after = outcome before ->
  outcome (rendered before after) = outcome before.
Proof. intros H. unfold rendered. rewrite effects_outcome. exact H. Qed.

Lemma page_invariant_same_outcome (p : Page) (st' : AppState) (log : list LogEntry) :
  outcome st' = outcome (app p) ->
  page_invariant p -> page_invariant (mkPage st' (pending p) log).
Proof.
  intros Hout [Hshown Hcase].
  apply outcome_fields in Hout as (Hr & He & Hl).
  unfold page_invariant, error_shown, result_shown in *. cbn [app pending].
  rewrite Hr, He, Hl. auto.
Qed.

Lemma handleSubmit_resume_cells (settled : Completion JSValue) (st : AppState) :
  loading (handleSubmit_resume settled st) = false
  /\ match settled with
     | Return data =>
         result (handleSubmit_resume settled st) = data
         /\ error (handleSubmit_resume settled st) = error st
     | Throw err =>
         result (handleSubmit_resume settled st) = result st
         /\ exists m, error (handleSubmit_resume settled st) = Some m /\ m <> []
     end.
Proof.
  destruct settled as [data|err]; cbn; auto.
  split; [reflexivity|]. split; [reflexivity|]. eexists. split; [reflexivity|].
  destruct (message err) eqn:E; cbn; discriminate.
Qed.

Lemma handleReset_cells (st : AppState) :
  result (handleReset st) = JNull /\ error (handleReset st) = None
  /\ loading (handleReset st) = loading st.
Proof. auto. Qed.

Lemma fire_preserves_invariant (ev : Event) (p : Page) :
  page_invariant p -> enabled ev p = true -> page_invariant (fire JSON_parse ev p).
Proof.
  intros Hinv Hen.
  destruct ev as [v|v|f|opt|t| | | |i ai]; cbn [fire].
  1-5: (apply page_invariant_same_outcome; [|exact Hinv];
        apply handler_outcome_preserved; reflexivity).
  - (* Submit: the button is disabled while a call is pending *)
    cbn [enabled] in Hen. apply andb_true_iff in Hen as [Hen _].
    apply andb_true_iff in Hen as [_ Hload]. apply negb_true_iff in Hload.
    destruct Hinv as [Hshown [[_ Hpend]|[Hl _]]]; [|congruence].
    destruct (handleSubmit_cases (app p)) as (st4 & Hout & ->). cbv zeta.
    destruct (_ || _ || _ || _).
    + rewrite Hpend. cbn [app].
      change (page_invariant (mkPage (rendered (app p) st4) [] (console p))).
      rewrite <- Hpend. apply page_invariant_same_outcome;
        [apply handler_outcome_preserved; exact Hout | split; auto].
    + rewrite Hpend. cbn [app].
      set (st' := setResult JNull (setError None (setLoading true st4))).
      pose proof (effects_outcome (app p) st') as He.
      apply outcome_fields in He as (Hr & Her & Hlo).
      unfold page_invariant, error_shown, result_shown, rendered. cbn [app pending].
      rewrite Hr, Her, Hlo. cbn. split; [reflexivity|]. right. eauto.
  - (* Reset *)
    pose proof (effects_outcome (app p) (handleReset (app p))) as He.
    apply outcome_fields in He as (Hr & Her & Hlo).
    destruct Hinv as [_ Hcase].
    unfold page_invariant, error_shown, result_shown, rendered. cbn [app pending].
    rewrite Hr, Her, Hlo. cbn [handleReset]. split; [reflexivity|].
    destruct Hcase as [?|(? & ? & _)]; [left | right]; auto.
  - (* Try again *)
    pose proof (effects_outcome (app p) (setError None (app p))) as He.
    apply outcome_fields in He as (Hr & Her & Hlo).
    destruct Hinv as [_ Hcase].
    unfold page_invariant, error_shown, result_shown, rendered. cbn [app pending].
    rewrite Hr, Her, Hlo. cbn. split; [reflexivity|].
    destruct Hcase as [?|(? & ? & _ & ?)]; [left | right]; auto.
  - (* Settle: the only pending call *)
    cbn [enabled] in Hen. apply bool_decide_eq_true in Hen.
    destruct Hinv as [_ [[_ Hpend]|(Hl & [c Hpend] & Herr & Hres)]].
    { rewrite Hpend in Hen. cbn in Hen. lia. }
    rewrite Hpend in *. destruct i as [|i]; [|cbn in Hen; lia].
    cbn [lookup list_lookup]. destruct c as [[o g] pr].
    destruct (getOutfitRecommendation JSON_parse ai o g pr) as [settled logged].
    pose proof (effects_outcome (app p) (handleSubmit_resume settled (app p))) as He.
    apply outcome_fields in He as (Hr & Her & Hlo).
    pose proof (handleSubmit_resume_cells settled (app p)) as [Hoff Hcells].
    unfold page_invariant, error_shown, result_shown, rendered. cbn [app pending].
    rewrite Hr, Her, Hlo, Hoff. split; [|left; auto].
    destruct settled as [data|err].
    + destruct Hcells as [_ ->]. rewrite Herr. reflexivity.
    + destruct Hcells as [-> _]. rewrite Hres. apply andb_false_r.
Qed.

Lemma reachable_invariant (p : Page) : reachable JSON_parse p -> page_invariant p.
Proof.
  induction 1 as [|p ev _ IH Hen].
  - split; [reflexivity | left; auto].
  - apply fire_preserves_invariant; assumption.
Qed.

(** C10.  In every reachable state of the page the error message and
    the result are not both present.  [handleSubmit] clears both before
    the call; its continuation assigns one of them and leaves the other;
    [handleReset] clears both. *)
Theorem error_and_result_never_both_shown (p : Page) :
  reachable JSON_parse p ->
  error_shown (app p) && result_shown (app p) = false
  /\ (forall st st' call, handleSubmit st = (st', Some call) ->
        error st' = None /\ result st' = JNull)
  /\ (forall st data,
        result (handleSubmit_resume (Return data) st) = data
        /\ error (handleSubmit_resume (Return data) st) = error st)
  /\ (forall st err,
        result (handleSubmit_resume (Throw err) st) = result st
        /\ exists m, error (handleSubmit_resume (Throw err) st) = Some m /\ m <> [])
  /\ (forall st, error (handleReset st) = None /\ result (handleReset st) = JNull).
Proof.
  intros Hreach. split; [apply (reachable_invariant p Hreach)|].
  split; [|split; [|split]].
  - intros st st' call Hsub.
    destruct (handleSubmit_cases st) as (st4 & _ & Heq). cbv zeta in Heq.
    rewrite Heq in Hsub. destruct (_ || _ || _ || _); [discriminate|].
    injection Hsub as <- _. auto.
  - intros st data. apply (handleSubmit_resume_cells (Return data) st).
  - intros st err. apply (handleSubmit_resume_cells (Throw err) st).
  - intros st. split; apply handleReset_cells.
Qed.

End AppFacts.

(* ================================================================== *)
(** * Properties of the saved-outfit store *)
(* ================================================================== *)

Section StoreFacts.

Variable JSON_parse : jsstring -> Completion JSValue.
Variable JSON_stringify : JSValue -> jsstring.
Variable quota_exceeded : gmap (list N) (list N) -> jsstring -> jsstring -> bool.


(** ** A corrupted item *)

Lemma saved_check_corrupted (d : OutfitDisplay) (s : jsstring) (e : JSError) :
  localStorage d !! SAVED_OUTFITS_KEY = Some s -> s <> [] -> JSON_parse s = Throw e ->
  saved_check JSON_parse d =
    mkDisplay (shown d) (isSaved d) (localStorage d)
      (errors_logged d ++ [mkLog (js "Failed to read from local storage") e]).
Proof.
  intros Hget Hne Hp. unfold saved_check, saved_check_body, getItem.
  rewrite Hget. destruct s as [|c s]; [contradiction|]. cbn [str_falsy].
  rewrite Hp. reflexivity.
Qed.

Lemma toggleSave_corrupted (d : OutfitDisplay) (s : jsstring) (e : JSError) :
  localStorage d !! SAVED_OUTFITS_KEY = Some s -> s <> [] -> JSON_parse s = Throw e ->
  toggleSave JSON_parse JSON_stringify quota_exceeded d =
    mkDisplay (shown d) (isSaved d) (localStorage d)
      (errors_logged d ++ [mkLog (js "Failed to save to local storage") e]).
Proof.
  intros Hget Hne Hp. unfold toggleSave, toggleSave_body, getItem.
  rewrite Hget. destruct s as [|c s]; [contradiction|]. cbn [str_falsy].
  rewrite Hp. reflexivity.
Qed.

(** C3, amended.  With a non-empty item that does not parse under the
    key, the check of a mounted display catches the error and leaves
    [isSaved] at [false]; a following [toggleSave] catches it too and
    does nothing: the item stays as it was, nothing is saved, [isSaved]
    stays [false], and no collection can be read back. *)
Theorem corrupted_item_check_false_toggle_noop
    (outfit : PrimaryOutfit) (ls : gmap (list N) (list N)) (s : jsstring) (e : JSError) :
  ls !! SAVED_OUTFITS_KEY = Some s -> s <> [] -> JSON_parse s = Throw e ->
  isSaved (mount JSON_parse outfit ls []) = false
  /\ localStorage (mount JSON_parse outfit ls []) = ls
  /\ isSaved (toggleSave JSON_parse JSON_stringify quota_exceeded (mount JSON_parse outfit ls [])) = false
  /\ localStorage (toggleSave JSON_parse JSON_stringify quota_exceeded (mount JSON_parse outfit ls [])) = ls
  /\ load JSON_parse (localStorage (toggleSave JSON_parse JSON_stringify quota_exceeded (mount JSON_parse outfit ls []))) = None
  /\ errors_logged (toggleSave JSON_parse JSON_stringify quota_exceeded (mount JSON_parse outfit ls []))
     = [ mkLog (js "Failed to read from local storage") e;
         mkLog (js "Failed to save to local storage") e ].
Proof.
  intros Hget Hne Hp. unfold mount.
  rewrite (saved_check_corrupted _ s e) by assumption. cbn [shown isSaved localStorage errors_logged].
  rewrite (toggleSave_corrupted _ s e) by assumption. cbn [shown isSaved localStorage errors_logged].
  repeat split.
  unfold load, getItem. rewrite Hget.
  destruct s as [|c s]; [contradiction|]. cbn [str_falsy]. rewrite Hp. reflexivity.
Qed.

(** An empty item is read as the empty collection by both. *)
Lemma empty_item_is_empty_collection
    (outfit : PrimaryOutfit) (ls : gmap (list N) (list N)) :
  ls !! SAVED_OUTFITS_KEY = Some [] ->
  quota_exceeded ls SAVED_OUTFITS_KEY (serialize JSON_stringify [outfit]) = false ->
  isSaved (mount JSON_parse outfit ls []) = false
  /\ toggleSave JSON_parse JSON_stringify quota_exceeded (mount JSON_parse outfit ls [])
     = mkDisplay outfit true (<[SAVED_OUTFITS_KEY := serialize JSON_stringify [outfit]]> ls) [].
Proof.
  intros Hget Hq.
  assert (Hm : mount JSON_parse outfit ls [] = mkDisplay outfit false ls []).
  { unfold mount, saved_check, saved_check_body, getItem.
    cbn [localStorage]. rewrite Hget. reflexivity. }
  rewrite Hm. split; [reflexivity|].
  unfold toggleSave, toggleSave_body, getItem, setItem.
  cbn [localStorage isSaved shown errors_logged]. rewrite Hget.
  unfold serialize in *. cbn [List.map] in *. cbn. rewrite Hq. reflexivity.
Qed.

(** ** A collection this store wrote *)

Hypothesis parse_serialized :
  forall os, JSON_parse (serialize JSON_stringify os) = Return (JArr (List.map PrimaryOutfit_to_js os)).
Hypothesis stringify_nonempty : forall v, JSON_stringify v <> [].

Lemma title_equals_encoded (t : jsstring) (o : PrimaryOutfit) :
  title_equals t (PrimaryOutfit_to_js o) = Return (bool_decide (title o = t)).
Proof.
  destruct o as [t0 tp b f a r]. unfold title_equals, PrimaryOutfit_to_js, get_title.
  cbn [title top bottom footwear accessories reasoning].
  replace (get_member (js "title") _) with (Some (JStr t0)) by (vm_compute; reflexivity).
  reflexivity.
Qed.

Lemma Array_some_encoded (t : jsstring) (os : list PrimaryOutfit) :
  Array_some (title_equals t) (List.map PrimaryOutfit_to_js os)
  = Return (bool_decide (t ∈ List.map title os)).
Proof.
  induction os as [|o os IH]; [reflexivity|].
  cbn [List.map Array_some]. rewrite title_equals_encoded.
  destruct (decide (title o = t)) as [Ho|Ho].
  - rewrite (bool_decide_eq_true_2 _ Ho). cbn.
    rewrite bool_decide_eq_true_2; [reflexivity | rewrite Ho; left].
  - rewrite (bool_decide_eq_false_2 _ Ho). cbn. rewrite IH. f_equal.
    apply bool_decide_ext. rewrite elem_of_cons. intuition congruence.
Qed.

Lemma Array_filter_encoded (t : jsstring) (os : list PrimaryOutfit) :
  Array_filter (fun o => same ← title_equals t o; Return (negb same))
    (List.map PrimaryOutfit_to_js os)
  = Return (List.map PrimaryOutfit_to_js (filter (fun o => title o <> t) os)).
Proof.
  induction os as [|o os IH]; [reflexivity|].
  cbn [List.map Array_filter]. rewrite title_equals_encoded, IH.
  rewrite filter_cons. destruct (decide (title o = t)) as [Ho|Ho].
  - rewrite (bool_decide_eq_true_2 _ Ho). cbn.
    destruct (decide (title o <> t)); [contradiction | reflexivity].
  - rewrite (bool_decide_eq_false_2 _ Ho). cbn.
    destruct (decide (title o <> t)); [reflexivity | contradiction].
Qed.

Lemma serialize_truthy (os : list PrimaryOutfit) :
  str_falsy (serialize JSON_stringify os) = false.
Proof.
  destruct (serialize JSON_stringify os) eqn:E; [|reflexivity].
  destruct (stringify_nonempty _ E).
Qed.

Lemma read_held (ls : gmap (list N) (list N)) (os : list PrimaryOutfit) :
  holds JSON_stringify ls os ->
  match getItem SAVED_OUTFITS_KEY ls with
  | Some savedData =>
      if str_falsy savedData then Return (JArr []) else JSON_parse savedData
  | None => Return (JArr [])
  end = Return (JArr (List.map PrimaryOutfit_to_js os)).
Proof.
  unfold getItem. intros [[-> ->] | ->]; [reflexivity|].
  destruct (serialize JSON_stringify os) eqn:E; [destruct (stringify_nonempty _ E)|].
  cbn [str_falsy]. rewrite <- E. apply parse_serialized.
Qed.

Lemma load_held (ls : gmap (list N) (list N)) (os : list PrimaryOutfit) :
  holds JSON_stringify ls os -> load JSON_parse ls = Some os.
Proof.
  unfold load, getItem. intros [[-> ->] | ->]; [reflexivity|].
  destruct (serialize JSON_stringify os) eqn:E; [destruct (stringify_nonempty _ E)|].
  cbn [str_falsy]. rewrite <- E, parse_serialized. apply as_array_outfits.
Qed.

Lemma saved_check_held (d : OutfitDisplay) (os : list PrimaryOutfit) :
  holds JSON_stringify (localStorage d) os ->
  isSaved d = bool_decide (title (shown d) ∈ List.map title os) ->
  saved_check JSON_parse d = d.
Proof.
  intros Hh Hs. unfold saved_check, saved_check_body.
  destruct d as [o sv ls log]. cbn [shown isSaved localStorage errors_logged] in *.
  destruct Hh as [[Hn ->]|Hsome]; unfold getItem.
  - rewrite Hn. reflexivity.
  - rewrite Hsome.
    destruct (serialize JSON_stringify os) eqn:E; [destruct (stringify_nonempty _ E)|].
    cbn [str_falsy]. rewrite <- E, parse_serialized.
    cbn [mbind Completion_bind array_method]. rewrite Array_some_encoded, Hs.
    reflexivity.
Qed.

Lemma mount_held (outfit : PrimaryOutfit) (ls : gmap (list N) (list N))
    (log : list LogEntry) (os : list PrimaryOutfit) :
  holds JSON_stringify ls os ->
  mount JSON_parse outfit ls log =
    mkDisplay outfit (bool_decide (title outfit ∈ List.map title os)) ls log.
Proof.
  intros Hh. unfold mount, saved_check, saved_check_body.
  cbn [shown isSaved localStorage errors_logged].
  destruct Hh as [[Hn ->]|Hsome]; unfold getItem.
  - rewrite Hn. cbn [List.map]. rewrite bool_decide_eq_false_2; [reflexivity|].
    apply not_elem_of_nil.
  - rewrite Hsome.
    destruct (serialize JSON_stringify os) eqn:E; [destruct (stringify_nonempty _ E)|].
    cbn [str_falsy]. rewrite <- E, parse_serialized.
    cbn [mbind Completion_bind array_method]. rewrite Array_some_encoded.
    reflexivity.
Qed.

Lemma toggleSave_held (d : OutfitDisplay) (os : list PrimaryOutfit) :
  holds JSON_stringify (localStorage d) os ->
  toggleSave JSON_parse JSON_stringify quota_exceeded d =
    if quota_exceeded (localStorage d) SAVED_OUTFITS_KEY (serialize JSON_stringify (toggled d os))
    then mkDisplay (shown d) (isSaved d) (localStorage d)
           (errors_logged d
              ++ [mkLog (js "Failed to save to local storage")
                    (mkError (js "The quota has been exceeded."))])
    else mkDisplay (shown d) (negb (isSaved d))
           (<[SAVED_OUTFITS_KEY := serialize JSON_stringify (toggled d os)]> (localStorage d))
           (errors_logged d).
Proof.
  intros Hh. unfold toggleSave, toggleSave_body.
  rewrite (read_held _ os Hh). cbn [mbind Completion_bind].
  unfold toggled, setItem, serialize. destruct (isSaved d).
  - cbn [array_method mbind Completion_bind]. rewrite Array_filter_encoded.
    cbn [mbind Completion_bind].
    destruct (quota_exceeded _ _ _); reflexivity.
  - cbn [array_method mbind Completion_bind]. rewrite map_app. cbn [List.map].
    destruct (quota_exceeded _ _ _); reflexivity.
Qed.

Lemma holds_after_write (ls : gmap (list N) (list N)) (os : list PrimaryOutfit) :
  holds JSON_stringify (<[SAVED_OUTFITS_KEY := serialize JSON_stringify os]> ls) os.
Proof. right. apply lookup_insert_eq. Qed.

Lemma filter_keeps_all {A} (P : A -> Prop) `{forall x, Decision (P x)} (l : list A) :
  Forall P l -> filter P l = l.
Proof.
  induction 1 as [|x l Hx _ IH]; [reflexivity|].
  rewrite filter_cons_True by assumption. rewrite IH. reflexivity.
Qed.

Lemma title_not_in_filter (t : jsstring) (os : list PrimaryOutfit) :
  t ∉ List.map title (filter (fun o => title o <> t) os).
Proof.
  intros Hin. apply list_elem_of_In, in_map_iff in Hin as (o & Ho & Hin).
  apply list_elem_of_In, list_elem_of_filter in Hin as [Hne _]. contradiction.
Qed.

Lemma NoDup_titles_filter (P : PrimaryOutfit -> Prop) `{forall x, Decision (P x)}
    (os : list PrimaryOutfit) :
  NoDup (List.map title os) -> NoDup (List.map title (filter P os)).
Proof.
  induction os as [|o os IH]; [intros; exact (NoDup_nil_2)|].
  cbn [List.map]. intros Hnd. apply NoDup_cons in Hnd as [Hnot Hnd].
  rewrite filter_cons. destruct (decide (P o)); [|auto].
  cbn [List.map]. apply NoDup_cons. split; [|auto].
  intros Hin. apply Hnot.
  apply list_elem_of_In, in_map_iff in Hin as (o' & Ho' & Hin).
  apply list_elem_of_In, list_elem_of_filter in Hin as [_ Hin].
  rewrite <- Ho'. apply list_elem_of_In, in_map, list_elem_of_In, Hin.
Qed.

Lemma NoDup_titles_snoc (o : PrimaryOutfit) (os : list PrimaryOutfit) :
  title o ∉ List.map title os ->
  NoDup (List.map title os) -> NoDup (List.map title (os ++ [o])).
Proof.
  intros Hnot Hnd. rewrite map_app. apply NoDup_app. split; [exact Hnd|]. split.
  - intros t Ht Hin. cbn in Hin. apply list_elem_of_singleton in Hin. congruence.
  - cbn. apply NoDup_singleton.
Qed.

(** C6, amended.  From a collection without the title of [outfit] the
    mounted display is not saved.  If the storage accepts the write,
    [toggleSave] makes it saved, a fresh check of the storage agrees and
    the collection is the old one followed by [outfit]; if it accepts
    the next write too, [toggleSave] again makes it unsaved, a fresh
    check agrees, and the persisted collection is the old one, with no
    record of that title.  If the storage refuses the first write,
    [toggleSave] saves nothing: the display stays unsaved, the storage is
    as it was and a fresh check agrees.  Removal filters: from any
    collection, duplicates included, a saved display's [toggleSave], when
    its write is accepted, leaves no record with its title. *)
Theorem save_then_unsave_round_trip
    (outfit : PrimaryOutfit) (ls : gmap (list N) (list N)) (os : list PrimaryOutfit) :
  holds JSON_stringify ls os ->
  title outfit ∉ List.map title os ->
  let d0 := mount JSON_parse outfit ls [] in
  let d1 := toggleSave JSON_parse JSON_stringify quota_exceeded d0 in
  let d2 := toggleSave JSON_parse JSON_stringify quota_exceeded d1 in
  isSaved d0 = false
  /\ (quota_exceeded ls SAVED_OUTFITS_KEY (serialize JSON_stringify (os ++ [outfit])) = false ->
      (isSaved d1 = true
       /\ saved_in JSON_parse outfit (localStorage d1) = true
       /\ load JSON_parse (localStorage d1) = Some (os ++ [outfit]))
      /\ (quota_exceeded (localStorage d1) SAVED_OUTFITS_KEY (serialize JSON_stringify os)
          = false ->
          isSaved d2 = false
          /\ saved_in JSON_parse outfit (localStorage d2) = false
          /\ load JSON_parse (localStorage d2) = Some os
          /\ Forall (fun o => title o <> title outfit) os))
  /\ (quota_exceeded ls SAVED_OUTFITS_KEY (serialize JSON_stringify (os ++ [outfit])) = true ->
      isSaved d1 = false
      /\ localStorage d1 = ls
      /\ saved_in JSON_parse outfit (localStorage d1) = false
      /\ load JSON_parse (localStorage d1) = Some os)
  /\ (forall d any,
        holds JSON_stringify (localStorage d) any -> isSaved d = true ->
        let kept := filter (fun o => title o <> title (shown d)) any in
        quota_exceeded (localStorage d) SAVED_OUTFITS_KEY (serialize JSON_stringify kept)
        = false ->
        load JSON_parse (localStorage (toggleSave JSON_parse JSON_stringify quota_exceeded d))
          = Some kept
        /\ Forall (fun o => title o <> title (shown d)) kept).
Proof.
  intros Hh Hnot. cbv zeta.
  assert (Hall : Forall (fun o => title o <> title outfit) os).
  { apply Forall_forall. intros o Ho Heq. apply Hnot. rewrite <- Heq.
    apply list_elem_of_In, in_map, list_elem_of_In, Ho. }
  rewrite (mount_held outfit ls [] os Hh), (bool_decide_eq_false_2 _ Hnot).
  rewrite (toggleSave_held _ os) by exact Hh.
  unfold toggled. cbn [isSaved shown localStorage errors_logged negb].
  split; [reflexivity|]. split; [|split].
  - intros Hq1. rewrite Hq1.
    set (ls1 := <[SAVED_OUTFITS_KEY := serialize JSON_stringify (os ++ [outfit])]> ls).
    assert (Hh1 : holds JSON_stringify ls1 (os ++ [outfit])) by apply holds_after_write.
    cbn [isSaved shown localStorage errors_logged]. split.
    + split; [reflexivity|]. split; [|apply load_held; exact Hh1].
      unfold saved_in. rewrite (mount_held outfit ls1 [] _ Hh1). cbn [isSaved].
      apply bool_decide_eq_true_2. rewrite map_app. apply elem_of_app. right. left.
    + intros Hq2.
      rewrite (toggleSave_held _ (os ++ [outfit])) by exact Hh1.
      unfold toggled. cbn [isSaved shown localStorage errors_logged negb].
      assert (Hfil : filter (fun o => title o <> title outfit) (os ++ [outfit]) = os).
      { rewrite filter_app, (filter_keeps_all _ os Hall).
        rewrite filter_cons_False by (intros Hne; apply Hne; reflexivity).
        rewrite filter_nil. apply app_nil_r. }
      rewrite Hfil, Hq2. cbn [isSaved shown localStorage errors_logged].
      set (ls2 := <[SAVED_OUTFITS_KEY := serialize JSON_stringify os]> ls1).
      assert (Hh2 : holds JSON_stringify ls2 os) by apply holds_after_write.
      split; [reflexivity|]. split; [|split; [apply load_held; exact Hh2 | exact Hall]].
      unfold saved_in. rewrite (mount_held outfit ls2 [] _ Hh2). cbn [isSaved].
      apply bool_decide_eq_false_2, Hnot.
  - intros Hq1. rewrite Hq1. cbn [isSaved shown localStorage errors_logged].
    split; [reflexivity|]. split; [reflexivity|]. split; [|apply load_held; exact Hh].
    unfold saved_in. rewrite (mount_held outfit ls [] _ Hh). cbn [isSaved].
    apply bool_decide_eq_false_2, Hnot.
  - intros d any Hd Hs. cbv zeta. intros Hq.
    rewrite (toggleSave_held d any Hd). unfold toggled. rewrite Hs, Hq.
    cbn [localStorage]. split; [apply load_held, holds_after_write|].
    apply Forall_forall. intros o Ho. apply list_elem_of_filter in Ho as [Hne _].
    exact Hne.
Qed.

Lemma mount_in_step (outfit : PrimaryOutfit) (ls : gmap (list N) (list N))
    (log : list LogEntry) (os : list PrimaryOutfit) :
  holds JSON_stringify ls os -> NoDup (List.map title os) ->
  in_step JSON_stringify (mount JSON_parse outfit ls log) os.
Proof.
  intros Hh Hnd. rewrite (mount_held outfit ls log os Hh).
  split; [exact Hh|]. split; [exact Hnd | reflexivity].
Qed.

Lemma rerender_in_step (outfit : PrimaryOutfit) (d : OutfitDisplay)
    (os : list PrimaryOutfit) :
  in_step JSON_stringify d os -> in_step JSON_stringify (rerender JSON_parse outfit d) os.
Proof.
  intros (Hh & Hnd & Hs). unfold rerender, saved_check, saved_check_body.
  cbn [shown isSaved localStorage errors_logged].
  destruct Hh as [[Hn ->]|Hsome]; unfold getItem.
  - rewrite Hn. split; [left; auto|]. split; [exact Hnd|].
    cbn [isSaved shown List.map] in *. rewrite Hs.
    rewrite !bool_decide_eq_false_2 by apply not_elem_of_nil. reflexivity.
  - rewrite Hsome, serialize_truthy, parse_serialized.
    cbn [mbind Completion_bind array_method]. rewrite Array_some_encoded.
    split; [right; exact Hsome|]. split; [exact Hnd | reflexivity].
Qed.

Lemma toggleSave_in_step (d : OutfitDisplay) (os : list PrimaryOutfit) :
  in_step JSON_stringify d os ->
  exists os', in_step JSON_stringify (toggleSave JSON_parse JSON_stringify quota_exceeded d) os'.
Proof.
  intros (Hh & Hnd & Hs). rewrite (toggleSave_held d os Hh).
  destruct (quota_exceeded _ _ _).
  - exists os. split; [exact Hh|]. split; [exact Hnd | exact Hs].
  - exists (toggled d os). split; [apply holds_after_write|].
    unfold toggled. cbn [isSaved shown]. rewrite Hs.
    case_bool_decide as Hin; cbn [negb]; (split; [|symmetry]).
    + apply NoDup_titles_filter, Hnd.
    + apply bool_decide_eq_false_2, title_not_in_filter.
    + apply NoDup_titles_snoc; assumption.
    + apply bool_decide_eq_true_2. rewrite map_app. apply elem_of_app. right. left.
Qed.

Lemma display_reachable_in_step (ls0 : gmap (list N) (list N))
    (os0 : list PrimaryOutfit) (d : OutfitDisplay) :
  holds JSON_stringify ls0 os0 -> NoDup (List.map title os0) ->
  display_reachable JSON_parse JSON_stringify quota_exceeded ls0 d ->
  exists os, in_step JSON_stringify d os.
Proof.
  intros Hh Hnd. induction 1 as [outfit|d _ [os IH]|outfit d _ [os IH]|outfit d _ [os IH]].
  - exists os0. apply mount_in_step; assumption.
  - apply (toggleSave_in_step d os IH).
  - exists os. apply rerender_in_step, IH.
  - exists os. destruct IH as (Hd & Hn & _). apply mount_in_step; assumption.
Qed.

(** C7.  [toggleSave] keeps the titles of the persisted collection
    pairwise distinct: from a storage holding a collection with distinct
    titles, whatever the display has gone through (mounts, renders with
    other outfits, toggles), the collection read back after a further
    [toggleSave] has distinct titles. *)
Theorem toggleSave_keeps_titles_distinct
    (ls0 : gmap (list N) (list N)) (os0 : list PrimaryOutfit) (d : OutfitDisplay) :
  holds JSON_stringify ls0 os0 ->
  NoDup (List.map title os0) ->
  display_reachable JSON_parse JSON_stringify quota_exceeded ls0 d ->
  exists os,
    load JSON_parse (localStorage (toggleSave JSON_parse JSON_stringify quota_exceeded d))
      = Some os
    /\ NoDup (List.map title os).
Proof.
  intros Hh Hnd Hr.
  destruct (display_reachable_in_step ls0 os0 d Hh Hnd Hr) as [os Hstep].
  destruct (toggleSave_in_step d os Hstep) as (os' & Hh' & Hnd' & _).
  exists os'. split; [apply load_held, Hh' | exact Hnd'].
Qed.

(** ** What every [toggleSave] and every check does *)

Lemma toggleSave_cases (d : OutfitDisplay) :
  (exists v,
      toggleSave JSON_parse JSON_stringify quota_exceeded d
      = mkDisplay (shown d) (negb (isSaved d))
          (<[SAVED_OUTFITS_KEY := v]> (localStorage d)) (errors_logged d))
  \/ (exists e,
        toggleSave JSON_parse JSON_stringify quota_exceeded d
        = mkDisplay (shown d) (isSaved d) (localStorage d)
            (errors_logged d ++ [mkLog (js "Failed to save to local storage") e])).
Proof.
  unfold toggleSave.
  destruct (toggleSave_body JSON_parse JSON_stringify quota_exceeded d)
    as [[saved ls]|e] eqn:E; [left | right; exists e; reflexivity].
  unfold toggleSave_body in E.
  destruct (match getItem SAVED_OUTFITS_KEY (localStorage d) with
            | Some savedData =>
                if str_falsy savedData then Return (JArr []) else JSON_parse savedData
            | None => Return (JArr [])
            end) as [parsed|e0]; cbn [mbind Completion_bind] in E; [|discriminate].
  destruct (if isSaved d then _ else _) as [outfits|e1];
    cbn [mbind Completion_bind] in E; [|discriminate].
  unfold setItem in E. destruct (quota_exceeded _ _ _); cbn [mbind Completion_bind] in E;
    [discriminate|].
  injection E as <- <-. eexists. reflexivity.
Qed.

Lemma saved_check_cases (d : OutfitDisplay) :
  (exists b, saved_check JSON_parse d
             = mkDisplay (shown d) b (localStorage d) (errors_logged d))
  \/ (exists e,
        saved_check JSON_parse d
        = mkDisplay (shown d) (isSaved d) (localStorage d)
            (errors_logged d ++ [mkLog (js "Failed to read from local storage") e])).
Proof.
  unfold saved_check. destruct (saved_check_body JSON_parse d) as [b|e];
    [left; exists b | right; exists e]; reflexivity.
Qed.

(** X12.  [toggleSave] is all or nothing: either the item under the
    key is rewritten, [isSaved] is negated and nothing is logged, or an
    error is logged under "Failed to save to local storage" and neither
    the storage nor [isSaved] changes.  In both cases the shown outfit
    and every other key of the storage are as before. *)
Theorem toggleSave_all_or_nothing (d : OutfitDisplay) :
  shown (toggleSave JSON_parse JSON_stringify quota_exceeded d) = shown d
  /\ (forall k, k <> SAVED_OUTFITS_KEY ->
        localStorage (toggleSave JSON_parse JSON_stringify quota_exceeded d) !! k
        = localStorage d !! k)
  /\ ((isSaved (toggleSave JSON_parse JSON_stringify quota_exceeded d) = negb (isSaved d)
       /\ (exists v, localStorage (toggleSave JSON_parse JSON_stringify quota_exceeded d)
                     = <[SAVED_OUTFITS_KEY := v]> (localStorage d))
       /\ errors_logged (toggleSave JSON_parse JSON_stringify quota_exceeded d)
          = errors_logged d)
      \/ (isSaved (toggleSave JSON_parse JSON_stringify quota_exceeded d) = isSaved d
          /\ localStorage (toggleSave JSON_parse JSON_stringify quota_exceeded d)
             = localStorage d
          /\ exists e,
               errors_logged (toggleSave JSON_parse JSON_stringify quota_exceeded d)
               = errors_logged d ++ [mkLog (js "Failed to save to local storage") e])).
Proof.
  destruct (toggleSave_cases d) as [[v ->]|[e ->]];
    cbn [shown isSaved localStorage errors_logged].
  - split; [reflexivity|]. split.
    + intros k Hk. apply lookup_insert_ne. congruence.
    + left. split; [reflexivity|]. split; [exists v|]; reflexivity.
  - split; [reflexivity|]. split; [reflexivity|].
    right. split; [reflexivity|]. split; [reflexivity | exists e; reflexivity].
Qed.

Lemma step_keeps_other_keys (d d' : OutfitDisplay) (k : jsstring) :
  k <> SAVED_OUTFITS_KEY ->
  d' = toggleSave JSON_parse JSON_stringify quota_exceeded d
  \/ (exists outfit, d' = rerender JSON_parse outfit d)
  \/ (exists outfit, d' = mount JSON_parse outfit (localStorage d) (errors_logged d)) ->
  localStorage d' !! k = localStorage d !! k.
Proof.
  intros Hk [->|[[outfit ->]|[outfit ->]]].
  - destruct (toggleSave_cases d) as [[v ->]|[e ->]]; cbn [localStorage];
      [apply lookup_insert_ne; congruence | reflexivity].
  - unfold rerender.
    destruct (saved_check_cases (mkDisplay outfit (isSaved d) (localStorage d)
                                   (errors_logged d))) as [[b ->]|[e ->]]; reflexivity.
  - unfold mount.
    destruct (saved_check_cases (mkDisplay outfit false (localStorage d)
                                   (errors_logged d))) as [[b ->]|[e ->]]; reflexivity.
Qed.

(** X13.  The display touches one key only, and its checks never
    write: whatever a display has gone through from a storage [ls0]
    (mounts, renders with other outfits, toggles, with any item under
    the key, any codec and any quota), every other key of the storage is
    as in [ls0]; and a check (a render with another outfit, a mount)
    leaves the whole storage as it was. *)
Theorem display_touches_only_its_key
    (ls0 : gmap (list N) (list N)) (d : OutfitDisplay) :
  display_reachable JSON_parse JSON_stringify quota_exceeded ls0 d ->
  (forall k, k <> SAVED_OUTFITS_KEY -> localStorage d !! k = ls0 !! k)
  /\ (forall outfit, localStorage (rerender JSON_parse outfit d) = localStorage d)
  /\ (forall outfit,
        localStorage (mount JSON_parse outfit (localStorage d) (errors_logged d))
        = localStorage d).
Proof.
  intros Hr. split; [|split].
  - intros k Hk.
    induction Hr as [outfit|d _ IH|outfit d _ IH|outfit d _ IH].
    + unfold mount.
      destruct (saved_check_cases (mkDisplay outfit false ls0 [])) as [[b ->]|[e ->]];
        reflexivity.
    + rewrite <- IH. apply step_keeps_other_keys; auto.
    + rewrite <- IH. apply step_keeps_other_keys; eauto.
    + rewrite <- IH. apply (step_keeps_other_keys d); eauto.
  - intros outfit. unfold rerender.
    destruct (saved_check_cases (mkDisplay outfit (isSaved d) (localStorage d)
                                   (errors_logged d))) as [[b ->]|[e ->]]; reflexivity.
  - intros outfit. unfold mount.
    destruct (saved_check_cases (mkDisplay outfit false (localStorage d)
                                   (errors_logged d))) as [[b ->]|[e ->]]; reflexivity.
Qed.

(** ** An item that is not a collection *)

Lemma array_method_not_array (name : jsstring) (v : JSValue) :
  (forall l, v <> JArr l) -> exists e, array_method name v = Throw e.
Proof.
  intros Hv. destruct v as [| | | |l|]; try (eexists; reflexivity).
  destruct (Hv l eq_refl).
Qed.

(** X14.  An item that is valid JSON but not an array (an object, a
    number, a string, [null]): the check of a mounted display catches
    the failing [outfits.some], logs it and leaves [isSaved] at
    [false]; [toggleSave] catches the failing [filter] or [push], logs
    it and changes nothing, whatever [isSaved] says. *)
Theorem non_array_item_check_and_toggle_noop
    (d : OutfitDisplay) (outfit : PrimaryOutfit) (log : list LogEntry)
    (s : jsstring) (v : JSValue) :
  localStorage d !! SAVED_OUTFITS_KEY = Some s -> s <> [] ->
  JSON_parse s = Return v -> (forall l, v <> JArr l) ->
  (exists e,
      mount JSON_parse outfit (localStorage d) log
      = mkDisplay outfit false (localStorage d)
          (log ++ [mkLog (js "Failed to read from local storage") e]))
  /\ (exists e,
        toggleSave JSON_parse JSON_stringify quota_exceeded d
        = mkDisplay (shown d) (isSaved d) (localStorage d)
            (errors_logged d ++ [mkLog (js "Failed to save to local storage") e])).
Proof.
  intros Hget Hne Hp Hv. split.
  - unfold mount, saved_check, saved_check_body, getItem.
    cbn [localStorage shown isSaved errors_logged]. rewrite Hget.
    destruct s as [|c s]; [contradiction|]. cbn [str_falsy]. rewrite Hp.
    cbn [mbind Completion_bind].
    destruct (array_method_not_array (js "some") v Hv) as [e ->].
    cbn [mbind Completion_bind]. exists e. reflexivity.
  - unfold toggleSave, toggleSave_body, getItem. rewrite Hget.
    destruct s as [|c s]; [contradiction|]. cbn [str_falsy]. rewrite Hp.
    cbn [mbind Completion_bind]. destruct (isSaved d).
    + destruct (array_method_not_array (js "filter") v Hv) as [e ->].
      cbn [mbind Completion_bind]. exists e. reflexivity.
    + destruct (array_method_not_array (js "push") v Hv) as [e ->].
      cbn [mbind Completion_bind]. exists e. reflexivity.
Qed.

(** ** No item, or an empty one *)

(** X15.  With no item under the key, or with the empty string there,
    the check does not assign [isSaved]: a mounted display is unsaved, a
    render with another outfit keeps the flag of the previous one, and
    nothing is logged.  [toggleSave] on an unsaved display then writes
    the collection of the shown outfit alone; on a saved display it
    writes the empty collection. *)
Theorem missing_or_empty_item
    (d : OutfitDisplay) (outfit : PrimaryOutfit) :
  localStorage d !! SAVED_OUTFITS_KEY = None
  \/ localStorage d !! SAVED_OUTFITS_KEY = Some [] ->
  mount JSON_parse outfit (localStorage d) (errors_logged d)
  = mkDisplay outfit false (localStorage d) (errors_logged d)
  /\ rerender JSON_parse outfit d
     = mkDisplay outfit (isSaved d) (localStorage d) (errors_logged d)
  /\ (let written :=
        if isSaved d then JArr [] else JArr [PrimaryOutfit_to_js (shown d)] in
      quota_exceeded (localStorage d) SAVED_OUTFITS_KEY (JSON_stringify written) = false ->
      toggleSave JSON_parse JSON_stringify quota_exceeded d
      = mkDisplay (shown d) (negb (isSaved d))
          (<[SAVED_OUTFITS_KEY := JSON_stringify written]> (localStorage d))
          (errors_logged d)).
Proof.
  intros Hget.
  assert (Hread : match getItem SAVED_OUTFITS_KEY (localStorage d) with
                  | Some savedData =>
                      if str_falsy savedData then Return (JArr []) else JSON_parse savedData
                  | None => Return (JArr [])
                  end = Return (JArr []))
    by (unfold getItem; destruct Hget as [-> | ->]; reflexivity).
  split; [|split].
  - unfold mount, saved_check, saved_check_body, getItem. cbn [localStorage].
    destruct Hget as [-> | ->]; reflexivity.
  - unfold rerender, saved_check, saved_check_body, getItem. cbn [localStorage].
    destruct Hget as [-> | ->]; reflexivity.
  - cbv zeta. unfold toggleSave, toggleSave_body. rewrite Hread.
    cbn [mbind Completion_bind]. unfold setItem.
    destruct (isSaved d); cbn [array_method mbind Completion_bind Array_filter];
      rewrite ?app_nil_l; intros Hq; rewrite Hq; reflexivity.
Qed.

(** ** Elements that are not outfits *)




(** ** The records [toggleSave] leaves alone *)

Lemma filter_filter_same {A} (P : A -> Prop) `{forall x, Decision (P x)} (l : list A) :
  filter P (filter P l) = filter P l.
Proof.
  apply filter_keeps_all, Forall_forall. intros x Hx.
  apply list_elem_of_filter in Hx as [Hx _]. exact Hx.
Qed.

Lemma filter_snoc_out (t : jsstring) (o : PrimaryOutfit) (os : list PrimaryOutfit) :
  title o = t ->
  filter (fun o => title o <> t) (os ++ [o]) = filter (fun o => title o <> t) os.
Proof.
  intros Ho. rewrite filter_app, filter_cons_False by (intros Hne; apply Hne, Ho).
  rewrite filter_nil. apply app_nil_r.
Qed.

(** X17.  [toggleSave] never changes the records of other outfits:
    whatever collection the storage holds (duplicates included) and
    whatever [isSaved] says, the records whose title is not the shown one
    are the same, in the same order, in the collection read back after a
    [toggleSave]. *)
Theorem toggleSave_keeps_other_titles
    (d : OutfitDisplay) (os : list PrimaryOutfit) :
  holds JSON_stringify (localStorage d) os ->
  exists os',
    load JSON_parse (localStorage (toggleSave JSON_parse JSON_stringify quota_exceeded d))
    = Some os'
    /\ filter (fun o => title o <> title (shown d)) os'
       = filter (fun o => title o <> title (shown d)) os.
Proof.
  intros Hh. rewrite (toggleSave_held d os Hh).
  destruct (quota_exceeded _ _ _); cbn [localStorage].
  - exists os. split; [apply load_held, Hh | reflexivity].
  - exists (toggled d os). split; [apply load_held, holds_after_write|].
    unfold toggled. destruct (isSaved d).
    + apply filter_filter_same.
    + apply filter_snoc_out. reflexivity.
Qed.

(** X18.  Removing and saving again is not the identity on the
    collection: from a saved display, two [toggleSave]s leave the flag
    saved, and the collection read back is the held one without the
    records of the shown title, followed by the shown outfit; the record
    that was stored under the title is replaced by the outfit on
    display and moves to the end. *)
Theorem unsave_then_save_replaces_record
    (d : OutfitDisplay) (os : list PrimaryOutfit) :
  holds JSON_stringify (localStorage d) os ->
  isSaved d = true ->
  (forall l v, quota_exceeded l SAVED_OUTFITS_KEY v = false) ->
  let d2 := toggleSave JSON_parse JSON_stringify quota_exceeded
              (toggleSave JSON_parse JSON_stringify quota_exceeded d) in
  isSaved d2 = true
  /\ load JSON_parse (localStorage d2)
     = Some (filter (fun o => title o <> title (shown d)) os ++ [shown d])
  /\ errors_logged d2 = errors_logged d.
Proof.
  intros Hh Hs Hq. cbv zeta.
  set (kept := filter (fun o => title o <> title (shown d)) os).
  assert (E : toggleSave JSON_parse JSON_stringify quota_exceeded d
              = mkDisplay (shown d) false
                  (<[SAVED_OUTFITS_KEY := serialize JSON_stringify kept]> (localStorage d))
                  (errors_logged d)).
  { rewrite (toggleSave_held d os Hh), Hq. unfold toggled. rewrite Hs. reflexivity. }
  rewrite E. rewrite (toggleSave_held _ kept) by apply holds_after_write.
  rewrite Hq. unfold toggled. cbn [isSaved shown localStorage errors_logged negb].
  split; [reflexivity|]. split; [|reflexivity].
  apply load_held, holds_after_write.
Qed.

(** X19.  [toggleSave] decides by the [isSaved] cell alone, without
    looking for the title in the stored collection.  With a flag that
    says unsaved while the storage holds a record with the shown title
    (the storage was changed after the check, as by another tab), saving
    appends a second record with that title; with a flag that says saved
    while no record has the title, removing rewrites the collection as it
    is and clears the flag. *)
Theorem toggleSave_trusts_the_flag
    (d : OutfitDisplay) (os : list PrimaryOutfit) :
  holds JSON_stringify (localStorage d) os ->
  (forall l v, quota_exceeded l SAVED_OUTFITS_KEY v = false) ->
  (isSaved d = false -> title (shown d) ∈ List.map title os ->
   isSaved (toggleSave JSON_parse JSON_stringify quota_exceeded d) = true
   /\ load JSON_parse (localStorage (toggleSave JSON_parse JSON_stringify quota_exceeded d))
      = Some (os ++ [shown d])
   /\ ~ NoDup (List.map title (os ++ [shown d])))
  /\ (isSaved d = true -> title (shown d) ∉ List.map title os ->
      isSaved (toggleSave JSON_parse JSON_stringify quota_exceeded d) = false
      /\ load JSON_parse (localStorage (toggleSave JSON_parse JSON_stringify quota_exceeded d))
         = Some os).
Proof.
  intros Hh Hq. rewrite (toggleSave_held d os Hh), Hq. unfold toggled. split.
  - intros Hs Hin. rewrite Hs. cbn [isSaved localStorage negb].
    split; [reflexivity|]. split; [apply load_held, holds_after_write|].
    rewrite map_app. cbn [List.map]. intros Hnd. apply NoDup_app in Hnd as (_ & Hdis & _).
    apply (Hdis _ Hin). left.
  - intros Hs Hnot. rewrite Hs. cbn [isSaved localStorage negb].
    split; [reflexivity|].
    rewrite filter_keeps_all; [apply load_held, holds_after_write|].
    apply Forall_forall. intros o Ho Heq. apply Hnot. rewrite <- Heq.
    apply list_elem_of_In, in_map, list_elem_of_In, Ho.
Qed.

Lemma step_logs_nothing (d : OutfitDisplay) (os : list PrimaryOutfit) :
  (forall l v, quota_exceeded l SAVED_OUTFITS_KEY v = false) ->
  holds JSON_stringify (localStorage d) os -> errors_logged d = [] ->
  (exists os', holds JSON_stringify
                 (localStorage (toggleSave JSON_parse JSON_stringify quota_exceeded d)) os'
               /\ errors_logged (toggleSave JSON_parse JSON_stringify quota_exceeded d) = [])
  /\ (forall outfit,
        holds JSON_stringify (localStorage (rerender JSON_parse outfit d)) os
        /\ errors_logged (rerender JSON_parse outfit d) = [])
  /\ (forall outfit,
        holds JSON_stringify
          (localStorage (mount JSON_parse outfit (localStorage d) (errors_logged d))) os
        /\ errors_logged (mount JSON_parse outfit (localStorage d) (errors_logged d)) = []).
Proof.
  intros Hq Hh Hlog. split; [|split].
  - rewrite (toggleSave_held d os Hh), Hq. exists (toggled d os).
    split; [apply holds_after_write | exact Hlog].
  - intros outfit. unfold rerender, saved_check, saved_check_body, getItem.
    cbn [shown isSaved localStorage errors_logged].
    destruct Hh as [[Hn ->]|Hsome].
    + rewrite Hn. split; [left; auto | exact Hlog].
    + rewrite Hsome, serialize_truthy, parse_serialized.
      cbn [mbind Completion_bind array_method]. rewrite Array_some_encoded.
      split; [right; exact Hsome | exact Hlog].
  - intros outfit. rewrite (mount_held outfit _ _ os Hh). split; [exact Hh | exact Hlog].
Qed.

(** X20.  A storage this store wrote gives no error: from a storage
    with no item or with a collection written by [toggleSave], and with
    no write refused, nothing is ever logged by the display, whatever it
    goes through, and the storage always holds a collection that can be
    read back. *)
Theorem healthy_storage_logs_nothing
    (ls0 : gmap (list N) (list N)) (os0 : list PrimaryOutfit) (d : OutfitDisplay) :
  holds JSON_stringify ls0 os0 ->
  (forall l v, quota_exceeded l SAVED_OUTFITS_KEY v = false) ->
  display_reachable JSON_parse JSON_stringify quota_exceeded ls0 d ->
  errors_logged d = []
  /\ exists os, load JSON_parse (localStorage d) = Some os.
Proof.
  intros Hh Hq Hr.
  assert (H : exists os, holds JSON_stringify (localStorage d) os /\ errors_logged d = []).
  { induction Hr as [outfit|d _ (os & IH & Hlog)|outfit d _ (os & IH & Hlog)
                    |outfit d _ (os & IH & Hlog)].
    - exists os0. rewrite (mount_held outfit ls0 [] os0 Hh). auto.
    - apply (step_logs_nothing d os Hq IH Hlog).
    - exists os. apply (step_logs_nothing d os Hq IH Hlog).
    - exists os. apply (step_logs_nothing d os Hq IH Hlog). }
  destruct H as (os & Hd & Hlog). split; [exact Hlog|].
  exists os. apply load_held, Hd.
Qed.

End StoreFacts.

(* ================================================================== *)
(** * The reference codec reads back what it writes *)
(* ================================================================== *)

Section CodecFacts.

Import JSON.
Local Open Scope N_scope.

Lemma hex4_escape (c : N) :
  c < 32 -> hex4 48 48 (hex_char (c / 16)) (hex_char (c mod 16)) = Some c.
Proof.
  intros Hc. destruct c as [|p]; [reflexivity|].
  do 5 (destruct p as [p|p|]; try reflexivity); lia.
Qed.

Lemma parse_chars_literal (c : N) (s : jsstring) :
  c <> 34 -> c <> 92 -> 32 <= c ->
  parse_chars (c :: s) = push_unit c (parse_chars s).
Proof.
  intros H1 H2 H3. cbn [parse_chars].
  apply N.eqb_neq in H1, H2. rewrite H1, H2.
  apply N.ltb_ge in H3. rewrite H3. reflexivity.
Qed.

Lemma parse_chars_unicode (h1 h2 h3 h4 : N) (s : jsstring) :
  parse_chars (92 :: 117 :: h1 :: h2 :: h3 :: h4 :: s) =
    match hex4 h1 h2 h3 h4 with
    | Some u => push_unit u (parse_chars s)
    | None => None
    end.
Proof. reflexivity. Qed.

Lemma parse_chars_escape (c : N) (s rest : jsstring) :
  parse_chars (escape c ++ s) = push_unit c (parse_chars s).
Proof.
  unfold escape.
  destruct (N.eqb_spec c 34) as [->|H34]; [reflexivity|].
  destruct (N.eqb_spec c 92) as [->|H92]; [reflexivity|].
  destruct (N.eqb_spec c 8) as [->|H8]; [reflexivity|].
  destruct (N.eqb_spec c 12) as [->|H12]; [reflexivity|].
  destruct (N.eqb_spec c 10) as [->|H10]; [reflexivity|].
  destruct (N.eqb_spec c 13) as [->|H13]; [reflexivity|].
  destruct (N.eqb_spec c 9) as [->|H9]; [reflexivity|].
  destruct (N.ltb_spec c 32) as [Hlt|Hge].
  - change (parse_chars (92 :: 117 :: 48 :: 48 :: hex_char (c / 16)
                             :: hex_char (c mod 16) :: s) = push_unit c (parse_chars s)).
    rewrite parse_chars_unicode, (hex4_escape c Hlt). reflexivity.
  - apply parse_chars_literal; assumption.
Qed.

Lemma parse_chars_quoted (s rest : jsstring) :
  parse_chars (flat_map escape s ++ 34 :: rest) = Some (s, rest).
Proof.
  induction s as [|c s IH]; [reflexivity|].
  cbn [flat_map]. rewrite <- app_assoc, (parse_chars_escape c _ rest), IH. reflexivity.
Qed.

(** ** Numbers *)

Lemma units_unfold (u : Decimal.uint) :
  units u = match digit_of u with
            | Some (c, u') => c :: units u'
            | None => []
            end.
Proof. destruct u; reflexivity. Qed.

Lemma digit_of_digit (u u' : Decimal.uint) (c : N) :
  digit_of u = Some (c, u') -> is_digit c = true.
Proof. destruct u; intros [= <- _]; reflexivity. Qed.

Lemma span_digits_units (u : Decimal.uint) (rest : jsstring) :
  starts_with_digit rest = false ->
  span_digits (units u ++ rest) = (units u, rest).
Proof.
  intros Hrest. induction u; rewrite units_unfold; cbn [digit_of];
    try (rewrite <- app_comm_cons; cbn [span_digits]; change (is_digit _) with true;
         cbv iota; rewrite IHu; reflexivity).
  rewrite app_nil_l. destruct rest as [|c r]; [reflexivity|].
  cbn [starts_with_digit] in Hrest. cbn [span_digits]. rewrite Hrest. reflexivity.
Qed.

Lemma parse_digits_units (u : Decimal.uint) (rest : jsstring) :
  u <> Decimal.Nil -> starts_with_digit rest = false ->
  parse_digits (units u ++ rest) = Some (units u, rest).
Proof.
  intros Hu Hrest. unfold parse_digits. rewrite (span_digits_units u rest Hrest).
  destruct u; [contradiction|..]; reflexivity.
Qed.

Lemma fold_digits_acc (u : Decimal.uint) (acc : positive) :
  fold_left digit_step (units u) (Z.pos acc) = Z.pos (Pos.of_uint_acc u acc).
Proof.
  revert acc. induction u; intros acc; rewrite units_unfold; cbn [digit_of];
    try reflexivity;
    cbn [fold_left Pos.of_uint_acc]; rewrite <- IHu; f_equal; unfold digit_step; lia.
Qed.

Lemma digits_value_units (u : Decimal.uint) :
  digits_value (units u) = Z.of_N (Pos.of_uint u).
Proof.
  unfold digits_value. change (fun acc d => (10 * acc + Z.of_N (d - 48))%Z) with digit_step.
  induction u; rewrite units_unfold; cbn [digit_of]; try reflexivity;
    cbn [fold_left Pos.of_uint];
    try (change (digit_step 0 _) with (Z.pos 1) || change (digit_step 0 _) with (Z.pos 2)
         || change (digit_step 0 _) with (Z.pos 3) || change (digit_step 0 _) with (Z.pos 4)
         || change (digit_step 0 _) with (Z.pos 5) || change (digit_step 0 _) with (Z.pos 6)
         || change (digit_step 0 _) with (Z.pos 7) || change (digit_step 0 _) with (Z.pos 8)
         || change (digit_step 0 _) with (Z.pos 9);
         rewrite fold_digits_acc; reflexivity).
  exact IHu.
Qed.

Lemma to_uint_canonical (p : positive) : canonical (Pos.to_uint p).
Proof.
  right. split; [apply DecimalPos.Unsigned.to_uint_nonnil|].
  intros u' Hu.
  pose proof (DecimalPos.Unsigned.to_of (Pos.to_uint p)) as Hn.
  rewrite DecimalPos.Unsigned.of_to in Hn. cbn [N.to_uint] in Hn.
  rewrite Hu in Hn. unfold Decimal.unorm in Hn. cbn [Decimal.nzhead] in Hn.
  destruct (Decimal.nzhead u') eqn:E; try discriminate.
  - injection Hn as ->. apply (DecimalPos.Unsigned.to_uint_nonzero p Hu).
  - apply (DecimalFacts.nzhead_nonzero _ _ E).
Qed.

Lemma parse_int_units (u : Decimal.uint) (rest : jsstring) :
  canonical u -> starts_with_digit rest = false ->
  parse_int (units u ++ rest) = Some (units u, rest).
Proof.
  intros Hc Hrest. unfold parse_int.
  destruct Hc as [->|[Hnil Hz]].
  - rewrite (parse_digits_units _ rest) by (discriminate || assumption). reflexivity.
  - rewrite (parse_digits_units u rest Hnil Hrest). cbn [mbind option_bind].
    destruct u; try reflexivity. destruct (Hz u eq_refl).
Qed.

Lemma print_Z_cases (z : Z) :
  exists u, canonical u
    /\ ((print_Z z = units u /\ Z.of_N (Pos.of_uint u) = z)
        \/ (print_Z z = 45 :: units u /\ (- Z.of_N (Pos.of_uint u))%Z = z /\ (z < 0)%Z)).
Proof.
  destruct z as [|p|p].
  - exists (Decimal.D0 Decimal.Nil). split; [left; reflexivity|]. left. split; reflexivity.
  - exists (Pos.to_uint p). split; [apply to_uint_canonical|]. left.
    split; [reflexivity|]. rewrite DecimalPos.Unsigned.of_to. reflexivity.
  - exists (Pos.to_uint p). split; [apply to_uint_canonical|]. right.
    split; [reflexivity|]. rewrite DecimalPos.Unsigned.of_to. split; [reflexivity | lia].
Qed.

Lemma canonical_head (u : Decimal.uint) :
  canonical u -> exists c t, units u = c :: t /\ is_digit c = true.
Proof.
  intros [->|[Hnil _]]; [exists 48, []; split; reflexivity|].
  rewrite units_unfold. destruct (digit_of u) as [[c u']|] eqn:E.
  - exists c, (units u'). split; [reflexivity | apply (digit_of_digit _ _ _ E)].
  - destruct u; [contradiction|..]; discriminate.
Qed.

Lemma delimited_cases (rest : jsstring) :
  delimited rest = true ->
  rest = [] \/ exists r, rest = 44 :: r \/ rest = 93 :: r \/ rest = 125 :: r.
Proof.
  destruct rest as [|c r]; [auto|]. cbn [delimited]. intros H. right. exists r.
  apply orb_true_iff in H as [H|H]; [apply orb_true_iff in H as [H|H]|];
    apply N.eqb_eq in H; subst; auto.
Qed.

Lemma delimited_no_digit (rest : jsstring) :
  delimited rest = true -> starts_with_digit rest = false.
Proof.
  intros H. destruct (delimited_cases rest H) as [->|(r & [->|[->| ->]])]; reflexivity.
Qed.

Lemma parse_sign_digit (c : N) (s : jsstring) :
  is_digit c = true -> parse_sign (c :: s) = (false, c :: s).
Proof.
  intros Hc. unfold parse_sign. destruct (N.eqb_spec c 45) as [->|_]; [discriminate|].
  reflexivity.
Qed.

Lemma parse_exp_print (e : Z) (rest : jsstring) :
  delimited rest = true ->
  starts_with_digit (exponent_text e ++ rest) = false
  /\ parse_frac (exponent_text e ++ rest) = Some ([], exponent_text e ++ rest)
  /\ parse_exp (exponent_text e ++ rest) = Some (e, rest).
Proof.
  intros Hrest. unfold exponent_text. destruct (Z.eqb_spec e 0) as [->|He].
  - rewrite app_nil_l.
    destruct (delimited_cases rest Hrest) as [->|(r & [->|[->| ->]])];
      repeat split; reflexivity.
  - rewrite <- app_comm_cons. split; [reflexivity|]. split; [reflexivity|].
    pose proof (delimited_no_digit rest Hrest) as Hnd.
    destruct (print_Z_cases e) as (u & Hc & [[-> Hv]|(-> & Hv & _)]).
    + destruct (canonical_head u Hc) as (c & t & Hu & Hd).
      assert (Hnil : u <> Decimal.Nil) by (intros ->; discriminate).
      unfold parse_exp. change ((101 =? 101) || (101 =? 69)) with true. cbv iota.
      pose proof (parse_digits_units u rest Hnil Hnd) as Hp.
      rewrite Hu in *. rewrite <- app_comm_cons in *.
      unfold is_digit in Hd. apply andb_true_iff in Hd as [Hlo Hhi].
      apply N.leb_le in Hlo, Hhi.
      destruct (N.eqb_spec c 45) as [->|_]; [lia|].
      destruct (N.eqb_spec c 43) as [->|_]; [lia|].
      rewrite Hp. cbn [mbind option_bind]. rewrite <- Hu, digits_value_units, Hv.
      reflexivity.
    + assert (Hnil : u <> Decimal.Nil).
      { destruct Hc as [->|[Hn _]]; [discriminate | exact Hn]. }
      unfold parse_exp. change ((101 =? 101) || (101 =? 69)) with true. cbv iota.
      rewrite <- app_comm_cons. change (45 =? 45) with true. cbv iota.
      rewrite (parse_digits_units u rest Hnil Hnd). cbn [mbind option_bind].
      rewrite digits_value_units, Hv. reflexivity.
Qed.

Lemma parse_number_print (m e : Z) (rest : jsstring) :
  delimited rest = true ->
  parse_number (print_Z m ++ exponent_text e ++ rest) = Some (JNum m e, rest).
Proof.
  intros Hrest.
  destruct (parse_exp_print e rest Hrest) as (Hnd & Hfrac & Hexp).
  set (tail := exponent_text e ++ rest) in *.
  destruct (print_Z_cases m) as (u & Hc & [[-> Hv]|(-> & Hv & _)]).
  - destruct (canonical_head u Hc) as (c & t & Hu & Hd).
    unfold parse_number. rewrite Hu at 1. rewrite <- app_comm_cons.
    rewrite (parse_sign_digit c _ Hd). rewrite app_comm_cons, <- Hu.
    rewrite (parse_int_units u tail Hc Hnd). cbn [mbind option_bind].
    rewrite Hfrac. cbn [mbind option_bind]. rewrite Hexp. cbn [mbind option_bind].
    rewrite app_nil_r, digits_value_units, Hv. cbn [length].
    rewrite Z.sub_0_r. reflexivity.
  - unfold parse_number, parse_sign. rewrite <- app_comm_cons.
    change (45 =? 45) with true. cbv iota.
    rewrite (parse_int_units u tail Hc Hnd). cbn [mbind option_bind].
    rewrite Hfrac. cbn [mbind option_bind]. rewrite Hexp. cbn [mbind option_bind].
    rewrite app_nil_r, digits_value_units, Hv. cbn [length].
    rewrite Z.sub_0_r. reflexivity.
Qed.

(** ** Values *)

Lemma skip_ws_head (c : N) (s : jsstring) :
  is_ws c = false -> skip_ws (c :: s) = c :: s.
Proof. intros H. unfold skip_ws. cbn [skip_while]. rewrite H. reflexivity. Qed.

Lemma digit_not_ws (c : N) : is_digit c = true -> is_ws c = false.
Proof.
  unfold is_digit, is_ws. intros H. apply andb_true_iff in H as [Hlo Hhi].
  apply N.leb_le in Hlo, Hhi.
  destruct (N.eqb_spec c 32); [lia|]. destruct (N.eqb_spec c 9); [lia|].
  destruct (N.eqb_spec c 10); [lia|]. destruct (N.eqb_spec c 13); [lia|]. reflexivity.
Qed.

Lemma digit_opens_value (c : N) : is_digit c = true -> opens_value c.
Proof.
  intros H. split; [apply digit_not_ws, H|].
  unfold is_digit in H. apply andb_true_iff in H as [Hlo Hhi].
  apply N.leb_le in Hlo, Hhi. split; lia.
Qed.

Lemma stringify_head (v : JSValue) :
  exists c s, stringify v = c :: s /\ opens_value c.
Proof.
  destruct v as [|[|]|m e|str|l|ms].
  - exists 110, (js "ull"). repeat split; discriminate.
  - exists 116, (js "rue"). repeat split; discriminate.
  - exists 102, (js "alse"). repeat split; discriminate.
  - cbn [stringify]. destruct (print_Z_cases m) as (u & Hc & [[-> _]|(-> & _)]).
    + destruct (canonical_head u Hc) as (c & t & -> & Hd).
      eexists c, _. split; [rewrite <- app_comm_cons; reflexivity|].
      apply digit_opens_value, Hd.
    + eexists 45, _. split; [rewrite <- app_comm_cons; reflexivity|].
      repeat split; discriminate.
  - eexists 34, _. split; [reflexivity|]. repeat split; discriminate.
  - eexists 91, _. split; [reflexivity|]. repeat split; discriminate.
  - eexists 123, _. split; [reflexivity|]. repeat split; discriminate.
Qed.

Lemma skip_ws_stringify (v : JSValue) (rest : jsstring) :
  skip_ws (stringify v ++ rest) = stringify v ++ rest.
Proof.
  destruct (stringify_head v) as (c & s & -> & Hws & _).
  rewrite <- app_comm_cons. apply skip_ws_head, Hws.
Qed.

Lemma quoted_app (s rest : jsstring) :
  quoted s ++ rest = 34 :: flat_map escape s ++ 34 :: rest.
Proof. unfold quoted. rewrite <- app_comm_cons, <- app_assoc. reflexivity. Qed.

Lemma parse_value_array (fuel : nat) (s : jsstring) :
  parse_value (S fuel) (91 :: s) =
    match skip_ws s with
    | d :: s2 =>
        if d =? 93 then Some (JArr [], s2)
        else '(l, rest) ← parse_elements fuel (d :: s2); Some (JArr l, rest)
    | [] => None
    end.
Proof. reflexivity. Qed.

Lemma parse_value_object (fuel : nat) (s : jsstring) :
  parse_value (S fuel) (123 :: s) =
    match skip_ws s with
    | d :: s2 =>
        if d =? 125 then Some (JObj [], s2)
        else '(ms, rest) ← parse_members fuel (d :: s2); Some (JObj ms, rest)
    | [] => None
    end.
Proof. reflexivity. Qed.

Lemma parse_value_string (fuel : nat) (s : jsstring) :
  parse_value (S fuel) (34 :: s) = '(str, rest) ← parse_chars s; Some (JStr str, rest).
Proof. reflexivity. Qed.

Lemma parse_value_number (fuel : nat) (c : N) (s : jsstring) :
  c = 45 \/ is_digit c = true ->
  parse_value (S fuel) (c :: s) = parse_number (c :: s).
Proof.
  intros Hc.
  assert (H : c <> 110 /\ c <> 116 /\ c <> 102 /\ c <> 34 /\ c <> 91 /\ c <> 123).
  { destruct Hc as [->|Hd]; [repeat split; discriminate|].
    unfold is_digit in Hd. apply andb_true_iff in Hd as [Hlo Hhi].
    apply N.leb_le in Hlo, Hhi. repeat split; lia. }
  destruct H as (H1 & H2 & H3 & H4 & H5 & H6).
  apply N.eqb_neq in H1, H2, H3, H4, H5, H6.
  cbn [parse_value]. rewrite H1, H2, H3, H4, H5, H6. reflexivity.
Qed.

Lemma parse_elements_unfold (fuel : nat) (s : jsstring) :
  parse_elements (S fuel) s =
    '(v, s1) ← parse_value fuel s;
    match skip_ws s1 with
    | c :: s2 =>
        if c =? 44 then
          '(vs, rest) ← parse_elements fuel (skip_ws s2); Some (v :: vs, rest)
        else if c =? 93 then Some ([v], s2)
        else None
    | [] => None
    end.
Proof. reflexivity. Qed.

Lemma parse_members_unfold (fuel : nat) (s0 : jsstring) :
  parse_members (S fuel) (34 :: s0) =
    '(k, s1) ← parse_chars s0;
    match skip_ws s1 with
    | colon :: s2 =>
        if colon =? 58 then
          '(v, s3) ← parse_value fuel (skip_ws s2);
          match skip_ws s3 with
          | c :: s4 =>
              if c =? 44 then
                '(ms, rest) ← parse_members fuel (skip_ws s4);
                Some ((k, v) :: ms, rest)
              else if c =? 125 then Some ([(k, v)], s4)
              else None
          | [] => None
          end
        else None
    | [] => None
    end.
Proof. reflexivity. Qed.

Lemma obind_Some {A B} (a : A) (f : A -> option B) : (Some a ≫= f) = f a.
Proof. reflexivity. Qed.

Lemma separated_cons (p : jsstring) (ps : list jsstring) :
  ps <> [] -> separated (p :: ps) = p ++ 44 :: separated ps.
Proof. destruct ps; [contradiction | reflexivity]. Qed.

Lemma parse_elements_stringify (l : list JSValue) :
  Forall reads_back l -> l <> [] ->
  forall fuel rest,
    (list_sum (List.map (fun x => S (weight x)) l) <= fuel)%nat ->
    parse_elements fuel (separated (List.map stringify l) ++ 93 :: rest) = Some (l, rest).
Proof.
  induction 1 as [|x l Hx Hl IH]; [contradiction|]. intros _ fuel rest Hfuel.
  simpl in Hfuel.
  destruct fuel as [|fuel]; [lia|]. rewrite parse_elements_unfold.
  destruct l as [|y l].
  - cbn [List.map separated].
    rewrite (Hx fuel (93 :: rest)) by (reflexivity || lia).
    reflexivity.
  - cbn [List.map]. rewrite separated_cons by discriminate.
    rewrite <- app_assoc, <- app_comm_cons.
    rewrite (Hx fuel) by (reflexivity || lia). rewrite obind_Some. cbv beta iota.
    rewrite skip_ws_head by reflexivity. change (44 =? 44) with true. cbv iota.
    assert (Hskip : skip_ws (separated (stringify y :: List.map stringify l) ++ 93 :: rest)
                    = separated (stringify y :: List.map stringify l) ++ 93 :: rest).
    { destruct l as [|z l].
      - cbn [List.map separated]. apply skip_ws_stringify.
      - cbn [List.map]. rewrite separated_cons by discriminate.
        rewrite <- app_assoc. apply skip_ws_stringify. }
    rewrite Hskip.
    change (stringify y :: List.map stringify l) with (List.map stringify (y :: l)).
    rewrite (IH ltac:(discriminate) fuel rest) by lia. reflexivity.
Qed.

Lemma parse_member (fuel : nat) (k : jsstring) (v : JSValue) (rest : jsstring) :
  reads_back v -> (weight v <= fuel)%nat -> delimited rest = true ->
  parse_members (S fuel) (member_text (k, v) ++ rest) =
    match rest with
    | c :: s4 =>
        if c =? 44 then
          '(ms, rest') ← parse_members fuel (skip_ws s4); Some ((k, v) :: ms, rest')
        else if c =? 125 then Some ([(k, v)], s4)
        else None
    | [] => None
    end.
Proof.
  intros Hv Hfuel Hrest. unfold member_text, quoted. cbn [fst snd].
  rewrite <- !app_comm_cons, <- !app_assoc, <- !app_comm_cons.
  rewrite parse_members_unfold, parse_chars_quoted, obind_Some. cbv beta iota.
  rewrite app_nil_l, skip_ws_head by reflexivity. change (58 =? 58) with true. cbv iota.
  rewrite skip_ws_stringify, (Hv fuel rest Hfuel Hrest), obind_Some. cbv beta iota.
  destruct (delimited_cases rest Hrest) as [->|(r & [->|[->| ->]])]; reflexivity.
Qed.

Lemma parse_members_stringify (ms : list (jsstring * JSValue)) :
  Forall (fun kv => reads_back (snd kv)) ms -> ms <> [] ->
  forall fuel rest,
    (list_sum (List.map (fun kv => S (weight (snd kv))) ms) <= fuel)%nat ->
    parse_members fuel (separated (List.map member_text ms) ++ 125 :: rest)
    = Some (ms, rest).
Proof.
  induction 1 as [|[k v] ms Hv Hms IH]; [contradiction|]. intros _ fuel rest Hfuel.
  simpl in Hfuel. cbn [snd] in Hv.
  destruct fuel as [|fuel]; [lia|].
  destruct ms as [|kv ms].
  - cbn [List.map separated].
    rewrite (parse_member fuel k v (125 :: rest) Hv)
      by (reflexivity || lia).
    reflexivity.
  - cbn [List.map]. rewrite separated_cons by discriminate.
    rewrite <- app_assoc, <- app_comm_cons.
    rewrite (parse_member fuel k v _ Hv) by (reflexivity || lia).
    change (44 =? 44) with true. cbv iota.
    assert (Hskip : skip_ws (separated (member_text kv :: List.map member_text ms)
                             ++ 125 :: rest)
                    = separated (member_text kv :: List.map member_text ms) ++ 125 :: rest).
    { assert (Hm : forall t, skip_ws (member_text kv ++ t) = member_text kv ++ t)
        by (intros t; unfold member_text, quoted; rewrite <- !app_comm_cons;
            apply skip_ws_head; reflexivity).
      destruct ms as [|kv' ms].
      - cbn [List.map separated]. apply Hm.
      - cbn [List.map]. rewrite separated_cons by discriminate.
        rewrite <- app_assoc. apply Hm. }
    rewrite Hskip.
    change (member_text kv :: List.map member_text ms)
      with (List.map member_text (kv :: ms)).
    rewrite (IH ltac:(discriminate) fuel rest) by lia. reflexivity.
Qed.

Lemma parse_value_stringify (v : JSValue) : reads_back v.
Proof.
  induction v as [|b|m e|str|l IH|ms IH] using JSValue_ind;
    intros fuel rest Hfuel Hrest;
    cbn [weight] in Hfuel; (destruct fuel as [|fuel]; [lia|]).
  - reflexivity.
  - destruct b; reflexivity.
  - cbn [stringify]. rewrite <- app_assoc, <- (parse_number_print m e rest Hrest).
    destruct (print_Z_cases m) as (u & Hc & [[-> _]|(-> & _)]).
    + destruct (canonical_head u Hc) as (c & t & -> & Hd).
      rewrite <- app_comm_cons. apply parse_value_number. right. exact Hd.
    + rewrite <- app_comm_cons. apply parse_value_number. left. reflexivity.
  - cbn [stringify]. rewrite quoted_app, parse_value_string, parse_chars_quoted.
    reflexivity.
  - cbn [stringify]. rewrite <- app_comm_cons, <- app_assoc.
    change ([93] ++ rest) with (93 :: rest).
    rewrite parse_value_array. destruct l as [|x l].
    + reflexivity.
    + assert (Hskip : skip_ws (separated (List.map stringify (x :: l)) ++ 93 :: rest)
                      = separated (List.map stringify (x :: l)) ++ 93 :: rest).
      { destruct l as [|z l].
        - cbn [List.map separated]. apply skip_ws_stringify.
        - cbn [List.map]. rewrite separated_cons by discriminate.
          rewrite <- app_assoc. apply skip_ws_stringify. }
      rewrite Hskip.
      assert (Hopen : exists d s2,
                 separated (List.map stringify (x :: l)) ++ 93 :: rest = d :: s2
                 /\ d <> 93).
      { destruct (stringify_head x) as (c & s & Hs & _ & Hc & _).
        exists c. cbn [List.map]. destruct l as [|z l].
        - cbn [separated]. rewrite Hs. eexists. split; [reflexivity | exact Hc].
        - rewrite separated_cons by discriminate. rewrite Hs.
          eexists. split; [reflexivity | exact Hc]. }
      destruct Hopen as (d & s2 & Heq & Hd).
      pose proof (parse_elements_stringify (x :: l) IH ltac:(discriminate) fuel rest
                    ltac:(lia)) as Hp.
      rewrite Heq in *. apply N.eqb_neq in Hd. rewrite Hd, Hp. reflexivity.
  - cbn [stringify]. rewrite <- app_comm_cons, <- app_assoc.
    change ([125] ++ rest) with (125 :: rest).
    rewrite parse_value_object.
    change (fun kv => quoted (fst kv) ++ 58 :: stringify (snd kv)) with member_text.
    destruct ms as [|kv ms].
    + reflexivity.
    + assert (Hopen : exists s2,
                 separated (List.map member_text (kv :: ms)) ++ 125 :: rest = 34 :: s2).
      { cbn [List.map]. destruct ms as [|kv' ms].
        - cbn [separated]. eexists. reflexivity.
        - rewrite separated_cons by discriminate. eexists. reflexivity. }
      destruct Hopen as (s2 & Heq).
      pose proof (parse_members_stringify (kv :: ms) IH ltac:(discriminate) fuel rest
                    ltac:(lia)) as Hp.
      rewrite Heq in *. rewrite skip_ws_head by reflexivity.
      change (34 =? 125) with false. cbv iota. rewrite Hp. reflexivity.
Qed.

Lemma separated_weight {A} (w : A -> nat) (f : A -> jsstring) (l : list A) :
  Forall (fun x => (w x <= length (f x))%nat) l ->
  (list_sum (List.map (fun x => S (w x)) l) <= S (length (separated (List.map f l))))%nat.
Proof.
  induction 1 as [|x l Hx Hl IH]; [cbn; lia|].
  destruct l as [|y l].
  - cbn. lia.
  - cbn [List.map]. rewrite separated_cons by discriminate.
    cbn [List.map] in IH. rewrite length_app. cbn [length].
    unfold list_sum in *. cbn [fold_right] in *. lia.
Qed.

Lemma weight_le_length (v : JSValue) : (weight v <= length (stringify v))%nat.
Proof.
  induction v as [|b|m e|str|l IH|ms IH] using JSValue_ind.
  - vm_compute. lia.
  - destruct b; vm_compute; lia.
  - destruct (stringify_head (JNum m e)) as (c & s & -> & _). cbn [weight length]. lia.
  - cbn [weight stringify]. unfold quoted. cbn [length]. lia.
  - cbn [weight stringify length]. rewrite length_app. cbn [length].
    pose proof (separated_weight weight stringify l IH). lia.
  - cbn [weight stringify length]. rewrite length_app. cbn [length].
    change (fun kv => quoted (fst kv) ++ 58 :: stringify (snd kv)) with member_text.
    assert (Hm : Forall (fun kv => (weight (snd kv) <= length (member_text kv))%nat) ms).
    { eapply Forall_impl; [exact IH|]. intros [k v] Hv. cbn [snd] in *.
      unfold member_text. rewrite length_app. cbn [length snd]. lia. }
    pose proof (separated_weight (fun kv => weight (snd kv)) member_text ms Hm). lia.
Qed.

(** [JSON.parse(JSON.stringify(v))] is [v], for the reference codec. *)
Lemma parse_stringify (v : JSValue) : parse (stringify v) = Return v.
Proof.
  unfold parse.
  pose proof (skip_ws_stringify v []) as Hs. rewrite app_nil_r in Hs. rewrite Hs.
  pose proof (parse_value_stringify v (S (length (stringify v))) []) as Hp.
  rewrite app_nil_r in Hp. rewrite Hp; [reflexivity | | reflexivity].
  pose proof (weight_le_length v). lia.
Qed.

Lemma stringify_not_empty (v : JSValue) : stringify v <> [].
Proof. destruct (stringify_head v) as (c & s & -> & _). discriminate. Qed.

End CodecFacts.

(* ================================================================== *)
(** * Runs on concrete inputs *)
(* ================================================================== *)

Section Runs.

Lemma parse_not_json : JSON.parse (js "{not json") = Throw JSON.SyntaxError.
Proof. vm_compute. reflexivity. Qed.

Lemma parse_serialized_ref (os : list PrimaryOutfit) :
  JSON.parse (serialize JSON.stringify os)
  = Return (JArr (List.map PrimaryOutfit_to_js os)).
Proof. apply parse_stringify. Qed.

Lemma getOutfitRecommendation_not_json_witness :
  getOutfitRecommendation JSON.parse (answering (js "{not json"))
    (js "Tech Job Interview") (js "Female") (Some [])
  = (Throw (mkError MSG_UNABLE), [mkLog (js "Gemini API Error:") JSON.SyntaxError]).
Proof.
  apply (proj1 (getOutfitRecommendation_failure_normalized JSON.parse
                  (answering (js "{not json")) (js "Tech Job Interview") (js "Female")
                  (Some [])) JSON.SyntaxError).
  apply (text_unparseable _ _ _ _ _ (js "{not json"));
    [reflexivity | discriminate | exact parse_not_json].
Defined.

(** C4, as stated, fails on a payload that is JSON and not a response:
    the call returns the object, which has no [top], no suggestions and
    no notes. *)
Lemma getOutfitRecommendation_returns_partial_payload :
  JSON.parse (JSON.stringify partial_payload) = Return partial_payload
  /\ as_StylistResponse partial_payload = None
  /\ getOutfitRecommendation JSON.parse (answering (JSON.stringify partial_payload))
       (js "Tech Job Interview") (js "Female") (Some [])
     = (Return partial_payload, []).
Proof. split; [|split]; vm_compute; reflexivity. Qed.

Lemma getOutfitRecommendation_returns_parsed_witness :
  fst (getOutfitRecommendation JSON.parse
         (answering (JSON.stringify (StylistResponse_to_js full_response)))
         (js "Tech Job Interview") (js "Female") (Some []))
  = Return (StylistResponse_to_js full_response).
Proof.
  apply (getOutfitRecommendation_returns_parsed_text JSON.parse).
  exists (JSON.stringify (StylistResponse_to_js full_response)).
  split; [reflexivity|]. split; [apply stringify_not_empty | apply parse_stringify].
Defined.

(** C5, as stated, fails on a payload the schema admits: the call
    returns a response with two suggestions and an empty title. *)
Lemma getOutfitRecommendation_returns_short_response :
  admits the_responseSchema (StylistResponse_to_js short_response) = true
  /\ getOutfitRecommendation JSON.parse
       (answering (JSON.stringify (StylistResponse_to_js short_response)))
       (js "Tech Job Interview") (js "Female") (Some [])
     = (Return (StylistResponse_to_js short_response), [])
  /\ as_StylistResponse (StylistResponse_to_js short_response) = Some short_response
  /\ length (additional_suggestions short_response) = 2%nat
  /\ title (primary_outfit short_response) = [].
Proof. repeat split; vm_compute; reflexivity. Qed.

Lemma getOutfitRecommendation_returns_payload_witness :
  getOutfitRecommendation JSON.parse stylist
    (js "Tech Job Interview") (js "Female") (Some [])
  = (Return (StylistResponse_to_js full_response), [])
  /\ (exists v',
        fst (getOutfitRecommendation JSON.parse stylist
               (js "Tech Job Interview") (js "Female") (Some [])) = Return v'
        /\ as_StylistResponse v' = Some full_response)
  /\ admits (responseSchema (config (request (js "Tech Job Interview") (js "Female")
                                       (Some []))))
       (StylistResponse_to_js full_response) = true.
Proof.
  destruct (getOutfitRecommendation_returns_payload_unchecked JSON.parse stylist
              (js "Tech Job Interview") (js "Female") (Some []))
    as (_ & Hsent & _ & Hadm & _).
  destruct (Hsent (JSON.stringify (StylistResponse_to_js full_response))
              (StylistResponse_to_js full_response) eq_refl
              (stringify_not_empty _) (parse_stringify _)) as [Hcall Hread].
  split; [exact Hcall|]. split.
  - apply Hread, as_StylistResponse_to_js.
  - apply Hadm.
Defined.

Lemma handleSubmit_without_gender_witness :
  snd (handleSubmit (setOccasion (js "Gallery Opening") initial_App)) = None
  /\ outcome (fst (handleSubmit (setOccasion (js "Gallery Opening") initial_App)))
     = outcome (setOccasion (js "Gallery Opening") initial_App)
  /\ forall p, app p = setOccasion (js "Gallery Opening") initial_App ->
               pending (fire JSON.parse Submit p) = pending p.
Proof.
  apply (handleSubmit_without_gender_issues_no_call JSON.parse
           (setOccasion (js "Gallery Opening") initial_App)).
  reflexivity.
Defined.

Lemma failed_visit_reachable : reachable JSON.parse failed_visit.
Proof.
  unfold failed_visit.
  repeat (apply reachable_fire; [|vm_compute; reflexivity]).
  apply reachable_initial.
Qed.

Lemma error_and_result_never_both_witness :
  error (app failed_visit) = Some MSG_UNABLE
  /\ error_shown (app failed_visit) && result_shown (app failed_visit) = false.
Proof.
  split; [vm_compute; reflexivity|].
  apply (error_and_result_never_both_shown JSON.parse failed_visit failed_visit_reachable).
Defined.

(** C3, as stated, fails on the item [{not json]: the check leaves
    [isSaved] at [false], and the [toggleSave] that follows saves
    nothing: the item is still the corrupted text, no collection can be
    read, and [isSaved] is still [false]. *)
Lemma toggleSave_on_corrupted_item_saves_nothing :
  isSaved (mount JSON.parse gallery_chic corrupted_storage []) = false
  /\ localStorage
       (toggleSave JSON.parse JSON.stringify no_quota
          (mount JSON.parse gallery_chic corrupted_storage []))
     !! SAVED_OUTFITS_KEY = Some (js "{not json")
  /\ load JSON.parse
       (localStorage
          (toggleSave JSON.parse JSON.stringify no_quota
             (mount JSON.parse gallery_chic corrupted_storage [])))
     = None
  /\ isSaved
       (toggleSave JSON.parse JSON.stringify no_quota
          (mount JSON.parse gallery_chic corrupted_storage []))
     = false.
Proof. repeat split; vm_compute; reflexivity. Qed.

Lemma corrupted_item_witness :
  isSaved (mount JSON.parse gallery_chic corrupted_storage []) = false
  /\ localStorage (mount JSON.parse gallery_chic corrupted_storage []) = corrupted_storage
  /\ isSaved (toggleSave JSON.parse JSON.stringify no_quota
                (mount JSON.parse gallery_chic corrupted_storage [])) = false
  /\ localStorage (toggleSave JSON.parse JSON.stringify no_quota
                     (mount JSON.parse gallery_chic corrupted_storage []))
     = corrupted_storage
  /\ load JSON.parse
       (localStorage (toggleSave JSON.parse JSON.stringify no_quota
                        (mount JSON.parse gallery_chic corrupted_storage []))) = None
  /\ errors_logged (toggleSave JSON.parse JSON.stringify no_quota
                      (mount JSON.parse gallery_chic corrupted_storage []))
     = [ mkLog (js "Failed to read from local storage") JSON.SyntaxError;
         mkLog (js "Failed to save to local storage") JSON.SyntaxError ].
Proof.
  apply (corrupted_item_check_false_toggle_noop JSON.parse JSON.stringify no_quota
           gallery_chic corrupted_storage (js "{not json") JSON.SyntaxError).
  - apply lookup_singleton_eq.
  - discriminate.
  - exact parse_not_json.
Defined.

(** C6, as stated, fails on a storage that refuses the write: from the
    empty collection, which has no record titled as [gallery_chic],
    [toggleSave] logs the refusal and saves nothing; [isSaved] is still
    [false], a fresh check agrees and the collection is still empty. *)
Lemma toggleSave_refused_write_stays_unsaved :
  load JSON.parse ∅ = Some []
  /\ isSaved (mount JSON.parse gallery_chic ∅ []) = false
  /\ isSaved (toggleSave JSON.parse JSON.stringify full_quota
                (mount JSON.parse gallery_chic ∅ [])) = false
  /\ saved_in JSON.parse gallery_chic
       (localStorage (toggleSave JSON.parse JSON.stringify full_quota
                        (mount JSON.parse gallery_chic ∅ []))) = false
  /\ load JSON.parse
       (localStorage (toggleSave JSON.parse JSON.stringify full_quota
                        (mount JSON.parse gallery_chic ∅ []))) = Some []
  /\ errors_logged (toggleSave JSON.parse JSON.stringify full_quota
                      (mount JSON.parse gallery_chic ∅ []))
     = [mkLog (js "Failed to save to local storage")
          (mkError (js "The quota has been exceeded."))].
Proof. repeat split; vm_compute; reflexivity. Qed.

Lemma save_then_unsave_witness :
  let d0 := mount JSON.parse gallery_chic ∅ [] in
  let d1 := toggleSave JSON.parse JSON.stringify no_quota d0 in
  let d2 := toggleSave JSON.parse JSON.stringify no_quota d1 in
  isSaved d0 = false
  /\ (isSaved d1 = true
      /\ saved_in JSON.parse gallery_chic (localStorage d1) = true
      /\ load JSON.parse (localStorage d1) = Some [gallery_chic])
  /\ (isSaved d2 = false
      /\ saved_in JSON.parse gallery_chic (localStorage d2) = false
      /\ load JSON.parse (localStorage d2) = Some [])
  /\ Forall (fun o => title o <> title gallery_chic) [].
Proof.
  pose proof (save_then_unsave_round_trip JSON.parse JSON.stringify no_quota
                parse_serialized_ref stringify_not_empty gallery_chic ∅ []) as H.
  cbv zeta in *.
  destruct H as (H0 & Hsave & _).
  - left. split; [apply lookup_empty | reflexivity].
  - apply not_elem_of_nil.
  - destruct (Hsave eq_refl) as (H1 & Hunsave).
    destruct (Hunsave eq_refl) as (H2 & H3 & H4 & H5).
    repeat split; assumption.
Defined.

Lemma toggleSave_keeps_titles_distinct_witness :
  exists os,
    load JSON.parse
      (localStorage
         (toggleSave JSON.parse JSON.stringify no_quota
            (toggleSave JSON.parse JSON.stringify no_quota
               (mount JSON.parse gallery_chic ∅ []))))
    = Some os
    /\ NoDup (List.map title os).
Proof.
  apply (toggleSave_keeps_titles_distinct JSON.parse JSON.stringify no_quota
           parse_serialized_ref stringify_not_empty ∅ []).
  - left. split; [apply lookup_empty | reflexivity].
  - apply NoDup_nil_2.
  - apply display_toggled, display_mounted.
Defined.

End Runs.

(* ================================================================== *)
(** * Further properties of the form *)
(* ================================================================== *)

Section FormFacts.

Variable JSON_parse : jsstring -> Completion JSValue.

Local Open Scope nat_scope.

Lemma skip_while_nil_iff (p : N -> bool) (s : jsstring) :
  skip_while p s = [] <-> forallb p s = true.
Proof.
  split; [|apply skip_while_all].
  induction s as [|c s IH]; [reflexivity|]. cbn [skip_while forallb].
  destruct (p c); [exact IH | discriminate].
Qed.

Lemma skip_while_head (p : N -> bool) (s : jsstring) :
  match skip_while p s with
  | [] => True
  | c :: _ => p c = false
  end.
Proof.
  induction s as [|c s IH]; [exact I|]. cbn [skip_while].
  destruct (p c) eqn:E; [exact IH | exact E].
Qed.

Lemma trim_nil_iff (s : jsstring) :
  trim s = [] <-> forallb isWhiteSpace s = true.
Proof.
  split; [|apply trim_whitespace_only].
  unfold trim, trimEnd, trimStart. intros H.
  apply (f_equal (@rev N)) in H. rewrite rev_involutive in H. cbn [rev] in H.
  apply skip_while_nil_iff in H. rewrite forallb_forall in H.
  apply skip_while_nil_iff.
  pose proof (skip_while_head isWhiteSpace s) as Hh.
  destruct (skip_while isWhiteSpace s) as [|c r]; [reflexivity|].
  rewrite (H c) in Hh; [discriminate|]. apply in_rev. rewrite rev_involutive. left.
  reflexivity.
Qed.

(** X1.  On [gender], [validate] reports "Please select a style focus."
    exactly for the values made of white space only, the empty one
    included, and no message for any other value; the message lands in
    the [gender] slot and the other slots are left as they were. *)
Theorem validate_gender_whitespace_only (v : jsstring) (errs : PerField jsstring) :
  (forallb isWhiteSpace v = true ->
     fst (validate gender_field v errs) = MSG_GENDER_REQUIRED)
  /\ (forallb isWhiteSpace v = false -> fst (validate gender_field v errs) = [])
  /\ MSG_GENDER_REQUIRED <> []
  /\ snd (validate gender_field v errs)
     = mkPerField (of_occasion errs) (fst (validate gender_field v errs))
         (of_preferences errs).
Proof.
  assert (Hm : fst (validate gender_field v errs)
               = if str_falsy (trim v) then MSG_GENDER_REQUIRED else []) by reflexivity.
  rewrite Hm. split; [|split; [|split]].
  - intros Hws. rewrite (trim_whitespace_only v Hws). reflexivity.
  - intros Hws. destruct (trim v) eqn:E; [|reflexivity].
    apply trim_nil_iff in E. congruence.
  - discriminate.
  - reflexivity.
Qed.

Lemma validate_message_occasion_nonblank (v : jsstring) :
  validate_message occasion_field v = [] -> str_falsy (trim v) = false.
Proof.
  rewrite validate_occasion_unfold. destruct (str_falsy (trim v)); [|reflexivity].
  intros H. apply (f_equal length) in H. vm_compute in H. discriminate.
Qed.

Lemma validate_message_gender_nonempty (v : jsstring) :
  validate_message gender_field v = [] -> str_falsy v = false.
Proof.
  destruct v as [|c v]; [|reflexivity]. intros H. vm_compute in H. discriminate.
Qed.

Lemma handleSubmit_eq (st : AppState) :
  handleSubmit st =
    if str_falsy (validate_message occasion_field (occasion st))
       && str_falsy (validate_message gender_field (gender st))
       && str_falsy (validate_message preferences_field (preferences st))
    then (setResult JNull (setError None (setLoading true (submitted_form st))),
          Some (occasion st, gender st, Some (preferences st)))
    else (submitted_form st, None).
Proof.
  unfold handleSubmit. rewrite (App_validate_eq occasion_field). cbv beta iota.
  rewrite (App_validate_eq gender_field). cbv beta iota.
  rewrite (App_validate_eq preferences_field). cbv beta iota.
  cbn [gender occasion preferences setValidationErrors validationErrors].
  destruct (str_falsy (validate_message occasion_field (occasion st))) eqn:Eo;
    cbn [negb orb andb]; [|reflexivity].
  destruct (str_falsy (validate_message gender_field (gender st))) eqn:Eg;
    cbn [negb orb andb]; [|reflexivity].
  destruct (str_falsy (validate_message preferences_field (preferences st))) eqn:Ep;
    cbn [negb orb andb]; [|reflexivity].
  assert (Ho : validate_message occasion_field (occasion st) = [])
    by (destruct (validate_message occasion_field (occasion st)); [reflexivity | discriminate]).
  assert (Hg : validate_message gender_field (gender st) = [])
    by (destruct (validate_message gender_field (gender st)); [reflexivity | discriminate]).
  rewrite (validate_message_occasion_nonblank _ Ho),
          (validate_message_gender_nonempty _ Hg).
  reflexivity.
Qed.

Lemma form_valid_iff (st : AppState) :
  form_valid st <->
  str_falsy (validate_message occasion_field (occasion st))
  && str_falsy (validate_message gender_field (gender st))
  && str_falsy (validate_message preferences_field (preferences st)) = true.
Proof.
  unfold form_valid. split.
  - intros H. pose proof (H occasion_field) as Ho. pose proof (H gender_field) as Hg.
    pose proof (H preferences_field) as Hp. rewrite validate_fst in Ho, Hg, Hp.
    cbn [field_value] in Ho, Hg, Hp. rewrite Ho, Hg, Hp. reflexivity.
  - intros H. apply andb_true_iff in H as [H Hp]. apply andb_true_iff in H as [Ho Hg].
    intros f. rewrite validate_fst.
    destruct f; cbn [field_value];
      match goal with
      | E : str_falsy ?m = true |- ?m = [] => destruct m; [reflexivity | discriminate]
      end.
Qed.

Lemma handleSubmit_calls_iff_valid_aux (st : AppState) :
  (form_valid st ->
     snd (handleSubmit st) = Some (occasion st, gender st, Some (preferences st)))
  /\ (~ form_valid st -> snd (handleSubmit st) = None).
Proof.
  rewrite handleSubmit_eq. pose proof (form_valid_iff st) as Hv.
  destruct (_ && _ && _).
  - split; [reflexivity|]. intros Hn. destruct Hn. apply Hv. reflexivity.
  - split; [|reflexivity]. intros H. apply Hv in H. discriminate.
Qed.

(** X2.  [handleSubmit] issues a call exactly when the three messages
    are empty for the current values; the call carries the values as
    typed (not trimmed), with [loading] on and [error] and [result]
    cleared.  Otherwise it issues none and leaves the three cells alone.
    Either way all fields end up touched and the three messages are
    stored; the second guard of the source never stops a submission the
    first one let through. *)
Theorem handleSubmit_calls_iff_valid (st : AppState) :
  (form_valid st ->
     snd (handleSubmit st) = Some (occasion st, gender st, Some (preferences st))
     /\ outcome (fst (handleSubmit st)) = (JNull, None, true))
  /\ (~ form_valid st ->
      snd (handleSubmit st) = None
      /\ outcome (fst (handleSubmit st)) = outcome st)
  /\ touched (fst (handleSubmit st)) = mkPerField true true true
  /\ validationErrors (fst (handleSubmit st))
     = mkPerField (fst (validate occasion_field (occasion st) (validationErrors st)))
                  (fst (validate gender_field (gender st) (validationErrors st)))
                  (fst (validate preferences_field (preferences st) (validationErrors st))).
Proof.
  rewrite handleSubmit_eq, !validate_fst. pose proof (form_valid_iff st) as Hv.
  destruct (_ && _ && _).
  - split; [intros _; split; reflexivity|]. split; [|split; reflexivity].
    intros Hn. destruct Hn. apply Hv. reflexivity.
  - split; [|split; [intros _; split; reflexivity | split; reflexivity]].
    intros H. apply Hv in H. discriminate.
Qed.

(** ** The messages follow the fields *)

Lemma revalidate_effect_eq (f : Field) (before after st : AppState) :
  revalidate_effect f before after st =
    if bool_decide (field_value f before = field_value f after
                    /\ get_field f (touched before) = get_field f (touched after))
    then st
    else if get_field f (touched after)
         then setValidationErrors
                (fun _ => set_field f (validate_message f (field_value f after))
                            (validationErrors st)) st
         else st.
Proof. unfold revalidate_effect. rewrite App_validate_eq. reflexivity. Qed.

Lemma revalidate_effect_keeps (f : Field) (before after st : AppState) :
  touched (revalidate_effect f before after st) = touched st
  /\ (forall g, field_value g (revalidate_effect f before after st) = field_value g st)
  /\ (forall g, g <> f ->
        get_field g (validationErrors (revalidate_effect f before after st))
        = get_field g (validationErrors st)).
Proof.
  rewrite revalidate_effect_eq. case_bool_decide; [auto|].
  destruct (get_field f (touched after)); [|auto].
  split; [reflexivity|]. split; [intros []; reflexivity|].
  intros g Hg. destruct g, f; try reflexivity; contradiction.
Qed.

Lemma revalidate_effect_own (f : Field) (before after st : AppState) :
  get_field f (validationErrors (revalidate_effect f before after st)) =
    if bool_decide (field_value f before = field_value f after
                    /\ get_field f (touched before) = get_field f (touched after))
    then get_field f (validationErrors st)
    else if get_field f (touched after)
         then validate_message f (field_value f after)
         else get_field f (validationErrors st).
Proof.
  rewrite revalidate_effect_eq. case_bool_decide; [reflexivity|].
  destruct (get_field f (touched after)); [|reflexivity].
  destruct f; reflexivity.
Qed.

Lemma effects_keeps (before after : AppState) :
  touched (effects before after) = touched after
  /\ (forall g, field_value g (effects before after) = field_value g after).
Proof.
  unfold effects.
  destruct (revalidate_effect_keeps preferences_field before after
              (revalidate_effect gender_field before after
                 (revalidate_effect occasion_field before after after))) as (T3 & V3 & _).
  destruct (revalidate_effect_keeps gender_field before after
              (revalidate_effect occasion_field before after after)) as (T2 & V2 & _).
  destruct (revalidate_effect_keeps occasion_field before after after) as (T1 & V1 & _).
  split; [congruence|]. intros g. rewrite V3, V2, V1. reflexivity.
Qed.

Lemma effects_message (before after : AppState) (f : Field) :
  get_field f (validationErrors (effects before after)) =
    if bool_decide (field_value f before = field_value f after
                    /\ get_field f (touched before) = get_field f (touched after))
    then get_field f (validationErrors after)
    else if get_field f (touched after)
         then validate_message f (field_value f after)
         else get_field f (validationErrors after).
Proof.
  unfold effects.
  set (s1 := revalidate_effect occasion_field before after after).
  set (s2 := revalidate_effect gender_field before after s1).
  destruct (revalidate_effect_keeps preferences_field before after s2) as (_ & _ & K3).
  destruct (revalidate_effect_keeps gender_field before after s1) as (_ & _ & K2).
  destruct f.
  - rewrite K3 by discriminate. fold s2. unfold s2. rewrite K2 by discriminate.
    apply revalidate_effect_own.
  - rewrite revalidate_effect_own. fold s2. unfold s2.
    rewrite !K2 by discriminate.
    destruct (revalidate_effect_keeps occasion_field before after after) as (_ & _ & K1).
    fold s1. unfold s1. rewrite !K1 by discriminate. reflexivity.
  - rewrite K3 by discriminate. fold s2. unfold s2. rewrite revalidate_effect_own.
    destruct (revalidate_effect_keeps occasion_field before after after) as (_ & _ & K1).
    fold s1. unfold s1. rewrite !K1 by discriminate. reflexivity.
Qed.

Lemma expected_message_eq (st : AppState) (f : Field) :
  expected_message st f =
    if get_field f (touched st) then validate_message f (field_value f st) else [].
Proof. reflexivity. Qed.

(** A handler keeps the messages in step when, for every field, it
    either stored the expected message itself or left the slot alone
    without untouching the field. *)
Lemma effects_in_step (before after : AppState) :
  messages_in_step before ->
  (forall f,
      get_field f (validationErrors after) = expected_message after f
      \/ (get_field f (validationErrors after) = get_field f (validationErrors before)
          /\ (get_field f (touched before) = true -> get_field f (touched after) = true))) ->
  messages_in_step (effects before after).
Proof.
  intros Hb Hafter f.
  destruct (effects_keeps before after) as (Ht & Hv).
  rewrite expected_message_eq, Ht, Hv, effects_message.
  specialize (Hafter f). specialize (Hb f).
  rewrite expected_message_eq in Hb, Hafter.
  case_bool_decide as Hsame.
  - destruct Hsame as [Hval Htou].
    destruct Hafter as [H|[H _]]; [exact H|].
    rewrite H, Hb, Hval, Htou. reflexivity.
  - destruct (get_field f (touched after)) eqn:Et; [reflexivity|].
    destruct Hafter as [H|[H Hmono]]; [exact H|].
    rewrite H, Hb. destruct (get_field f (touched before)); [|reflexivity].
    specialize (Hmono eq_refl). discriminate.
Qed.

Lemma fire_keeps_in_step (ev : Event) (p : Page) :
  messages_in_step (app p) -> enabled ev p = true ->
  messages_in_step (app (fire JSON_parse ev p)).
Proof.
  intros Hin Hen.
  destruct ev as [v|v|f|opt|t| | | |i ai]; cbn [fire].
  - cbn [app]. apply effects_in_step; [exact Hin|]. intros f. right. auto.
  - cbn [app]. apply effects_in_step; [exact Hin|]. intros f. right. auto.
  - cbn [app]. apply effects_in_step; [exact Hin|].
    cbn [enabled] in Hen. apply andb_true_iff in Hen as [_ Hf].
    unfold handleBlur. rewrite App_validate_eq. cbn [snd].
    intros g. destruct f; try discriminate; destruct g;
      (left; reflexivity) || (right; split; [reflexivity | auto]).
  - cbn [app]. apply effects_in_step; [exact Hin|].
    intros g. right. split; [reflexivity|]. destruct g; cbn; auto.
  - cbn [app]. apply effects_in_step; [exact Hin|].
    intros g. right. split; [reflexivity|]. destruct g; cbn; auto.
  - rewrite handleSubmit_eq.
    destruct (_ && _ && _); cbn [app]; (apply effects_in_step; [exact Hin|]);
      intros g; left; destruct g; reflexivity.
  - cbn [app]. apply effects_in_step; [exact Hin|].
    intros g. left. destruct g; reflexivity.
  - cbn [app]. apply effects_in_step; [exact Hin|]. intros f. right. auto.
  - destruct (pending p !! i) as [[[o g] pr]|]; [|exact Hin].
    destruct (getOutfitRecommendation JSON_parse ai o g pr) as [settled logged].
    cbn [app]. apply effects_in_step; [exact Hin|]. intros f. right.
    destruct settled; auto.
Qed.

Lemma reachable_in_step (p : Page) :
  reachable JSON_parse p -> messages_in_step (app p).
Proof.
  induction 1 as [|p ev _ IH Hen].
  - intros []; reflexivity.
  - apply fire_keeps_in_step; assumption.
Qed.

(** X3.  In every reachable state of the page each slot of
    [validationErrors] holds what [validate] gives for the current value
    of its field if the field is touched, and the empty message if it is
    not: the effects, [handleBlur], the two click handlers, [handleSubmit]
    and [handleReset] never leave a stale message. *)
Theorem reachable_messages_in_step (p : Page) :
  reachable JSON_parse p ->
  forall f,
    get_field f (validationErrors (app p)) =
      if get_field f (touched (app p))
      then fst (validate f (field_value f (app p)) (validationErrors (app p)))
      else [].
Proof.
  intros Hr. exact (reachable_in_step p Hr).
Qed.

(** ** The submit button *)

Lemma str_falsy_nil (m : jsstring) : str_falsy m = true -> m = [].
Proof. destruct m; [reflexivity | discriminate]. Qed.

Lemma isFormValid_messages (st : AppState) :
  isFormValid st = true ->
  forall f, get_field f (validationErrors st) = [].
Proof.
  unfold isFormValid. intros H.
  apply andb_true_iff in H as [H _]. apply andb_true_iff in H as [H _].
  apply andb_true_iff in H as [H Hp]. apply andb_true_iff in H as [Ho Hg].
  intros []; cbn [get_field]; apply str_falsy_nil; assumption.
Qed.

(** X4.  Once a field is touched the submit button tells the truth
    about it: in a reachable state where the button is enabled and every
    field is touched or valid, [handleSubmit] issues the call.  For
    untouched fields it does not: there is a reachable state (occasion
    [12345] typed and never left, a style focus chosen) where the button
    is enabled and [handleSubmit] issues no call. *)
Theorem enabled_submit_calls_when_touched :
  (forall p,
      reachable JSON_parse p -> enabled Submit p = true ->
      (forall f, get_field f (touched (app p)) = true
                 \/ fst (validate f (field_value f (app p)) (validationErrors (app p))) = []) ->
      snd (handleSubmit (app p))
      = Some (occasion (app p), gender (app p), Some (preferences (app p))))
  /\ (exists p,
        reachable JSON_parse p /\ enabled Submit p = true
        /\ snd (handleSubmit (app p)) = None).
Proof.
  split.
  - intros p Hr Hen Hf.
    apply (proj1 (handleSubmit_calls_iff_valid_aux (app p))).
    intros f. destruct (Hf f) as [Ht|Hv]; [|exact Hv].
    pose proof (reachable_in_step p Hr f) as Hs. unfold expected_message in Hs.
    rewrite Ht in Hs. rewrite <- Hs.
    cbn [enabled] in Hen. apply andb_true_iff in Hen as [_ Hen].
    apply (isFormValid_messages _ Hen).
  - exists (fire JSON_parse (SelectGender (js "Female"))
              (fire JSON_parse (ChangeOccasion (js "12345")) initial_Page)).
    split; [|split; vm_compute; reflexivity].
    repeat (apply reachable_fire; [|vm_compute; reflexivity]). apply reachable_initial.
Qed.

(** X5.  At most one call is ever pending: in every reachable state
    the list of pending calls has at most one element, [loading] is on
    exactly while it has one, and the submit button is disabled then. *)
Theorem at_most_one_call_pending (p : Page) :
  reachable JSON_parse p ->
  length (pending p) <= 1
  /\ (loading (app p) = true <-> pending p <> [])
  /\ (enabled Submit p = true -> pending p = []).
Proof.
  intros Hr.
  destruct (reachable_invariant JSON_parse p Hr) as [_ [[Hl Hp]|(Hl & [c Hp] & _)]];
    rewrite Hp; cbn [length]; (split; [lia|]); split.
  - rewrite Hl. split; [discriminate | congruence].
  - reflexivity.
  - rewrite Hl. split; [discriminate | reflexivity].
  - cbn [enabled]. rewrite Hl, andb_false_r. cbn [andb]. discriminate.
Qed.

(** ** What the error card can say *)

Lemma getOutfitRecommendation_error (ai : GenAI) (o g : jsstring) (pr : option jsstring)
    (e : JSError) :
  fst (getOutfitRecommendation JSON_parse ai o g pr) = Throw e -> e = mkError MSG_UNABLE.
Proof.
  destruct (getOutfitRecommendation_cases JSON_parse ai o g pr)
    as [(cause & _ & ->)|(t & v & _ & _ & _ & ->)]; cbn [fst]; congruence.
Qed.

Lemma settled_cells (ai : GenAI) (o g : jsstring) (pr : option jsstring) (st : AppState) :
  outcome (handleSubmit_resume (fst (getOutfitRecommendation JSON_parse ai o g pr)) st)
  = match fst (getOutfitRecommendation JSON_parse ai o g pr) with
    | Return data => (data, error st, false)
    | Throw _ => (result st, Some MSG_UNABLE, false)
    end.
Proof.
  destruct (fst (getOutfitRecommendation JSON_parse ai o g pr)) as [data|e] eqn:E;
    [reflexivity|].
  rewrite (getOutfitRecommendation_error ai o g pr e E). reflexivity.
Qed.

Lemma fire_error (ev : Event) (p : Page) :
  error (app (fire JSON_parse ev p)) = error (app p)
  \/ error (app (fire JSON_parse ev p)) = None
  \/ error (app (fire JSON_parse ev p)) = Some MSG_UNABLE.
Proof.
  destruct ev as [v|v|f|opt|t| | | |i ai]; cbn [fire].
  1-5: left; cbn [app];
       match goal with
       | |- error (rendered ?b ?a) = _ =>
           apply (outcome_fields b (rendered b a)), handler_outcome_preserved; reflexivity
       end.
  - rewrite handleSubmit_eq. destruct (_ && _ && _); cbn [app].
    + right. left.
      apply (outcome_fields (setResult JNull (setError None (setLoading true
                 (submitted_form (app p))))) (rendered _ _)), effects_outcome.
    + left. apply (outcome_fields (app p) (rendered _ _)), handler_outcome_preserved.
      reflexivity.
  - right. left. cbn [app].
    apply (outcome_fields (handleReset (app p)) (rendered _ _)), effects_outcome.
  - right. left. cbn [app].
    apply (outcome_fields (setError None (app p)) (rendered _ _)), effects_outcome.
  - destruct (pending p !! i) as [[[o g] pr]|]; [|left; reflexivity].
    pose proof (settled_cells ai o g pr (app p)) as Hc.
    destruct (getOutfitRecommendation JSON_parse ai o g pr) as [settled logged].
    cbn [fst] in Hc. cbn [app].
    pose proof (effects_outcome (app p) (handleSubmit_resume settled (app p))) as He.
    rewrite Hc in He. unfold rendered.
    destruct settled; unfold outcome in He; injection He as _ He _; rewrite He; auto.
Qed.

(** X6.  The error card only ever shows the fixed sentence of the
    client: in every reachable state [error] is [null] or "Unable to
    generate outfit recommendations at this time. Please try again.";
    the fallback "An unexpected error occurred." of [handleSubmit] is
    never stored. *)
Theorem error_is_the_fixed_sentence (p : Page) :
  reachable JSON_parse p ->
  (error (app p) = None \/ error (app p) = Some MSG_UNABLE)
  /\ error (app p) <> Some MSG_UNEXPECTED.
Proof.
  intros Hr.
  assert (H : error (app p) = None \/ error (app p) = Some MSG_UNABLE).
  { induction Hr as [|p ev _ IH _]; [left; reflexivity|].
    destruct (fire_error ev p) as [->|[->| ->]]; auto. }
  split; [exact H|].
  destruct H as [->| ->]; [discriminate|].
  intros [= E].
Qed.

(** ** A submission from start to end *)

Lemma fire_Settle_only (p : Page) (ai : GenAI) (o g : jsstring) (pr : option jsstring) :
  pending p = [(o, g, pr)] ->
  fire JSON_parse (Settle 0 ai) p =
    mkPage
      (rendered (app p)
         (handleSubmit_resume (fst (getOutfitRecommendation JSON_parse ai o g pr)) (app p)))
      []
      (console p ++ snd (getOutfitRecommendation JSON_parse ai o g pr)).
Proof.
  intros Hp. cbn [fire]. rewrite Hp. cbn [lookup list_lookup].
  destruct (getOutfitRecommendation JSON_parse ai o g pr). reflexivity.
Qed.

Lemma rendered_fields (before after : AppState) (f : Field) :
  field_value f (rendered before after) = field_value f after.
Proof. apply effects_keeps. Qed.

(** X7.  A valid submission followed by the answer of the service: the
    submit event leaves exactly one pending call, [loading] on and both
    cells clear; when the call settles nothing is pending, [loading] is
    off, and either [result] is the value the client returned and [error]
    is [null], or [error] is the fixed sentence and [result] is [null].
    The fields of the form are as they were. *)
Theorem submit_then_settle (p : Page) (ai : GenAI) :
  pending p = [] -> form_valid (app p) ->
  let call := (occasion (app p), gender (app p), Some (preferences (app p))) in
  let p1 := fire JSON_parse Submit p in
  let p2 := fire JSON_parse (Settle 0 ai) p1 in
  pending p1 = [call]
  /\ outcome (app p1) = (JNull, None, true)
  /\ pending p2 = []
  /\ outcome (app p2)
     = match fst (getOutfitRecommendation JSON_parse ai (occasion (app p))
                    (gender (app p)) (Some (preferences (app p)))) with
       | Return data => (data, None, false)
       | Throw _ => (JNull, Some MSG_UNABLE, false)
       end
  /\ (forall f, field_value f (app p2) = field_value f (app p)).
Proof.
  intros Hp Hv. cbv zeta.
  assert (H1 : fire JSON_parse Submit p =
               mkPage (rendered (app p)
                         (setResult JNull (setError None (setLoading true
                            (submitted_form (app p))))))
                 [(occasion (app p), gender (app p), Some (preferences (app p)))]
                 (console p)).
  { cbn [fire]. rewrite handleSubmit_eq.
    apply form_valid_iff in Hv. rewrite Hv, Hp. reflexivity. }
  rewrite H1.
  rewrite (fire_Settle_only (mkPage _ _ _) ai (occasion (app p)) (gender (app p))
             (Some (preferences (app p))) eq_refl).
  cbn [app pending].
  split; [reflexivity|]. split; [apply effects_outcome|]. split; [reflexivity|].
  split.
  - unfold rendered at 1. rewrite effects_outcome, settled_cells.
    pose proof (effects_outcome (app p)
                  (setResult JNull (setError None (setLoading true
                     (submitted_form (app p)))))) as He.
    apply outcome_fields in He as (Hr & He & _). unfold rendered.
    rewrite Hr, He. reflexivity.
  - intros f. rewrite rendered_fields.
    assert (Hres : forall settled st, field_value f (handleSubmit_resume settled st)
                                      = field_value f st)
      by (intros [d|e] st; destruct f; reflexivity).
    rewrite Hres, rendered_fields. destruct f; reflexivity.
Qed.

(** X8.  [handleReset] does not cancel a pending call and does not
    turn [loading] off: after a reset issued while a call is pending the
    call is still pending and [loading] is still on; when the call
    settles, its value (or the fixed error) is stored although the form
    has been emptied. *)
Theorem reset_does_not_cancel (p : Page) (ai : GenAI)
    (o g : jsstring) (pr : option jsstring) :
  pending p = [(o, g, pr)] ->
  let p1 := fire JSON_parse Reset p in
  let p2 := fire JSON_parse (Settle 0 ai) p1 in
  pending p1 = [(o, g, pr)]
  /\ loading (app p1) = loading (app p)
  /\ (forall f, field_value f (app p1) = [])
  /\ pending p2 = []
  /\ outcome (app p2)
     = match fst (getOutfitRecommendation JSON_parse ai o g pr) with
       | Return data => (data, None, false)
       | Throw _ => (JNull, Some MSG_UNABLE, false)
       end
  /\ (forall f, field_value f (app p2) = []).
Proof.
  intros Hp. cbv zeta.
  assert (H1 : fire JSON_parse Reset p
               = mkPage (rendered (app p) (handleReset (app p))) (pending p) (console p))
    by reflexivity.
  rewrite H1, Hp.
  rewrite (fire_Settle_only (mkPage _ _ _) ai o g pr eq_refl). cbn [app pending].
  pose proof (effects_outcome (app p) (handleReset (app p))) as He.
  apply outcome_fields in He as (Hr & He & Hl). unfold rendered in *.
  split; [reflexivity|]. split; [exact Hl|].
  split; [intros f; rewrite (proj2 (effects_keeps _ _)); destruct f; reflexivity|].
  split; [reflexivity|]. split.
  - rewrite effects_outcome, settled_cells, Hr, He. reflexivity.
  - intros f. rewrite (proj2 (effects_keeps _ _)).
    assert (Hres : forall settled st, field_value f (handleSubmit_resume settled st)
                                      = field_value f st)
      by (intros [d|e] st; destruct f; reflexivity).
    rewrite Hres, (proj2 (effects_keeps _ _)). destruct f; reflexivity.
Qed.

(** ** The choices the page offers *)

Lemma suggested_occasions_valid (t : jsstring) :
  t ∈ SUGGESTED_OCCASIONS -> validate_message occasion_field t = [].
Proof.
  unfold SUGGESTED_OCCASIONS. rewrite !elem_of_cons, elem_of_nil.
  intros H. repeat (destruct H as [->|H]; [vm_compute; reflexivity|]). contradiction.
Qed.

Lemma gender_options_valid (opt : jsstring) :
  opt ∈ GENDER_OPTIONS -> validate_message gender_field opt = [].
Proof.
  unfold GENDER_OPTIONS. rewrite !elem_of_cons, elem_of_nil.
  intros H. repeat (destruct H as [->|H]; [vm_compute; reflexivity|]). contradiction.
Qed.

(** X9.  The choices the page offers are valid ones: in a reachable
    state, after a click on a suggestion chip the occasion is the text of
    the chip, the field is touched and its message is empty; after a
    click on a style-focus button the gender is that option, the field is
    touched and its message is empty. *)
Theorem offered_choices_are_valid (p : Page) :
  reachable JSON_parse p ->
  (forall t, enabled (ClickSuggestion t) p = true ->
     occasion (app (fire JSON_parse (ClickSuggestion t) p)) = t
     /\ of_occasion (touched (app (fire JSON_parse (ClickSuggestion t) p))) = true
     /\ of_occasion (validationErrors (app (fire JSON_parse (ClickSuggestion t) p))) = [])
  /\ (forall opt, enabled (SelectGender opt) p = true ->
      gender (app (fire JSON_parse (SelectGender opt) p)) = opt
      /\ of_gender (touched (app (fire JSON_parse (SelectGender opt) p))) = true
      /\ of_gender (validationErrors (app (fire JSON_parse (SelectGender opt) p))) = []).
Proof.
  intros Hr. split.
  - intros t Hen.
    pose proof (reachable_in_step _ (reachable_fire JSON_parse p _ Hr Hen) occasion_field)
      as Hs.
    cbn [enabled] in Hen. apply andb_true_iff in Hen as [_ Hin].
    apply bool_decide_eq_true in Hin.
    rewrite expected_message_eq in Hs. cbn [get_field field_value] in Hs.
    assert (Hv : occasion (app (fire JSON_parse (ClickSuggestion t) p)) = t)
      by exact (rendered_fields (app p) (handleSuggestionClick t (app p)) occasion_field).
    assert (Ht : of_occasion (touched (app (fire JSON_parse (ClickSuggestion t) p))) = true)
      by (cbn [fire app]; unfold rendered; rewrite (proj1 (effects_keeps _ _)); reflexivity).
    rewrite Ht, Hv, (suggested_occasions_valid t Hin) in Hs. auto.
  - intros opt Hen.
    pose proof (reachable_in_step _ (reachable_fire JSON_parse p _ Hr Hen) gender_field)
      as Hs.
    cbn [enabled] in Hen. apply andb_true_iff in Hen as [_ Hin].
    apply bool_decide_eq_true in Hin.
    rewrite expected_message_eq in Hs. cbn [get_field field_value] in Hs.
    assert (Hv : gender (app (fire JSON_parse (SelectGender opt) p)) = opt)
      by exact (rendered_fields (app p) (handleGenderSelect opt (app p)) gender_field).
    assert (Ht : of_gender (touched (app (fire JSON_parse (SelectGender opt) p))) = true)
      by (cbn [fire app]; unfold rendered; rewrite (proj1 (effects_keeps _ _)); reflexivity).
    rewrite Ht, Hv, (gender_options_valid opt Hin) in Hs. auto.
Qed.

End FormFacts.

(* ================================================================== *)
(** * Properties of the request and of its schema *)
(* ================================================================== *)

Section RequestFacts.

Lemma userPrompt_eq (o g : jsstring) (p : option jsstring) :
  userPrompt o g p
  = prompt_head o g
      ++ match p with
         | Some (c :: s) => js "My preferences are: " ++ c :: s
         | _ => []
         end
      ++ prompt_tail.
Proof.
  unfold userPrompt, template, prompt_head, prompt_tail.
  cbn [List.map concat]. rewrite !app_nil_l, app_nil_r.
  rewrite <- !app_comm_cons, <- !app_assoc. cbn [app].
  do 7 f_equal.
  destruct p as [[|c s]|]; cbn [str_falsy]; rewrite ?app_nil_r; reflexivity.
Qed.

(** X10.  The preferences are optional in the request: an empty
    string gives the same request as no preferences at all, and
    non-empty preferences are put in verbatim after "My preferences
    are: ", between two parts of the prompt that do not depend on
    them; in the request the model, the instruction and the schema do
    not depend on what the user typed. *)
Theorem request_preferences_optional (o g : jsstring) :
  request o g (Some []) = request o g None
  /\ (exists head tail,
        contents (request o g None) = head ++ tail
        /\ forall p, p <> [] ->
             contents (request o g (Some p))
             = head ++ js "My preferences are: " ++ p ++ tail)
  /\ (forall p o' g' p',
        model (request o g p) = model (request o' g' p')
        /\ config (request o g p) = config (request o' g' p')).
Proof.
  split; [reflexivity|]. split; [|intros; split; reflexivity].
  exists (prompt_head o g), prompt_tail. cbn [contents request].
  rewrite userPrompt_eq. split; [reflexivity|].
  intros [|c s] Hp; [contradiction|]. rewrite userPrompt_eq.
  rewrite <- !app_assoc. reflexivity.
Qed.

Lemma admits_string (x : JSValue) :
  admits Type_STRING x = true <-> exists s, x = JStr s.
Proof.
  split.
  - destruct x; try discriminate. eauto.
  - intros [s ->]. reflexivity.
Qed.

Lemma admits_array (items : Schema) (x : JSValue) :
  admits (Type_ARRAY items) x = true
  <-> exists l, x = JArr l /\ forallb (admits items) l = true.
Proof.
  split.
  - destruct x; try discriminate. cbn [admits]. eauto.
  - intros (l & -> & H). exact H.
Qed.

Lemma admits_object (props : list (jsstring * Schema)) (req : list jsstring) (x : JSValue) :
  admits (Type_OBJECT props req) x = true
  <-> exists ms, x = JObj ms
        /\ (forall k, In k req -> is_Some (get_member k ms))
        /\ (forall k s y, In (k, s) props -> get_member k ms = Some y -> admits s y = true).
Proof.
  split.
  - destruct x as [| | | | |ms]; try discriminate. cbn [admits].
    intros H. apply andb_true_iff in H as [Hreq Hprops]. exists ms.
    split; [reflexivity|]. split.
    + intros k Hk. rewrite forallb_forall in Hreq. specialize (Hreq k Hk).
      apply bool_decide_eq_true in Hreq. exact Hreq.
    + induction props as [|[k0 s0] props IH]; [intros ? ? ? []|].
      apply andb_true_iff in Hprops as [H0 Hrest].
      intros k s y [[= <- <-]|Hin] Hy.
      * rewrite Hy in H0. exact H0.
      * exact (IH Hrest k s y Hin Hy).
  - intros (ms & -> & Hreq & Hprops). cbn [admits]. apply andb_true_iff. split.
    + apply forallb_forall. intros k Hk. apply bool_decide_eq_true, Hreq, Hk.
    + induction props as [|[k0 s0] props IH]; [reflexivity|].
      apply andb_true_iff. split.
      * destruct (get_member k0 ms) as [y|] eqn:Hy; [|reflexivity].
        apply (Hprops k0 s0 y); [left; reflexivity | exact Hy].
      * apply IH. intros k s y Hin. apply Hprops. right. exact Hin.
Qed.

Lemma admits_record (props : list (jsstring * Schema)) (x : JSValue) :
  admits (Type_OBJECT props (List.map fst props)) x = true
  <-> exists ms, x = JObj ms /\ List.Forall (member_admitted ms) props.
Proof.
  rewrite admits_object. split.
  - intros (ms & -> & Hreq & Hprops). exists ms. split; [reflexivity|].
    apply List.Forall_forall. intros [k s] Hin.
    destruct (Hreq k) as [y Hy]; [apply (in_map fst _ _ Hin)|].
    exists y. split; [exact Hy | exact (Hprops k s y Hin Hy)].
  - intros (ms & -> & Hall). exists ms. split; [reflexivity|].
    rewrite List.Forall_forall in Hall. split.
    + intros k Hk. apply in_map_iff in Hk as ([k' s] & <- & Hin).
      destruct (Hall _ Hin) as (y & Hy & _). exists y. exact Hy.
    + intros k s y Hin Hy. destruct (Hall _ Hin) as (y' & Hy' & Hadm).
      cbn [fst snd] in *. congruence.
Qed.

Lemma field_is_Some {A} (f : JSValue -> option A) (k : jsstring) (v : JSValue) :
  is_Some (field f k v)
  <-> exists ms y, v = JObj ms /\ get_member k ms = Some y /\ is_Some (f y).
Proof.
  split.
  - destruct v as [| | | | |ms]; cbn [field]; try (intros [? H]; discriminate H).
    destruct (get_member k ms) as [y|] eqn:Hy; [|intros [? H]; discriminate H].
    intros H. exists ms, y. split; [reflexivity|]. split; [exact Hy | exact H].
  - intros (ms & y & -> & Hy & H). cbn [field]. rewrite Hy. exact H.
Qed.

Lemma as_string_admits (x : JSValue) :
  admits Type_STRING x = true <-> is_Some (as_string x).
Proof.
  destruct x; cbn; split; try discriminate; try (intros [? H]; discriminate H); eauto.
Qed.

Lemma as_array_admits {A} (f : JSValue -> option A) (items : Schema) :
  (forall x, admits items x = true <-> is_Some (f x)) ->
  forall x, admits (Type_ARRAY items) x = true <-> is_Some (as_array f x).
Proof.
  intros Hf x. rewrite admits_array. split.
  - intros (l & -> & H). cbn [as_array]. apply mapM_is_Some.
    apply Forall_forall. intros y Hy. apply Hf.
    rewrite forallb_forall in H. apply H, list_elem_of_In, Hy.
  - destruct x as [| | | |l|]; cbn [as_array]; try (intros [? H]; discriminate H).
    intros H. exists l. split; [reflexivity|]. apply mapM_is_Some in H.
    apply forallb_forall. intros y Hy. apply Hf.
    rewrite Forall_forall in H. apply H, list_elem_of_In, Hy.
Qed.

Lemma member_admitted_field {A} (f : JSValue -> option A) (k : jsstring) (s : Schema)
    (ms : list (jsstring * JSValue)) :
  (forall x, admits s x = true <-> is_Some (f x)) ->
  member_admitted ms (k, s) <-> is_Some (field f k (JObj ms)).
Proof.
  intros Hf. rewrite field_is_Some. unfold member_admitted. cbn [fst snd]. split.
  - intros (y & Hy & H). exists ms, y. split; [reflexivity|]. split; [exact Hy|].
    apply Hf, H.
  - intros (ms' & y & [= <-] & Hy & H). exists y. split; [exact Hy|]. apply Hf, H.
Qed.

Lemma bind_is_Some {A B} (c : option A) (k : A -> option B) :
  is_Some (c ≫= k) <-> exists a, c = Some a /\ is_Some (k a).
Proof.
  destruct c as [a|]; cbn; split.
  - intros H. exists a. auto.
  - intros (a' & [= <-] & H). exact H.
  - intros [? H]; discriminate H.
  - intros (a' & H & _); discriminate H.
Qed.

Lemma as_AdditionalSuggestion_admits (x : JSValue) :
  admits suggestion_schema x = true <-> is_Some (as_AdditionalSuggestion x).
Proof.
  unfold suggestion_schema.
  change [js "label"; js "outfit_summary"]
    with (List.map fst [ (js "label", Type_STRING); (js "outfit_summary", Type_STRING) ]).
  rewrite admits_record. unfold as_AdditionalSuggestion. split.
  - intros (ms & -> & H).
    apply List.Forall_cons_iff in H as [H1 H]. apply List.Forall_cons_iff in H as [H2 _].
    apply (member_admitted_field as_string) in H1 as [a1 E1]; [|apply as_string_admits].
    apply (member_admitted_field as_string) in H2 as [a2 E2]; [|apply as_string_admits].
    rewrite E1, E2. cbn. eauto.
  - intros H.
    apply bind_is_Some in H as (a1 & E1 & H).
    apply bind_is_Some in H as (a2 & E2 & _).
    destruct x as [| | | | |ms]; try discriminate. exists ms. split; [reflexivity|].
    repeat apply List.Forall_cons; [..|apply List.Forall_nil].
    + apply (member_admitted_field as_string); [apply as_string_admits | rewrite E1; eauto].
    + apply (member_admitted_field as_string); [apply as_string_admits | rewrite E2; eauto].
Qed.

Lemma as_PrimaryOutfit_admits (x : JSValue) :
  admits primary_outfit_schema x = true <-> is_Some (as_PrimaryOutfit x).
Proof.
  unfold primary_outfit_schema.
  change [ js "title"; js "top"; js "bottom"; js "footwear"; js "accessories";
           js "reasoning" ]
    with (List.map fst [ (js "title", Type_STRING);
                         (js "top", Type_STRING);
                         (js "bottom", Type_STRING);
                         (js "footwear", Type_STRING);
                         (js "accessories", Type_ARRAY Type_STRING);
                         (js "reasoning", Type_STRING) ]).
  rewrite admits_record. unfold as_PrimaryOutfit.
  pose proof as_string_admits as Hs.
  pose proof (as_array_admits as_string Type_STRING Hs) as Ha.
  split.
  - intros (ms & -> & H).
    apply List.Forall_cons_iff in H as [H1 H]. apply List.Forall_cons_iff in H as [H2 H].
    apply List.Forall_cons_iff in H as [H3 H]. apply List.Forall_cons_iff in H as [H4 H].
    apply List.Forall_cons_iff in H as [H5 H]. apply List.Forall_cons_iff in H as [H6 _].
    apply (member_admitted_field as_string _ _ _ Hs) in H1 as [a1 E1].
    apply (member_admitted_field as_string _ _ _ Hs) in H2 as [a2 E2].
    apply (member_admitted_field as_string _ _ _ Hs) in H3 as [a3 E3].
    apply (member_admitted_field as_string _ _ _ Hs) in H4 as [a4 E4].
    apply (member_admitted_field (as_array as_string) _ _ _ Ha) in H5 as [a5 E5].
    apply (member_admitted_field as_string _ _ _ Hs) in H6 as [a6 E6].
    rewrite E1, E2, E3, E4, E5, E6. cbn. eauto.
  - intros H.
    apply bind_is_Some in H as (a1 & E1 & H). apply bind_is_Some in H as (a2 & E2 & H).
    apply bind_is_Some in H as (a3 & E3 & H). apply bind_is_Some in H as (a4 & E4 & H).
    apply bind_is_Some in H as (a5 & E5 & H). apply bind_is_Some in H as (a6 & E6 & _).
    destruct x as [| | | | |ms]; try discriminate. exists ms. split; [reflexivity|].
    repeat apply List.Forall_cons; [..|apply List.Forall_nil].
    + apply (member_admitted_field as_string _ _ _ Hs). rewrite E1. eauto.
    + apply (member_admitted_field as_string _ _ _ Hs). rewrite E2. eauto.
    + apply (member_admitted_field as_string _ _ _ Hs). rewrite E3. eauto.
    + apply (member_admitted_field as_string _ _ _ Hs). rewrite E4. eauto.
    + apply (member_admitted_field (as_array as_string) _ _ _ Ha). rewrite E5. eauto.
    + apply (member_admitted_field as_string _ _ _ Hs). rewrite E6. eauto.
Qed.

(** X11.  The response schema of the request and the interfaces of
    [types.ts] describe the same values: the schema admits a value
    exactly when the value has the shape of a [StylistResponse] (every
    declared field present at its declared type, further members
    allowed). *)
Theorem responseSchema_admits_iff_StylistResponse
    (o g : jsstring) (p : option jsstring) (v : JSValue) :
  admits (responseSchema (config (request o g p))) v = true
  <-> exists r, as_StylistResponse v = Some r.
Proof.
  change (responseSchema (config (request o g p)))
    with (Type_OBJECT
            [ (js "primary_outfit", primary_outfit_schema);
              (js "additional_suggestions", Type_ARRAY suggestion_schema);
              (js "styling_notes", Type_STRING) ]
            (List.map fst
               [ (js "primary_outfit", primary_outfit_schema);
                 (js "additional_suggestions", Type_ARRAY suggestion_schema);
                 (js "styling_notes", Type_STRING) ])).
  rewrite admits_record. fold (is_Some (as_StylistResponse v)). unfold as_StylistResponse.
  pose proof as_string_admits as Hs.
  pose proof as_PrimaryOutfit_admits as Hp.
  pose proof (as_array_admits as_AdditionalSuggestion suggestion_schema
                as_AdditionalSuggestion_admits) as Ha.
  split.
  - intros (ms & -> & H).
    apply List.Forall_cons_iff in H as [H1 H]. apply List.Forall_cons_iff in H as [H2 H].
    apply List.Forall_cons_iff in H as [H3 _].
    apply (member_admitted_field as_PrimaryOutfit _ _ _ Hp) in H1 as [a1 E1].
    apply (member_admitted_field (as_array as_AdditionalSuggestion) _ _ _ Ha) in H2 as [a2 E2].
    apply (member_admitted_field as_string _ _ _ Hs) in H3 as [a3 E3].
    rewrite E1, E2, E3. cbn. eauto.
  - intros H.
    apply bind_is_Some in H as (a1 & E1 & H). apply bind_is_Some in H as (a2 & E2 & H).
    apply bind_is_Some in H as (a3 & E3 & _).
    destruct v as [| | | | |ms]; try discriminate. exists ms. split; [reflexivity|].
    repeat apply List.Forall_cons; [..|apply List.Forall_nil].
    + apply (member_admitted_field as_PrimaryOutfit _ _ _ Hp). rewrite E1. eauto.
    + apply (member_admitted_field (as_array as_AdditionalSuggestion) _ _ _ Ha).
      rewrite E2. eauto.
    + apply (member_admitted_field as_string _ _ _ Hs). rewrite E3. eauto.
Qed.

End RequestFacts.

(* ================================================================== *)
(** * Further runs on concrete inputs *)
(* ================================================================== *)

Section FurtherRuns.

Lemma ready_page_reachable : reachable JSON.parse ready_page.
Proof.
  unfold ready_page.
  repeat (apply reachable_fire; [|vm_compute; reflexivity]).
  apply reachable_initial.
Qed.

Lemma ready_page_valid : form_valid (app ready_page).
Proof. intros []; vm_compute; reflexivity. Qed.

Lemma holds_empty : holds JSON.stringify ∅ [].
Proof. left. split; [apply lookup_empty | reflexivity]. Qed.

Lemma holds_chic : holds JSON.stringify chic_storage [gallery_chic].
Proof. right. apply lookup_insert_eq. Qed.

Lemma reachable_messages_in_step_witness :
  get_field occasion_field (validationErrors (app failed_visit))
  = if get_field occasion_field (touched (app failed_visit))
    then fst (validate occasion_field (field_value occasion_field (app failed_visit))
                (validationErrors (app failed_visit)))
    else [].
Proof.
  apply (reachable_messages_in_step JSON.parse failed_visit failed_visit_reachable
           occasion_field).
Defined.

Lemma at_most_one_call_pending_witness :
  length (pending failed_visit) <= 1
  /\ (loading (app failed_visit) = true <-> pending failed_visit <> [])
  /\ (enabled Submit failed_visit = true -> pending failed_visit = []).
Proof.
  apply (at_most_one_call_pending JSON.parse failed_visit failed_visit_reachable).
Defined.

Lemma error_is_the_fixed_sentence_witness :
  (error (app failed_visit) = None \/ error (app failed_visit) = Some MSG_UNABLE)
  /\ error (app failed_visit) <> Some MSG_UNEXPECTED.
Proof.
  apply (error_is_the_fixed_sentence JSON.parse failed_visit failed_visit_reachable).
Defined.

Lemma submit_then_settle_witness :
  pending ready_page = []
  /\ pending waiting_page = [(js "Gallery Opening", js "Female", Some [])]
  /\ outcome (app (fire JSON.parse (Settle 0 stylist) waiting_page))
     = (StylistResponse_to_js full_response, None, false).
Proof.
  pose proof (submit_then_settle JSON.parse ready_page stylist eq_refl ready_page_valid)
    as H.
  cbv zeta in H. destruct H as (H1 & _ & _ & H2 & _).
  split; [reflexivity|]. split; [exact H1|].
  etransitivity; [exact H2|]. vm_compute. reflexivity.
Defined.

Lemma reset_does_not_cancel_witness :
  pending waiting_page = [(js "Gallery Opening", js "Female", Some [])]
  /\ loading (app (fire JSON.parse Reset waiting_page)) = true
  /\ occasion (app (fire JSON.parse (Settle 0 stylist)
                      (fire JSON.parse Reset waiting_page))) = []
  /\ outcome (app (fire JSON.parse (Settle 0 stylist)
                     (fire JSON.parse Reset waiting_page)))
     = (StylistResponse_to_js full_response, None, false).
Proof.
  pose proof (reset_does_not_cancel JSON.parse waiting_page stylist
                (js "Gallery Opening") (js "Female") (Some []) eq_refl) as H.
  cbv zeta in H. destruct H as (_ & H1 & _ & _ & H2 & H3).
  split; [reflexivity|]. split; [rewrite H1; reflexivity|].
  split; [exact (H3 occasion_field)|].
  etransitivity; [exact H2|]. vm_compute. reflexivity.
Defined.

Lemma offered_choices_are_valid_witness :
  (forall t, enabled (ClickSuggestion t) initial_Page = true ->
     occasion (app (fire JSON.parse (ClickSuggestion t) initial_Page)) = t
     /\ of_occasion (touched (app (fire JSON.parse (ClickSuggestion t) initial_Page))) = true
     /\ of_occasion (validationErrors
                       (app (fire JSON.parse (ClickSuggestion t) initial_Page))) = [])
  /\ (forall opt, enabled (SelectGender opt) initial_Page = true ->
      gender (app (fire JSON.parse (SelectGender opt) initial_Page)) = opt
      /\ of_gender (touched (app (fire JSON.parse (SelectGender opt) initial_Page))) = true
      /\ of_gender (validationErrors
                      (app (fire JSON.parse (SelectGender opt) initial_Page))) = []).
Proof.
  apply (offered_choices_are_valid JSON.parse initial_Page (reachable_initial JSON.parse)).
Defined.

Lemma display_touches_only_its_key_witness :
  (forall k, k <> SAVED_OUTFITS_KEY ->
     localStorage (toggleSave JSON.parse JSON.stringify no_quota
                     (mount JSON.parse gallery_chic corrupted_storage [])) !! k
     = corrupted_storage !! k)
  /\ (forall outfit,
        localStorage (rerender JSON.parse outfit
                        (toggleSave JSON.parse JSON.stringify no_quota
                           (mount JSON.parse gallery_chic corrupted_storage [])))
        = localStorage (toggleSave JSON.parse JSON.stringify no_quota
                          (mount JSON.parse gallery_chic corrupted_storage [])))
  /\ (forall outfit,
        localStorage
          (mount JSON.parse outfit
             (localStorage (toggleSave JSON.parse JSON.stringify no_quota
                              (mount JSON.parse gallery_chic corrupted_storage [])))
             (errors_logged (toggleSave JSON.parse JSON.stringify no_quota
                               (mount JSON.parse gallery_chic corrupted_storage []))))
        = localStorage (toggleSave JSON.parse JSON.stringify no_quota
                          (mount JSON.parse gallery_chic corrupted_storage []))).
Proof.
  apply (display_touches_only_its_key JSON.parse JSON.stringify no_quota corrupted_storage).
  apply display_toggled, display_mounted.
Defined.

Lemma non_array_item_witness :
  (exists e,
      mount JSON.parse gallery_chic object_storage []
      = mkDisplay gallery_chic false object_storage
          [mkLog (js "Failed to read from local storage") e])
  /\ (exists e,
        toggleSave JSON.parse JSON.stringify no_quota
          (mkDisplay gallery_chic false object_storage [])
        = mkDisplay gallery_chic false object_storage
            [mkLog (js "Failed to save to local storage") e]).
Proof.
  apply (non_array_item_check_and_toggle_noop JSON.parse JSON.stringify no_quota
           (mkDisplay gallery_chic false object_storage []) gallery_chic []
           (js "{}") (JObj [])).
  - apply lookup_singleton_eq.
  - discriminate.
  - vm_compute. reflexivity.
  - discriminate.
Defined.

Lemma missing_or_empty_item_witness :
  mount JSON.parse gallery_chic ∅ [] = mkDisplay gallery_chic false ∅ []
  /\ rerender JSON.parse gallery_chic (mkDisplay gallery_chic true ∅ [])
     = mkDisplay gallery_chic true ∅ []
  /\ toggleSave JSON.parse JSON.stringify no_quota (mkDisplay gallery_chic true ∅ [])
     = mkDisplay gallery_chic false
         (<[SAVED_OUTFITS_KEY := JSON.stringify (JArr [])]> ∅) [].
Proof.
  pose proof (missing_or_empty_item JSON.parse JSON.stringify no_quota
                (mkDisplay gallery_chic true ∅ []) gallery_chic) as H.
  cbv zeta in H. cbn [localStorage errors_logged isSaved shown negb] in H.
  destruct H as (H1 & H2 & H3); [left; apply lookup_empty|].
  split; [exact H1|]. split; [exact H2 | exact (H3 eq_refl)].
Defined.


Lemma toggleSave_keeps_other_titles_witness :
  exists os',
    load JSON.parse
      (localStorage (toggleSave JSON.parse JSON.stringify no_quota
                       (mkDisplay gallery_chic true chic_storage [])))
    = Some os'
    /\ filter (fun o => title o <> title gallery_chic) os'
       = filter (fun o => title o <> title gallery_chic) [gallery_chic].
Proof.
  apply (toggleSave_keeps_other_titles JSON.parse JSON.stringify no_quota
           parse_serialized_ref stringify_not_empty
           (mkDisplay gallery_chic true chic_storage []) [gallery_chic] holds_chic).
Defined.

Lemma unsave_then_save_witness :
  isSaved (toggleSave JSON.parse JSON.stringify no_quota
             (toggleSave JSON.parse JSON.stringify no_quota
                (mkDisplay gallery_chic true chic_storage []))) = true
  /\ load JSON.parse
       (localStorage (toggleSave JSON.parse JSON.stringify no_quota
                        (toggleSave JSON.parse JSON.stringify no_quota
                           (mkDisplay gallery_chic true chic_storage []))))
     = Some (filter (fun o => title o <> title gallery_chic) [gallery_chic]
               ++ [gallery_chic])
  /\ errors_logged (toggleSave JSON.parse JSON.stringify no_quota
                      (toggleSave JSON.parse JSON.stringify no_quota
                         (mkDisplay gallery_chic true chic_storage []))) = [].
Proof.
  apply (unsave_then_save_replaces_record JSON.parse JSON.stringify no_quota
           parse_serialized_ref stringify_not_empty
           (mkDisplay gallery_chic true chic_storage []) [gallery_chic] holds_chic).
  - reflexivity.
  - reflexivity.
Defined.

Lemma toggleSave_trusts_the_flag_witness :
  isSaved (toggleSave JSON.parse JSON.stringify no_quota
             (mkDisplay gallery_chic false chic_storage [])) = true
  /\ load JSON.parse
       (localStorage (toggleSave JSON.parse JSON.stringify no_quota
                        (mkDisplay gallery_chic false chic_storage [])))
     = Some [gallery_chic; gallery_chic]
  /\ ~ NoDup (List.map title [gallery_chic; gallery_chic]).
Proof.
  apply (proj1 (toggleSave_trusts_the_flag JSON.parse JSON.stringify no_quota
                  parse_serialized_ref stringify_not_empty
                  (mkDisplay gallery_chic false chic_storage []) [gallery_chic]
                  holds_chic (fun _ _ => eq_refl))).
  - reflexivity.
  - left.
Defined.

Lemma healthy_storage_logs_nothing_witness :
  errors_logged (toggleSave JSON.parse JSON.stringify no_quota
                   (mount JSON.parse gallery_chic ∅ [])) = []
  /\ exists os,
       load JSON.parse
         (localStorage (toggleSave JSON.parse JSON.stringify no_quota
                          (mount JSON.parse gallery_chic ∅ [])))
       = Some os.
Proof.
  apply (healthy_storage_logs_nothing JSON.parse JSON.stringify no_quota
           parse_serialized_ref stringify_not_empty ∅ [] _ holds_empty).
  - reflexivity.
  - apply display_toggled, display_mounted.
Defined.

End FurtherRuns.
